(** * Distributed Delivery Service for MLS: a shallow embedding

    This development embeds the protocol components of the distributed
    delivery service (gossip broadcast, CAC broadcast, restrained consensus,
    full consensus and the delivery-service engine), the encoding of
    integers, strings and messages on a socket, and the key directory, as
    executable Rocq functions over explicit component state, and proves
    properties of them.  Part I holds the model, Part II the properties.

    Conventions shared by all modules.
    - A C++ member function [f] of a class becomes a function
      [f : ... -> State -> State] on the record of the fields of the class.
      The last field, [events], logs in program order every call made
      through a [std::function] callback or to the [Network] object.  A
      member function that an exception can leave also tells whether one
      did.  The
      code run by a callback belongs to another component and is not part of
      the function being modelled.  The delivery-service engine is the
      exception: the cascade consensus calls back into it before it returns,
      and the model of the engine runs these nested calls.
    - [std::set<K>] is a [gset K] and [std::map<K,V>] a [gmap K V]; where the
      source iterates over such a container the model iterates over its keys
      in increasing order.
    - [uint32_t] values are [N] with the wrap-around written out; container
      sizes ([size_t]) are [nat] or [N].
    - The MLS library (signing, verification, references, TLS codec) is not
      part of the repository; the operations used are parameters. *)

From Stdlib Require Import ZArith NArith Lia.
From stdpp Require Import sorting.
From stdpp Require Import base numbers option list gmap sets.

Open Scope N_scope.

(** * Part I: the model *)

(** ** Basic data *)

(** [mls::LeafIndex] wraps a [uint32_t]. *)
Abbreviation LeafIndex := N (only parsing).

(** [MessageRef] and [AuthContentRef] are fixed-length hash outputs compared
    byte-lexicographically; for equal lengths this is the numeric order of the
    big-endian value, which is what the model stores. *)
Abbreviation MessageRef := N (only parsing).
Abbreviation AuthContentRef := N (only parsing).

(** The epoch of a group state or of a message ([uint64_t]). *)
Abbreviation Epoch := N (only parsing).

(** Byte strings ([mls::bytes_ns::bytes]); a byte is a number below 256. *)
Definition bytes := list N.

(** Reduction of an integer to an unsigned machine word. *)
Definition wrap32 (z : Z) : N := Z.to_N (z mod 2 ^ 32).
Definition wrap64 (z : Z) : N := Z.to_N (z mod 2 ^ 64).

(** Keys of an ordered container, in iteration order. *)
Definition sorted_elements (s : gset N) : list N := merge_sort N.le (elements s).
Definition sorted_keys {V} (m : gmap N V) : list N := sorted_elements (dom m).

(** The values of a [std::map] in key order. *)
Definition sorted_values {V} (m : gmap N V) : list V :=
  omap (λ k, m !! k) (sorted_keys m).

(** [m[key]] of a [std::map]: the value under [key], a default-constructed one
    being inserted first when the key is absent. *)
Definition subscript {V} (dflt : V) (key : N) (m : gmap N V) : V * gmap N V :=
  match m !! key with
  | Some v => (v, m)
  | None => (dflt, <[key := dflt]> m)
  end.

(** A call that either returns or raises a C++ exception. *)
Inductive Outcome (A : Type) :=
| Returned (a : A)
| Thrown.
Arguments Returned {A} a.
Arguments Thrown {A}.

(** ** The Choice function of the delivery-service engine *)

Module Choice.
Section Choice.
(** [mls::MLSMessage] and [mls::Proposal] are opaque here. *)
Context {MLSMessage Proposal : Type}.

(** [ExtendedMLSState::getCommitContent] on the current state: the sender
    leaf and the proposals of a commit. *)
Variable getCommitContent : MLSMessage → LeafIndex * list Proposal.

Definition sender_of (c : MLSMessage) : LeafIndex := fst (getCommitContent c).
Definition count_of (c : MLSMessage) : nat := length (snd (getCommitContent c)).

(** The three locals of [chooseCommit]. *)
Record Best := mkBest {
  bestCommit : MLSMessage;
  bestSender : LeafIndex;
  bestCount : nat;
}.

(** One iteration of the [for] loop. *)
Definition chooseCommit_step (b : Best) (commit : MLSMessage) : Best :=
  let '(sender, proposals) := getCommitContent commit in
  if (bestCount b <? length proposals)%nat
     || ((length proposals =? bestCount b)%nat && (sender <? bestSender b))
  then mkBest commit sender (length proposals)
  else b.

(** [DistributedDeliveryService::chooseCommit].  The source reads
    [commits[0]] unconditionally; on an empty vector that is undefined, and
    the model returns [None]. *)
Definition chooseCommit (commits : list MLSMessage) : option MLSMessage :=
  match commits with
  | [] => None
  | c0 :: _ =>
      let '(bestSender0, proposals0) := getCommitContent c0 in
      Some (bestCommit
              (fold_left chooseCommit_step commits
                         (mkBest c0 bestSender0 (length proposals0))))
  end.

(** [c] is at most as good as [b]: fewer proposals, or as many and a sender
    that is not smaller. *)
Definition dominated (c b : MLSMessage) : Prop :=
  (count_of c < count_of b)%nat ∨ (count_of c = count_of b ∧ sender_of b ≤ sender_of c).

Definition consistent (b : Best) : Prop :=
  bestSender b = sender_of (bestCommit b) ∧ bestCount b = count_of (bestCommit b).

(** Candidates are told apart by the pair (proposal count, sender). *)
Definition key_of (c : MLSMessage) : nat * LeafIndex := (count_of c, sender_of c).

End Choice.

(** A concrete instance: a commit is its (sender, proposals) pair. *)
Definition sample_content (c : LeafIndex * list nat) : LeafIndex * list nat := c.

End Choice.

(** ** The MLS library as seen by the delivery service *)

(** [mls::Sender]: a variant over the sender kinds of RFC 9420. *)
Inductive Sender :=
| MemberSender (sender : LeafIndex)
| ExternalSenderIndex (sender_index : N)
| NewMemberProposalSender
| NewMemberCommitSender.

Inductive SenderType := member | external | new_member_proposal | new_member_commit.

#[global] Instance Sender_eq_dec : EqDecision Sender.
Proof. solve_decision. Defined.
#[global] Instance SenderType_eq_dec : EqDecision SenderType.
Proof. solve_decision. Defined.

Definition sender_type (s : Sender) : SenderType :=
  match s with
  | MemberSender _ => member
  | ExternalSenderIndex _ => external
  | NewMemberProposalSender => new_member_proposal
  | NewMemberCommitSender => new_member_commit
  end.

(** [mls::GroupContent::content]: application data, a proposal or a commit.
    Proposals and commits are opaque to the consensus layers. *)
Inductive Content :=
| ApplicationData (data : bytes)
| ProposalContent (body : bytes)
| CommitContent (body : bytes).

Inductive ContentType := application | proposal | commit.

#[global] Instance Content_eq_dec : EqDecision Content.
Proof. solve_decision. Defined.
#[global] Instance ContentType_eq_dec : EqDecision ContentType.
Proof. solve_decision. Defined.

Definition content_type (c : Content) : ContentType :=
  match c with
  | ApplicationData _ => application
  | ProposalContent _ => proposal
  | CommitContent _ => commit
  end.

(** [mls::AuthenticatedContent]: the fields the delivery service reads, and
    the authentication data it hands back to the library. *)
Record AuthenticatedContent := mkAuthenticatedContent {
  ac_sender : Sender;
  ac_epoch : Epoch;
  ac_content : Content;
  ac_auth : bytes;
}.

#[global] Instance AuthenticatedContent_eq_dec : EqDecision AuthenticatedContent.
Proof. solve_decision. Defined.

(** [ExtendedMLSState]: the epoch, the own leaf index and the occupied leaves
    of the ratchet tree with their identities, in leaf order. *)
Record ExtendedMLSState := mkState {
  epoch : Epoch;
  index : LeafIndex;
  leaves : list (LeafIndex * bytes);
}.

(** Member functions of [ExtendedMLSState]. *)
Module MLSState.

(** [getMembersIdentity(excludeSelf)]. *)
Definition getMembersIdentity (st : ExtendedMLSState) (excludeSelf : bool) : list bytes :=
  snd <$> filter (λ leaf, negb excludeSelf || negb (fst leaf =? index st)) (leaves st).

(** [getMembersIndexes]. *)
Definition getMembersIndexes (st : ExtendedMLSState) : list LeafIndex := fst <$> leaves st.

(** [getMemberNameByIndex].  The source dereferences the leaf node at [idx]
    without a test; for a leaf that is not in the tree the model returns the
    empty name. *)
Definition getMemberNameByIndex (st : ExtendedMLSState) (idx : LeafIndex) : bytes :=
  match filter (λ leaf, fst leaf = idx) (leaves st) with
  | leaf :: _ => snd leaf
  | [] => []
  end.

End MLSState.

(** The on-wire body of a CAC signature ([CACSignatureData]). *)
Record CACSignatureData := mkSigData {
  sd_sequence : N;
  sd_witnessOrReady : N;
  sd_messageReference : MessageRef;
}.

(** The operations of the MLS library used by the consensus layers:
    [mls::State::sign] and [verify], [CipherSuite::ref] on authenticated
    content, and the TLS codec of [CACSignatureData], whose decoder raises on
    malformed input ([None]). *)
Class MLSLibrary := {
  state_sign : ExtendedMLSState → Sender → Content → AuthenticatedContent;
  state_verify : ExtendedMLSState → AuthenticatedContent → bool;
  ref_auth : AuthenticatedContent → AuthContentRef;
  marshal_sig : CACSignatureData → bytes;
  unmarshal_sig : bytes → option CACSignatureData;
}.

(** Signing and verification through [ExtendedMLSState]. *)
Module MLSOps.

(** [ExtendedMLSState::sign]: sign [content] as application data from self. *)
Definition sign `{MLSLibrary} (st : ExtendedMLSState) (content : bytes) : AuthenticatedContent :=
  state_sign st (MemberSender (index st)) (ApplicationData content).

(** [ExtendedMLSState::verify]. *)
Definition verify `{MLSLibrary} (st : ExtendedMLSState) (ac : AuthenticatedContent) : bool :=
  state_verify st ac.

End MLSOps.

(** ** CAC signatures *)

Module CACSignature.

Definition WITNESS : bool := true.
Definition READY : bool := false.
Definition WITNESS_CODE : N := 1.
Definition READY_CODE : N := 2.

Record t := mk {
  sequence : N;
  witnessOrReady : bool;
  referencedMessage : MessageRef;
  authContent : AuthenticatedContent;
  authContentRef : AuthContentRef;
}.

(** The private constructor. *)
Definition make `{MLSLibrary} (sequence : N) (witnessOrReady : bool)
    (messageReference : MessageRef) (authContent : AuthenticatedContent) : t :=
  mk sequence witnessOrReady messageReference authContent (ref_auth authContent).

(** [sender()].  [std::get<mls::MemberSender>] raises for another sender
    kind; the two functions that build a signature only do so for member
    senders, and the model returns leaf 0 in the other cases. *)
Definition sender (sig : t) : LeafIndex :=
  match ac_sender (authContent sig) with
  | MemberSender i => i
  | _ => 0
  end.

Definition isWitness (sig : t) : bool := bool_decide (witnessOrReady sig = WITNESS).
Definition isReady (sig : t) : bool := bool_decide (witnessOrReady sig = READY).

Section Ops.
Context `{MLSLibrary}.

(** [CACSignature::verifyAndConvert]. *)
Definition verifyAndConvert (state : ExtendedMLSState) (ac : AuthenticatedContent)
    : Outcome (option t) :=
  if negb (MLSOps.verify state ac)
     || negb (ac_epoch ac =? epoch state)
     || negb (bool_decide (sender_type (ac_sender ac) = member))
     || negb (bool_decide (content_type (ac_content ac) = application))
  then Returned None
  else
    match ac_content ac with
    | ApplicationData content =>
        match unmarshal_sig content with
        | None => Thrown
        | Some data =>
            if negb (sd_witnessOrReady data =? WITNESS_CODE)
               && negb (sd_witnessOrReady data =? READY_CODE)
            then Returned None
            else Returned (Some (make (sd_sequence data)
                                      (sd_witnessOrReady data =? WITNESS_CODE)
                                      (sd_messageReference data) ac))
        end
    | _ => Thrown
    end.

(** [CACSignature::sign]. *)
Definition sign (state : ExtendedMLSState) (sequence : N) (witnessOrReady : bool)
    (referencedMessage : MessageRef) : t :=
  let authContent :=
    MLSOps.sign state (marshal_sig
      (mkSigData sequence
                 (if bool_decide (witnessOrReady = WITNESS) then WITNESS_CODE else READY_CODE)
                 referencedMessage)) in
  make sequence witnessOrReady referencedMessage authContent.

(** The first four checks of [verifyAndConvert]. *)
Definition authenticated (state : ExtendedMLSState) (ac : AuthenticatedContent) : Prop :=
  MLSOps.verify state ac = true
  ∧ ac_epoch ac = epoch state
  ∧ sender_type (ac_sender ac) = member
  ∧ content_type (ac_content ac) = application.

(** The conditions under which an authenticated content is accepted as the
    signature [sig]: the four checks, and a body that decodes with a
    recognised kind. *)
Definition accepted (state : ExtendedMLSState) (ac : AuthenticatedContent) (sig : t) : Prop :=
  authenticated state ac
  ∧ ∃ content data,
      ac_content ac = ApplicationData content
      ∧ unmarshal_sig content = Some data
      ∧ (sd_witnessOrReady data = WITNESS_CODE ∨ sd_witnessOrReady data = READY_CODE)
      ∧ sig = make (sd_sequence data) (sd_witnessOrReady data =? WITNESS_CODE)
                   (sd_messageReference data) ac.

(** The application bytes of [ac] do not decode. *)
Definition undecodable (ac : AuthenticatedContent) : Prop :=
  ∃ content, ac_content ac = ApplicationData content ∧ unmarshal_sig content = None.

End Ops.
End CACSignature.

(** ** CAC broadcast *)

Module CAC.

(** Machine arithmetic on [uint] (32 bits) and [size_t] (64 bits). *)
Definition add32 (a b : N) : N := (a + b) mod 2 ^ 32.
Definition mul32 (a b : N) : N := (a * b) mod 2 ^ 32.
Definition sub32 (a b : N) : N := (a mod 2 ^ 32 + 2 ^ 32 - b mod 2 ^ 32) mod 2 ^ 32.
Definition mul64 (a b : N) : N := (a * b) mod 2 ^ 64.
Definition sub64 (a b : N) : N := (a mod 2 ^ 64 + 2 ^ 64 - b mod 2 ^ 64) mod 2 ^ 64.

(** Conversion of an unsigned value to [int] (two's complement, 32 bits). *)
Definition to_int (a : N) : Z :=
  let low := Z.of_N (a mod 2 ^ 32) in
  if (low <? 2 ^ 31)%Z then low else (low - 2 ^ 32)%Z.

(** [struct MessageSigs]. *)
Record MessageSigs := mkMessageSigs {
  signedWitness : gset LeafIndex;
  signedReady : gset LeafIndex;
}.

Definition witnessCount (s : MessageSigs) : N := N.of_nat (size (signedWitness s)).
Definition readyCount (s : MessageSigs) : N := N.of_nat (size (signedReady s)).

(** A default-constructed [MessageSigs]. *)
Definition no_sigs : MessageSigs := mkMessageSigs ∅ ∅.

(** [std::map::insert]: the map is left alone when the key is present. *)
Definition insert_new {V} (key : N) (v : V) (m : gmap N V) : gmap N V :=
  match m !! key with
  | Some _ => m
  | None => <[key := v]> m
  end.

Section CAC.
Context `{MLSLibrary}.

(** The payload type [MessageT], its reference under the cipher suite, a
    default-constructed payload, and the Choice callback [m_choice]. *)
Context {MessageT : Type}.
Variable ref : MessageT → MessageRef.
Variable default_message : MessageT.
Variable choice : list MessageT → MessageT.

(** [CACMessage<MessageT>]. *)
Record CACMessage := mkCACMessage {
  witnessOrReady : bool;
  sigs : list AuthenticatedContent;
  optBroadcastMessage : option MessageT;
}.

Definition isWitness (msg : CACMessage) : bool :=
  bool_decide (witnessOrReady msg = CACSignature.WITNESS).
Definition isReady (msg : CACMessage) : bool :=
  bool_decide (witnessOrReady msg = CACSignature.READY).

(** Calls through the callbacks [m_transmit], [m_deliver] and [m_broadcast]. *)
Inductive Event :=
| Transmit (message : MessageT)
| Deliver (message : MessageT) (conflictSet : list MessageRef)
          (signatures : list CACSignature.t)
| Broadcast (msg : CACMessage).

(** The fields of [CACBroadcast<MessageT>], and the calls made so far. *)
Record State := mkState {
  m_state : ExtendedMLSState;
  k : N;
  n : N;
  t : N;
  qw : N;
  qr : N;
  m_sigCount : N;
  m_hasSentReady : bool;
  m_messageQueueLock : bool;
  m_messageQueue : list CACMessage;
  m_messages : gmap MessageRef MessageT;
  m_validSignatures : gmap AuthContentRef CACSignature.t;
  m_validMessages : gset MessageRef;
  m_seenMessages : gset MessageRef;
  m_waitingMessages : gset MessageRef;
  m_deliveredMessages : gset MessageRef;
  m_sequences : gmap LeafIndex N;
  m_signaturesCount : gmap MessageRef MessageSigs;
  events : list Event;
}.

(** Field updates. *)
Definition set_m_sigCount (v : N) (st : State) : State :=
  mkState (m_state st) (k st) (n st) (t st) (qw st) (qr st) v (m_hasSentReady st)
    (m_messageQueueLock st) (m_messageQueue st) (m_messages st) (m_validSignatures st)
    (m_validMessages st) (m_seenMessages st) (m_waitingMessages st) (m_deliveredMessages
    st) (m_sequences st) (m_signaturesCount st) (events st).
Definition set_m_hasSentReady (v : bool) (st : State) : State :=
  mkState (m_state st) (k st) (n st) (t st) (qw st) (qr st) (m_sigCount st) v
    (m_messageQueueLock st) (m_messageQueue st) (m_messages st) (m_validSignatures st)
    (m_validMessages st) (m_seenMessages st) (m_waitingMessages st) (m_deliveredMessages
    st) (m_sequences st) (m_signaturesCount st) (events st).
Definition set_m_messageQueueLock (v : bool) (st : State) : State :=
  mkState (m_state st) (k st) (n st) (t st) (qw st) (qr st) (m_sigCount st)
    (m_hasSentReady st) v (m_messageQueue st) (m_messages st) (m_validSignatures st)
    (m_validMessages st) (m_seenMessages st) (m_waitingMessages st) (m_deliveredMessages
    st) (m_sequences st) (m_signaturesCount st) (events st).
Definition set_m_messageQueue (v : list CACMessage) (st : State) : State :=
  mkState (m_state st) (k st) (n st) (t st) (qw st) (qr st) (m_sigCount st)
    (m_hasSentReady st) (m_messageQueueLock st) v (m_messages st) (m_validSignatures st)
    (m_validMessages st) (m_seenMessages st) (m_waitingMessages st) (m_deliveredMessages
    st) (m_sequences st) (m_signaturesCount st) (events st).
Definition set_m_messages (v : gmap MessageRef MessageT) (st : State) : State :=
  mkState (m_state st) (k st) (n st) (t st) (qw st) (qr st) (m_sigCount st)
    (m_hasSentReady st) (m_messageQueueLock st) (m_messageQueue st) v (m_validSignatures
    st) (m_validMessages st) (m_seenMessages st) (m_waitingMessages st)
    (m_deliveredMessages st) (m_sequences st) (m_signaturesCount st) (events st).
Definition set_m_validSignatures (v : gmap AuthContentRef CACSignature.t) (st : State) : State :=
  mkState (m_state st) (k st) (n st) (t st) (qw st) (qr st) (m_sigCount st)
    (m_hasSentReady st) (m_messageQueueLock st) (m_messageQueue st) (m_messages st) v
    (m_validMessages st) (m_seenMessages st) (m_waitingMessages st) (m_deliveredMessages
    st) (m_sequences st) (m_signaturesCount st) (events st).
Definition set_m_validMessages (v : gset MessageRef) (st : State) : State :=
  mkState (m_state st) (k st) (n st) (t st) (qw st) (qr st) (m_sigCount st)
    (m_hasSentReady st) (m_messageQueueLock st) (m_messageQueue st) (m_messages st)
    (m_validSignatures st) v (m_seenMessages st) (m_waitingMessages st)
    (m_deliveredMessages st) (m_sequences st) (m_signaturesCount st) (events st).
Definition set_m_seenMessages (v : gset MessageRef) (st : State) : State :=
  mkState (m_state st) (k st) (n st) (t st) (qw st) (qr st) (m_sigCount st)
    (m_hasSentReady st) (m_messageQueueLock st) (m_messageQueue st) (m_messages st)
    (m_validSignatures st) (m_validMessages st) v (m_waitingMessages st)
    (m_deliveredMessages st) (m_sequences st) (m_signaturesCount st) (events st).
Definition set_m_waitingMessages (v : gset MessageRef) (st : State) : State :=
  mkState (m_state st) (k st) (n st) (t st) (qw st) (qr st) (m_sigCount st)
    (m_hasSentReady st) (m_messageQueueLock st) (m_messageQueue st) (m_messages st)
    (m_validSignatures st) (m_validMessages st) (m_seenMessages st) v
    (m_deliveredMessages st) (m_sequences st) (m_signaturesCount st) (events st).
Definition set_m_deliveredMessages (v : gset MessageRef) (st : State) : State :=
  mkState (m_state st) (k st) (n st) (t st) (qw st) (qr st) (m_sigCount st)
    (m_hasSentReady st) (m_messageQueueLock st) (m_messageQueue st) (m_messages st)
    (m_validSignatures st) (m_validMessages st) (m_seenMessages st) (m_waitingMessages
    st) v (m_sequences st) (m_signaturesCount st) (events st).
Definition set_m_sequences (v : gmap LeafIndex N) (st : State) : State :=
  mkState (m_state st) (k st) (n st) (t st) (qw st) (qr st) (m_sigCount st)
    (m_hasSentReady st) (m_messageQueueLock st) (m_messageQueue st) (m_messages st)
    (m_validSignatures st) (m_validMessages st) (m_seenMessages st) (m_waitingMessages
    st) (m_deliveredMessages st) v (m_signaturesCount st) (events st).
Definition set_m_signaturesCount (v : gmap MessageRef MessageSigs) (st : State) : State :=
  mkState (m_state st) (k st) (n st) (t st) (qw st) (qr st) (m_sigCount st)
    (m_hasSentReady st) (m_messageQueueLock st) (m_messageQueue st) (m_messages st)
    (m_validSignatures st) (m_validMessages st) (m_seenMessages st) (m_waitingMessages
    st) (m_deliveredMessages st) (m_sequences st) v (events st).
Definition set_events (v : list Event) (st : State) : State :=
  mkState (m_state st) (k st) (n st) (t st) (qw st) (qr st) (m_sigCount st)
    (m_hasSentReady st) (m_messageQueueLock st) (m_messageQueue st) (m_messages st)
    (m_validSignatures st) (m_validMessages st) (m_seenMessages st) (m_waitingMessages
    st) (m_deliveredMessages st) (m_sequences st) (m_signaturesCount st) v.
Definition log (e : Event) (st : State) : State := set_events (events st ++ [e]) st.

(** [newEpoch], with [k] the constructor argument.  The message queue and its
    lock are not reset. *)
Definition newEpoch (state : ExtendedMLSState) (st : State) : State :=
  let n := N.of_nat (length (MLSState.getMembersIdentity state false)) mod 2 ^ 32 in
  let t := sub32 n (k st) / 5 in
  let qw := add32 (mul32 4 t) (k st) in
  let qr := sub32 n t in
  mkState state (k st) n t qw qr 0 false (m_messageQueueLock st) (m_messageQueue st)
          ∅ ∅ ∅ ∅ ∅ ∅ ∅ ∅ (events st).

(** The object after construction with [k] and the first [newEpoch]. *)
Definition start (k : N) (state : ExtendedMLSState) : State :=
  newEpoch state (mkState state k 0 0 0 0 0 false false [] ∅ ∅ ∅ ∅ ∅ ∅ ∅ ∅ []).

(** [hasStarted]. *)
Definition hasStarted (st : State) : bool := 0 <? m_sigCount st.

(** The entry of [m_signaturesCount] for [r].  Where the source reads
    [m_signaturesCount[r]] the key is one it has just found in that map, so
    no entry is created by the read. *)
Definition sigs_of (r : MessageRef) (st : State) : MessageSigs :=
  default no_sigs (m_signaturesCount st !! r).

(** The last statements of [processNewSig] and [emitSignature]: count the
    signer among the witnesses or the readies of the referenced message. *)
Definition countSignature (sig : CACSignature.t) (st : State) : State :=
  let sender := CACSignature.sender sig in
  let r := CACSignature.referencedMessage sig in
  let entry := sigs_of r st in
  if CACSignature.isWitness sig then
    set_m_signaturesCount
      (<[r := mkMessageSigs ({[sender]} ∪ signedWitness entry) (signedReady entry)]>
         (m_signaturesCount st)) st
  else if CACSignature.isReady sig then
    set_m_signaturesCount
      (<[r := mkMessageSigs (signedWitness entry) ({[sender]} ∪ signedReady entry)]>
         (m_signaturesCount st)) st
  else st.

(** [processNewSig]. *)
Definition processNewSig (sig : CACSignature.t) (st : State) : State :=
  let '(count, sequences) := subscript 0 (CACSignature.sender sig) (m_sequences st) in
  let st := set_m_sequences (<[CACSignature.sender sig := add32 count 1]> sequences) st in
  let st := set_m_validSignatures
              (insert_new (ref_auth (CACSignature.authContent sig)) sig (m_validSignatures st))
              st in
  countSignature sig st.

(** [emitSignature]. *)
Definition emitSignature (witnessOrReady : bool) (r : MessageRef) (st : State) : State :=
  let sig := CACSignature.sign (m_state st) (m_sigCount st) witnessOrReady r in
  let st := set_m_sigCount (add32 (m_sigCount st) 1) st in
  let sigRef := ref_auth (CACSignature.authContent sig) in
  let st := set_m_validSignatures (insert_new sigRef sig (m_validSignatures st)) st in
  countSignature sig st.

(** [validSignatures]. *)
Definition validSignatures (st : State) : list CACSignature.t :=
  sorted_values (m_validSignatures st).

(** [broadcastMessage]. *)
Definition broadcastMessage (witnessOrReady : bool) (message : option MessageT)
    (st : State) : State :=
  let st := if bool_decide (witnessOrReady = CACSignature.READY)
            then set_m_hasSentReady true st else st in
  let sigs := CACSignature.authContent <$> sorted_values (m_validSignatures st) in
  log (Broadcast (mkCACMessage witnessOrReady sigs message)) st.

(** [broadcast]. *)
Definition broadcast (message : MessageT) (st : State) : State :=
  if 0 <? m_sigCount st then st
  else
    let r := ref message in
    let st := set_m_messages (insert_new r message (m_messages st)) st in
    let st := set_m_seenMessages ({[r]} ∪ m_seenMessages st) st in
    let st := set_m_validMessages ({[r]} ∪ m_validMessages st) st in
    let st := emitSignature CACSignature.WITNESS r st in
    broadcastMessage CACSignature.WITNESS (Some message) st.

(** [m_messages[r]]: the payload recorded under [r]; a default-constructed
    payload is recorded first when there is none. *)
Definition message_at (r : MessageRef) (st : State) : MessageT * State :=
  let '(message, messages) := subscript default_message r (m_messages st) in
  (message, set_m_messages messages st).

(** The loop that fills [choices] from [m_validMessages]. *)
Definition collectChoices (st : State) : list MessageT * State :=
  fold_left (λ acc validRef,
               let '(message, st) := message_at validRef (snd acc) in
               (fst acc ++ [message], st))
            (sorted_elements (m_validMessages st)) ([], st).

(** [validateMessage]. *)
Definition validateMessage (message : MessageT) (st : State) : State :=
  let r := ref message in
  let st := set_m_validMessages ({[r]} ∪ m_validMessages st) st in
  let st :=
    if m_sigCount st =? 0 then
      let '(choices, st) := collectChoices st in
      let chosen := choice choices in
      let chosenRef := ref chosen in
      let st := set_m_waitingMessages (m_waitingMessages st ∖ {[chosenRef]}) st in
      let st := emitSignature CACSignature.WITNESS chosenRef st in
      broadcastMessage CACSignature.WITNESS (Some chosen) st
    else st in
  if bool_decide (r ∈ m_waitingMessages st) then
    let st := set_m_waitingMessages (m_waitingMessages st ∖ {[r]}) st in
    let st := emitSignature CACSignature.WITNESS r st in
    broadcastMessage CACSignature.WITNESS None st
  else st.

(** [messagesWithEnoughWitness]. *)
Definition messagesWithEnoughWitness (st : State) : list MessageRef :=
  filter (λ r, qw st ≤ witnessCount (sigs_of r st)) (sorted_keys (m_signaturesCount st)).

(** The body of the first loop of [receivedReady]. *)
Definition emitReady (st : State) (readyMsg : MessageRef) : State :=
  if bool_decide (index (m_state st) ∈ signedReady (sigs_of readyMsg st)) then st
  else broadcastMessage CACSignature.READY None (emitSignature CACSignature.READY readyMsg st).

(** The conflict set computed by [receivedReady]. *)
Definition conflictSetOf (st : State) : list MessageRef :=
  filter (λ r, k st ≤ witnessCount (sigs_of r st)) (sorted_keys (m_signaturesCount st)).

(** The body of the last loop of [receivedReady]. *)
Definition deliverReady (conflictSet : list MessageRef) (st : State) (r : MessageRef)
    : State :=
  if bool_decide (qr st ≤ readyCount (sigs_of r st))
     && negb (bool_decide (r ∈ m_deliveredMessages st))
  then
    let st := set_m_deliveredMessages ({[r]} ∪ m_deliveredMessages st) st in
    let '(message, st) := message_at r st in
    log (Deliver message conflictSet (validSignatures st)) st
  else st.

(** [receivedReady]. *)
Definition receivedReady (st : State) : State :=
  let readyMessages := messagesWithEnoughWitness st in
  match readyMessages with
  | [] => st
  | _ =>
      let st := fold_left emitReady readyMessages st in
      let conflictSet := conflictSetOf st in
      fold_left (deliverReady conflictSet) conflictSet st
  end.

(** The first loop of [receivedWitness]: the references that are counted,
    have a known payload and have not been seen are marked seen. *)
Definition markSeen (acc : list MessageRef * State) (r : MessageRef)
    : list MessageRef * State :=
  let st := snd acc in
  if negb (bool_decide (r ∈ m_seenMessages st))
     && bool_decide (is_Some (m_messages st !! r))
  then (fst acc ++ [r], set_m_seenMessages ({[r]} ∪ m_seenMessages st) st)
  else acc.

(** The body of the second loop: hand the payload to the transmit callback. *)
Definition transmit (st : State) (r : MessageRef) : State :=
  let '(message, st) := message_at r st in
  log (Transmit message) st.

(** Sign the choice among the valid messages when nothing was signed yet. *)
Definition witnessChoice (st : State) : State :=
  if (m_sigCount st =? 0) && negb (size (m_validMessages st) =? 0)%nat then
    let '(choices, st) := collectChoices st in
    let chosen := choice choices in
    let chosenRef := ref chosen in
    let st := emitSignature CACSignature.WITNESS chosenRef st in
    broadcastMessage CACSignature.WITNESS (Some chosen) st
  else st.

(** The condition of the immediate delivery. *)
Definition deliversImmediately (st : State) (message : MessageRef) : bool :=
  (mul32 5 (t st) <? n st)
  && (sub32 (n st) (t st) <=? witnessCount (sigs_of message st))
  && (size (m_signaturesCount st) =? 1)%nat
  && negb (bool_decide (message ∈ m_deliveredMessages st)).

(** The body of the loop over [messagesWithEnoughWitness()]. *)
Definition readyAndDeliver (st : State) (message : MessageRef) : State :=
  let st := emitReady st message in
  if deliversImmediately st message then
    let '(payload, st) := message_at message st in
    log (Deliver payload [message] (validSignatures st)) st
  else st.

(** The [any_of] test and the loop it guards. *)
Definition readyOnWitnesses (st : State) : State :=
  let threshold := add32 (add32 (n st) (t st) / 2) 1 in
  if existsb (λ r, threshold <=? witnessCount (sigs_of r st))
             (sorted_keys (m_signaturesCount st))
  then fold_left readyAndDeliver (messagesWithEnoughWitness st) st
  else st.

(** The body of the loop over [witnessedMessages]; [entry] is the copy of the
    counters taken before the loop. *)
Definition witnessOrWait (minWitnesses : N) (st : State) (msg : MessageRef * MessageSigs)
    : State :=
  let '(r, entry) := msg in
  if (minWitnesses <=? witnessCount entry)
     && negb (bool_decide (r ∈ m_waitingMessages st))
     && negb (bool_decide (index (m_state st) ∈ signedWitness (sigs_of r st)))
  then
    if bool_decide (r ∈ m_validMessages st) then
      broadcastMessage CACSignature.WITNESS None (emitSignature CACSignature.WITNESS r st)
    else set_m_waitingMessages ({[r]} ∪ m_waitingMessages st) st
  else st.

(** The last part of [receivedWitness], once enough processes were seen. *)
Definition witnessAfterQuorum (st : State) : State :=
  let seenProcesses := N.of_nat (size (m_sequences st)) + 1 in
  if (sub32 (n st) (t st) <=? seenProcesses) && negb (m_hasSentReady st) then
    let msgWithEnoughWitness :=
      List.find (λ r, sub64 seenProcesses (mul32 2 (t st)) <=? witnessCount (sigs_of r st))
                (sorted_keys (m_signaturesCount st)) in
    let direct :=
      match msgWithEnoughWitness with
      | Some r =>
          if (mul32 5 (t st) <? n st)
             && negb (bool_decide (index (m_state st) ∈ signedWitness (sigs_of r st)))
             && bool_decide (r ∈ m_validMessages st)
          then Some r else None
      | None => None
      end in
    match direct with
    | Some r =>
        broadcastMessage CACSignature.WITNESS None (emitSignature CACSignature.WITNESS r st)
    | None =>
        let witnessedMessages :=
          (λ r, (r, sigs_of r st))
            <$> filter (λ r, 0 < witnessCount (sigs_of r st))
                       (sorted_keys (m_signaturesCount st)) in
        let minWitnesses :=
          Z.to_N (Z.max 1 (to_int (sub64 (n st)
                     (mul64 (t st) (N.of_nat (length witnessedMessages) + 1))))) in
        fold_left (witnessOrWait minWitnesses) witnessedMessages st
    end
  else st.

(** [receivedWitness]. *)
Definition receivedWitness (st : State) : State :=
  let '(toBeTransmitted, st) :=
    fold_left markSeen (sorted_keys (m_signaturesCount st)) ([], st) in
  let st := fold_left transmit toBeTransmitted st in
  let st := witnessChoice st in
  let st := readyOnWitnesses st in
  witnessAfterQuorum st.

(** [sig.sequence <= m_sequences[sig.sender()] + 1], with the entry that the
    subscript creates for an unknown sender. *)
Definition inOrder (sig : CACSignature.t) (st : State) : bool * State :=
  let '(count, sequences) := subscript 0 (CACSignature.sender sig) (m_sequences st) in
  (CACSignature.sequence sig <=? add32 count 1, set_m_sequences sequences st).

(** The body of the loop over [message.sigs]: the state, the out-of-order
    signatures set aside (a set ordered by [authContentRef]), and whether
    [verifyAndConvert] raised. *)
Definition acceptSig (acc : State * gmap AuthContentRef CACSignature.t * bool)
    (sig : AuthenticatedContent) : State * gmap AuthContentRef CACSignature.t * bool :=
  let '(st, outOfOrderSigs, thrown) := acc in
  if thrown then acc
  else if bool_decide (is_Some (m_validSignatures st !! ref_auth sig)) then acc
  else
    match CACSignature.verifyAndConvert (m_state st) sig with
    | Thrown => (st, outOfOrderSigs, true)
    | Returned None => acc
    | Returned (Some verifiedSig) =>
        let '(ok, st) := inOrder verifiedSig st in
        if ok then (processNewSig verifiedSig st, outOfOrderSigs, false)
        else (st, insert_new (CACSignature.authContentRef verifiedSig) verifiedSig
                             outOfOrderSigs, false)
    end.

(** One pass of the [do ... while] loop over the out-of-order signatures:
    the state and the references of the signatures processed. *)
Definition retryPass (acc : State * list AuthContentRef) (sig : CACSignature.t)
    : State * list AuthContentRef :=
  let '(ok, st) := inOrder sig (fst acc) in
  if ok then (processNewSig sig st, snd acc ++ [CACSignature.authContentRef sig])
  else (st, snd acc).

(** The [do ... while] loop.  Each pass but the last removes a signature, so
    [S (size outOfOrderSigs)] passes are enough. *)
Fixpoint retryOutOfOrder (passes : nat) (outOfOrderSigs : gmap AuthContentRef CACSignature.t)
    (st : State) : State :=
  match passes with
  | O => st
  | S passes =>
      let '(st, processed) := fold_left retryPass (sorted_values outOfOrderSigs) (st, []) in
      match processed with
      | [] => st
      | _ => retryOutOfOrder passes (foldr delete outOfOrderSigs processed) st
      end
  end.

(** [_receiveMessage]; the flag tells whether an exception left the call. *)
Definition _receiveMessage (message : CACMessage) (st : State) : State * bool :=
  let st :=
    match optBroadcastMessage message with
    | Some payload => set_m_messages (insert_new (ref payload) payload (m_messages st)) st
    | None => st
    end in
  let '(st, outOfOrderSigs, thrown) := fold_left acceptSig (sigs message) (st, ∅, false) in
  if thrown then (st, true)
  else
    let st := retryOutOfOrder (S (size outOfOrderSigs)) outOfOrderSigs st in
    if isWitness message then (receivedWitness st, false)
    else if isReady message then (receivedReady st, false)
    else (st, false).

(** The [while] loop of [receiveMessage] over the queued messages; an
    exception leaves the loop with the rest of the queue in place. *)
Fixpoint drainQueue (queue : list CACMessage) (st : State) : State * bool :=
  match queue with
  | [] => (set_m_messageQueue [] st, false)
  | msg :: queue =>
      let '(st, thrown) := _receiveMessage msg (set_m_messageQueue queue st) in
      if thrown then (st, true) else drainQueue queue st
  end.

(** [receiveMessage].  After an exception the lock stays taken. *)
Definition receiveMessage (message : CACMessage) (st : State) : State * bool :=
  let st := set_m_messageQueue (m_messageQueue st ++ [message]) st in
  if m_messageQueueLock st then (st, false)
  else
    let st := set_m_messageQueueLock true st in
    let '(st, thrown) := drainQueue (m_messageQueue st) st in
    if thrown then (st, true) else (set_m_messageQueueLock false st, false).

(** *** Notions used to state the properties *)

(** The payload that [m_messages[r]] yields. *)
Definition payload_at (r : MessageRef) (st : State) : MessageT :=
  default default_message (m_messages st !! r).

(** The references handed to the deliver callback so far, in order. *)
Definition delivered_refs (st : State) : list MessageRef :=
  omap (λ e, match e with Deliver message _ _ => Some (ref message) | _ => None end)
       (events st).

(** The two statements guarded by the test of [emitReady]. *)
Definition signReady (st : State) (r : MessageRef) : State :=
  broadcastMessage CACSignature.READY None (emitSignature CACSignature.READY r st).

(** The fields that only [newEpoch], the delivery loop of [receivedReady]
    and the queue handling write. *)
Definition same_frame (st st' : State) : Prop :=
  m_state st' = m_state st ∧ k st' = k st ∧ n st' = n st ∧ t st' = t st
  ∧ qw st' = qw st ∧ qr st' = qr st
  ∧ m_deliveredMessages st' = m_deliveredMessages st.

(** What a run of [signReady] over counted references leaves as it was. *)
Definition ready_only (st st' : State) : Prop :=
  same_frame st st'
  ∧ m_messages st' = m_messages st
  ∧ dom (m_signaturesCount st') = dom (m_signaturesCount st)
  ∧ (∀ r, signedWitness (sigs_of r st') = signedWitness (sigs_of r st))
  ∧ (∀ r, signedReady (sigs_of r st) ⊆ signedReady (sigs_of r st')).

(** What the delivery loop leaves as it was. *)
Definition deliver_only (st st' : State) : Prop :=
  m_signaturesCount st' = m_signaturesCount st
  ∧ m_validSignatures st' = m_validSignatures st
  ∧ qr st' = qr st
  ∧ ∀ r, payload_at r st' = payload_at r st.

End CAC.

Arguments CACMessage MessageT : clear implicits.
Arguments Event MessageT : clear implicits.
Arguments State MessageT : clear implicits.

End CAC.

(** ** Restrained consensus *)

Module RC.

(** [RestrainedConsContent] and [RestrainedConsensusMessage]. *)
Record RestrainedConsContent := mkContent {
  sigSet : list AuthenticatedContent;
  powerConflictSet : list (list (LeafIndex * MessageRef));
  proofs : list AuthenticatedContent;
}.

Inductive RestrainedConsensusMessage :=
| RestrainedCons (content : RestrainedConsContent)
| Retract (retract : AuthenticatedContent).

(** Calls through the callbacks [m_decide], [m_bottom] and [m_broadcast], and
    to the timers of the network. *)
Inductive Event :=
| Decide (messages : list MessageRef) (sigs retractSigs : list AuthenticatedContent)
| Bottom
| Broadcast (message : RestrainedConsensusMessage) (recipients : list bytes)
| RegisterTimeout (delay : Z)
| UnregisterTimeout (id : N).

(** The fields of [RestrainedConsensus], and the calls made so far. *)
Record State := mkState {
  m_networkRtt : Z;
  m_state : ExtendedMLSState;
  m_retract : bool;
  m_hasDelivered : bool;
  m_hasFinished : bool;
  m_powerSet : list (list (LeafIndex * MessageRef));
  m_signed : gmap (gset (LeafIndex * MessageRef)) (gmap LeafIndex AuthenticatedContent);
  m_retracted : list AuthenticatedContent;
  m_timeout : option N;
  events : list Event;
}.

(** Field updates. *)
Definition set_m_state (v : ExtendedMLSState) (st : State) : State :=
  mkState (m_networkRtt st) v (m_retract st) (m_hasDelivered st) (m_hasFinished st)
    (m_powerSet st) (m_signed st) (m_retracted st) (m_timeout st) (events st).
Definition set_m_retract (v : bool) (st : State) : State :=
  mkState (m_networkRtt st) (m_state st) v (m_hasDelivered st) (m_hasFinished st)
    (m_powerSet st) (m_signed st) (m_retracted st) (m_timeout st) (events st).
Definition set_m_hasDelivered (v : bool) (st : State) : State :=
  mkState (m_networkRtt st) (m_state st) (m_retract st) v (m_hasFinished st) (m_powerSet
    st) (m_signed st) (m_retracted st) (m_timeout st) (events st).
Definition set_m_hasFinished (v : bool) (st : State) : State :=
  mkState (m_networkRtt st) (m_state st) (m_retract st) (m_hasDelivered st) v
    (m_powerSet st) (m_signed st) (m_retracted st) (m_timeout st) (events st).
Definition set_m_powerSet (v : list (list (LeafIndex * MessageRef))) (st : State) : State :=
  mkState (m_networkRtt st) (m_state st) (m_retract st) (m_hasDelivered st)
    (m_hasFinished st) v (m_signed st) (m_retracted st) (m_timeout st) (events st).
Definition set_m_signed (v : gmap (gset (LeafIndex * MessageRef)) (gmap LeafIndex AuthenticatedContent)) (st : State) : State :=
  mkState (m_networkRtt st) (m_state st) (m_retract st) (m_hasDelivered st)
    (m_hasFinished st) (m_powerSet st) v (m_retracted st) (m_timeout st) (events st).
Definition set_m_retracted (v : list AuthenticatedContent) (st : State) : State :=
  mkState (m_networkRtt st) (m_state st) (m_retract st) (m_hasDelivered st)
    (m_hasFinished st) (m_powerSet st) (m_signed st) v (m_timeout st) (events st).
Definition set_m_timeout (v : option N) (st : State) : State :=
  mkState (m_networkRtt st) (m_state st) (m_retract st) (m_hasDelivered st)
    (m_hasFinished st) (m_powerSet st) (m_signed st) (m_retracted st) v (events st).
Definition set_events (v : list Event) (st : State) : State :=
  mkState (m_networkRtt st) (m_state st) (m_retract st) (m_hasDelivered st)
    (m_hasFinished st) (m_powerSet st) (m_signed st) (m_retracted st) (m_timeout st) v.
Definition log (e : Event) (st : State) : State := set_events (events st ++ [e]) st.

(** The sender leaf of a content; [std::get<mls::MemberSender>] raises for
    another kind of sender, which the callers exclude first. *)
Definition leaf_of (ac : AuthenticatedContent) : LeafIndex :=
  match ac_sender ac with
  | MemberSender i => i
  | _ => 0
  end.

Definition from_member (ac : AuthenticatedContent) : bool :=
  bool_decide (sender_type (ac_sender ac) = member).

(** The bytes of the ASCII string "RETRACT". *)
Definition RETRACT : bytes := [82; 69; 84; 82; 65; 67; 84].

(** [powerSet]: the subsets of the elements from [index] on. *)
Fixpoint powerSet {T} (input : list T) : list (list T) :=
  match input with
  | [] => [[]]
  | x :: rest =>
      let subsets := powerSet rest in
      subsets ++ ((λ currentSubset, currentSubset ++ [x]) <$> subsets)
  end.

Section RC.
Context `{MLSLibrary}.

(** The TLS codec of [vector<pair<LeafIndex, MessageRef>>]; the decoder
    raises on malformed input ([None]). *)
Variable marshal_pairs : list (LeafIndex * MessageRef) → bytes.
Variable unmarshal_pairs : bytes → option (list (LeafIndex * MessageRef)).

(** [newEpoch]. *)
Definition resetTimeout (st : State) : State :=
  match m_timeout st with
  | Some id => set_m_timeout None (log (UnregisterTimeout id) st)
  | None => st
  end.

Definition newEpoch (state : ExtendedMLSState) (st : State) : State :=
  resetTimeout
    (mkState (m_networkRtt st) state false false false [] ∅ [] (m_timeout st) (events st)).

(** The object after construction and the first [newEpoch]. *)
Definition start (networkRtt : Z) (state : ExtendedMLSState) : State :=
  newEpoch state (mkState networkRtt state false false false [] ∅ [] None []).

(** [bottom]. *)
Definition bottom (st : State) : State :=
  if m_hasFinished st then st
  else log Bottom (resetTimeout (set_m_hasFinished true st)).

(** [getParticipants], on a conflict set and on a power set. *)
Definition getParticipants (st : State) (conflictSet : list (LeafIndex * MessageRef))
    : list bytes :=
  (λ entry, MLSState.getMemberNameByIndex (m_state st) (fst entry)) <$> conflictSet.

Definition getPowerParticipants (st : State)
    (powerSet : list (list (LeafIndex * MessageRef))) : list bytes :=
  omap (λ elt, match elt with
               | [entry] => Some (MLSState.getMemberNameByIndex (m_state st) (fst entry))
               | _ => None
               end) powerSet.

(** [m_signed[elt][sender] = sig]. *)
Definition recordSigned (elt : gset (LeafIndex * MessageRef)) (sender : LeafIndex)
    (sig : AuthenticatedContent) (st : State) : State :=
  set_m_signed (<[elt := <[sender := sig]> (default ∅ (m_signed st !! elt))]> (m_signed st)) st.

(** [handleRetract] on a leaf index: drop the subsets that hold a pair of the
    retracted member. *)
Definition dropRetracted (retracted : LeafIndex) (st : State) : State :=
  set_m_powerSet
    (filter (λ elt, ¬ Exists (λ entry, fst entry = retracted) elt) (m_powerSet st)) st.

(** The search for the biggest element of [m_powerSet] in [checkCompletion]:
    the element and whether it is the only one of its size so far. *)
Definition biggestStep (acc : list (LeafIndex * MessageRef) * bool)
    (elt : list (LeafIndex * MessageRef)) : list (LeafIndex * MessageRef) * bool :=
  if (length (fst acc) <? length elt)%nat then (elt, true)
  else if (length elt =? length (fst acc))%nat then (fst acc, false)
  else acc.

(** [checkCompletion]. *)
Definition checkCompletion (st : State) : State :=
  match m_powerSet st with
  | [] => st
  | first :: others =>
      let '(biggest, uniqueBiggest) := fold_left biggestStep others (first, true) in
      if negb uniqueBiggest then bottom st
      else
        let key : gset (LeafIndex * MessageRef) := list_to_set biggest in
        let biggestSigs := default ∅ (m_signed st !! key) in
        let st := set_m_signed (<[key := biggestSigs]> (m_signed st)) st in
        if (size biggestSigs =? length biggest)%nat then
          let st := resetTimeout (set_m_hasFinished true st) in
          log (Decide (snd <$> biggest) (sorted_values biggestSigs) (m_retracted st)) st
        else st
  end.

(** [propose]; [timeoutId] is the identifier that [registerTimeout] returns.
    (The delayed broadcast under the test variable [TEST_RC_DELAY] is not
    modelled.) *)
Definition signSubset (st : State) (acc : list AuthenticatedContent * State)
    (elt : list (LeafIndex * MessageRef)) : list AuthenticatedContent * State :=
  if bool_decide (Exists (λ entry, fst entry = index (m_state st)) elt) then
    let sig := MLSOps.sign (m_state st) (marshal_pairs elt) in
    (fst acc ++ [sig], recordSigned (list_to_set elt) (index (m_state st)) sig (snd acc))
  else acc.

Definition propose (conflictSet : list (LeafIndex * MessageRef))
    (sigs : list CACSignature.t) (timeoutId : N) (st : State) : State :=
  if negb (m_retract st) && negb (m_hasDelivered st) then
    let st := set_m_hasDelivered true st in
    let st := set_m_powerSet (powerSet conflictSet) st in
    let '(sigSet, st) := fold_left (signSubset st) (m_powerSet st) ([], st) in
    let st := fold_left (λ st retract, dropRetracted (leaf_of retract) st)
                        (m_retracted st) st in
    let content := mkContent sigSet (m_powerSet st) (CACSignature.authContent <$> sigs) in
    let st := log (Broadcast (RestrainedCons content) (getParticipants st conflictSet)) st in
    set_m_timeout (Some timeoutId) (log (RegisterTimeout (2 * m_networkRtt st)) st)
  else st.

(** The loop over [content.proofs]: the converted signatures, [None] when one
    is refused, or an exception of [verifyAndConvert]. *)
Fixpoint convertProofs (state : ExtendedMLSState) (proofs : list AuthenticatedContent)
    : Outcome (option (list CACSignature.t)) :=
  match proofs with
  | [] => Returned (Some [])
  | sig :: proofs =>
      match CACSignature.verifyAndConvert state sig with
      | Thrown => Thrown
      | Returned None => Returned None
      | Returned (Some cacSig) =>
          match convertProofs state proofs with
          | Returned (Some rest) => Returned (Some (cacSig :: rest))
          | other => other
          end
      end
  end.

(** The sequence numbers seen per sender, and the gap test
    [*seq.rbegin() > seq.size() - 1]. *)
Definition sequencesOf (proofs : list CACSignature.t) : gmap LeafIndex (gset N) :=
  fold_left (λ sequences sig,
               <[CACSignature.sender sig :=
                   {[CACSignature.sequence sig]}
                   ∪ default ∅ (sequences !! CACSignature.sender sig)]> sequences)
            proofs ∅.

Definition hasGap (seq : gset N) : bool :=
  N.of_nat (size seq) - 1 <? foldr N.max 0 (elements seq).

(** The loop over [content.sigSet]: the map [signedSet], or [None] when an
    entry is refused.  [first] is [content.sigSet[0]]; the third test of the
    source compares its sender, not the sender of [sig], with [sender]. *)
Fixpoint checkSigSet (state : ExtendedMLSState) (first : AuthenticatedContent)
    (sender : LeafIndex) (sigSet : list AuthenticatedContent)
    (signedSet : gmap (gset (LeafIndex * MessageRef)) AuthenticatedContent)
    : option (gmap (gset (LeafIndex * MessageRef)) AuthenticatedContent) :=
  match sigSet with
  | [] => Some signedSet
  | sig :: sigSet =>
      if negb (MLSOps.verify state sig)
         || negb (from_member sig)
         || negb (leaf_of first =? sender)
      then None
      else
        match ac_content sig with
        | ApplicationData data =>
            match unmarshal_pairs data with
            | Some signedContent =>
                checkSigSet state first sender sigSet
                            (<[list_to_set signedContent := sig]> signedSet)
            | None => None
            end
        | _ => None
        end
  end.

(** [handleRestrainedCons]; the flag tells whether an exception left the call. *)
Definition handleRestrainedCons (content : RestrainedConsContent) (st : State)
    : State * bool :=
  match convertProofs (m_state st) (proofs content) with
  | Thrown => (st, true)
  | Returned None => (bottom st, false)
  | Returned (Some proofs) =>
      if bool_decide (map_Exists (λ _ seq, hasGap seq = true) (sequencesOf proofs))
      then (bottom st, false)
      else
        match sigSet content with
        | [] => (bottom st, false)
        | first :: _ =>
            if negb (from_member first) then (bottom st, false)
            else
              let sender := leaf_of first in
              match checkSigSet (m_state st) first sender (sigSet content) ∅ with
              | None => (bottom st, false)
              | Some signedSet =>
                  if m_hasDelivered st then
                    let st := map_fold (λ signedElt sig st, recordSigned signedElt sender sig st)
                                       st signedSet in
                    (checkCompletion st, false)
                  else
                    let sig := MLSOps.sign (m_state st) RETRACT in
                    let st := set_m_retract true st in
                    (log (Broadcast (Retract sig)
                                    (getPowerParticipants st (powerConflictSet content))) st,
                     false)
              end
        end
  end.

(** [handleRetract] on a received retract. *)
Definition handleRetract (retract : AuthenticatedContent) (st : State) : State :=
  if negb (from_member retract) then st
  else if negb (ac_epoch retract =? epoch (m_state st)) then st
  else if negb (MLSOps.verify (m_state st) retract) then st
  else if bool_decide (Exists (λ retracted, ac_sender retracted = ac_sender retract)
                              (m_retracted st)) then st
  else
    let st := set_m_retracted (m_retracted st ++ [retract]) st in
    checkCompletion (dropRetracted (leaf_of retract) st).

(** [receiveMessage]. *)
Definition receiveMessage (message : RestrainedConsensusMessage) (st : State)
    : State * bool :=
  if m_hasFinished st then (st, false)
  else
    match message with
    | RestrainedCons content => handleRestrainedCons content st
    | Retract retract => (handleRetract retract st, false)
    end.

(** *** Notions used to state the properties *)

(** The vector of pairs that an entry of [sigSet] carries, if it parses. *)
Definition parsed (sig : AuthenticatedContent) : option (list (LeafIndex * MessageRef)) :=
  match ac_content sig with
  | ApplicationData data => unmarshal_pairs data
  | _ => None
  end.

(** An entry that fails verification, is not from a member, or does not
    parse. *)
Definition invalid_entry (state : ExtendedMLSState) (sig : AuthenticatedContent) : Prop :=
  MLSOps.verify state sig = false ∨ from_member sig = false ∨ parsed sig = None.

End RC.
End RC.

(** ** Full consensus: the path of a COMMIT message

    The fields of [FullConsensus<T>] that a COMMIT message reads or writes,
    [getContentIfReady], [handleCommit] and the CONSENSUS_COMMIT branch of
    [receiveMessage]. *)

Module FC.

(** [ConsensusMessageContent] and [ConsensusCommitMessage]. *)
Record ConsensusMessageContent := mkContent {
  view : N;
  consensusMessage : MessageRef;
}.

Record ConsensusCommitMessage := mkCommit {
  signedContent : AuthenticatedContent;
}.

Section FC.
Context `{MLSLibrary}.

(** The decided type [T] with a default-constructed value, and the TLS
    decoder of [ConsensusMessageContent], which raises on malformed input
    ([None]). *)
Context {T : Type}.
Variable default_value : T.
Variable unmarshal_content : bytes → option ConsensusMessageContent.

(** Calls through the callback [m_deliver]. *)
Inductive Event :=
| Deliver (value : T).

Record State := mkState {
  m_state : ExtendedMLSState;
  f : N;
  m_currentView : N;
  m_futureMessages : gmap N (list ConsensusCommitMessage);
  m_signedCommit : gmap MessageRef (gset LeafIndex);
  m_messages : gmap MessageRef T;
  events : list Event;
}.

(** The state that [newEpoch] sets up: [f = (n - 1) / 3] in [uint]
    arithmetic, view 0, nothing recorded. *)
Definition start (state : ExtendedMLSState) : State :=
  let n := N.of_nat (length (MLSState.getMembersIdentity state false)) mod 2 ^ 32 in
  mkState state (CAC.sub32 n 1 / 3) 0 ∅ ∅ ∅ [].

(** The quorum [2*f + 1]. *)
Definition quorum (st : State) : N := CAC.add32 (CAC.mul32 2 (f st)) 1.

(** The senders recorded for a reference. *)
Definition signers (r : MessageRef) (st : State) : gset LeafIndex :=
  default ∅ (m_signedCommit st !! r).

(** [handleCommit]. *)
Definition handleCommit (sender : LeafIndex) (content : ConsensusMessageContent)
    (st : State) : State :=
  let r := consensusMessage content in
  let signed := {[sender]} ∪ signers r st in
  let st := mkState (m_state st) (f st) (m_currentView st) (m_futureMessages st)
                    (<[r := signed]> (m_signedCommit st)) (m_messages st) (events st) in
  if quorum st <=? N.of_nat (size signed) then
    let '(value, messages) := subscript default_value r (m_messages st) in
    mkState (m_state st) (f st) (m_currentView st) (m_futureMessages st)
            (m_signedCommit st) messages (events st ++ [Deliver value])
  else st.

(** [ExtendedMLSState::verifyAndExtract<ConsensusMessageContent>]. *)
Definition verifyAndExtract (state : ExtendedMLSState) (ac : AuthenticatedContent)
    : Outcome (option ConsensusMessageContent) :=
  if negb (MLSOps.verify state ac)
     || negb (bool_decide (content_type (ac_content ac) = application))
  then Returned None
  else
    match ac_content ac with
    | ApplicationData data =>
        match unmarshal_content data with
        | Some content => Returned (Some content)
        | None => Thrown
        end
    | _ => Thrown
    end.

(** [getContentIfReady] for a COMMIT message: the sender and content when the
    message is for the current view; a message for a later view is queued. *)
Definition getContentIfReady (message : ConsensusCommitMessage) (st : State)
    : Outcome (option (LeafIndex * ConsensusMessageContent) * State) :=
  let authContent := signedContent message in
  if negb (bool_decide (sender_type (ac_sender authContent) = member))
  then Returned (None, st)
  else
    match verifyAndExtract (m_state st) authContent with
    | Thrown => Thrown
    | Returned None => Returned (None, st)
    | Returned (Some content) =>
        if view content =? m_currentView st
        then Returned (Some (RC.leaf_of authContent, content), st)
        else if m_currentView st <? view content
        then Returned
               (None,
                mkState (m_state st) (f st) (m_currentView st)
                        (<[view content :=
                             default [] (m_futureMessages st !! view content) ++ [message]]>
                           (m_futureMessages st))
                        (m_signedCommit st) (m_messages st) (events st))
        else Returned (None, st)
    end.

(** The CONSENSUS_COMMIT branch of [receiveMessage]; the flag tells whether
    an exception left the call. *)
Definition receiveCommit (message : ConsensusCommitMessage) (st : State) : State * bool :=
  match getContentIfReady message st with
  | Thrown => (st, true)
  | Returned (None, st) => (st, false)
  | Returned (Some (sender, content), st) => (handleCommit sender content st, false)
  end.

(** *** Notions used to state the properties *)

(** The value that [m_messages[r]] yields. *)
Definition value_at (r : MessageRef) (st : State) : T :=
  default default_value (m_messages st !! r).

End FC.

Arguments State T : clear implicits.
Arguments Event T : clear implicits.

End FC.

(** ** A reference instance of the library interface

    Used to run the components on concrete inputs. *)

Module ReferenceLibrary.

(** Big-endian ("network byte order") integers of a fixed width. *)
Fixpoint be_bytes (width : nat) (v : N) : bytes :=
  match width with
  | O => []
  | S w => be_bytes w (v / 256) ++ [v mod 256]
  end.

Definition be_value (bs : bytes) : N := fold_left (λ acc b, acc * 256 + b) bs 0.

(** Length in bytes of a reference (the hash length of the cipher suite). *)
Definition ref_length : nat := 32.

(** Modelled from the spec: the TLS codec of [CACSignatureData]
    ([mls::tls::marshal] and [unmarshal], of the MLS library, are not in the
    repository).  The body is [sequence: u32], [kind: u8] and the referenced
    message, "all integers in network byte order, length-prefixed byte
    sequences"; the length prefix of a reference fits one byte. *)
Definition encode_sig (d : CACSignatureData) : bytes :=
  be_bytes 4 (sd_sequence d) ++ [sd_witnessOrReady d]
  ++ [N.of_nat ref_length] ++ be_bytes ref_length (sd_messageReference d).

(** Reading past the end of the input raises. *)
Definition decode_sig (bs : bytes) : option CACSignatureData :=
  match bs with
  | s3 :: s2 :: s1 :: s0 :: kind :: len :: rest =>
      if (N.to_nat len <=? length rest)%nat
      then Some (mkSigData (be_value [s3; s2; s1; s0]) kind
                           (be_value (take (N.to_nat len) rest)))
      else None
  | _ => None
  end.

(** Modelled from the spec: the TLS codec of a vector of (leaf index,
    reference) pairs (the codec of the MLS library is not in the repository):
    "all list types are [u32 count, element[count]]", a leaf index is a
    [u32], a reference a length-prefixed byte sequence. *)
Definition encode_pairs (pairs : list (LeafIndex * MessageRef)) : bytes :=
  be_bytes 4 (N.of_nat (length pairs))
  ++ concat ((λ entry, be_bytes 4 (fst entry) ++ [N.of_nat ref_length]
                       ++ be_bytes ref_length (snd entry)) <$> pairs).

Fixpoint decode_elements (count : nat) (bs : bytes)
    : option (list (LeafIndex * MessageRef)) :=
  match count with
  | O => Some []
  | S count =>
      match bs with
      | l3 :: l2 :: l1 :: l0 :: len :: rest =>
          if (N.to_nat len <=? length rest)%nat then
            match decode_elements count (drop (N.to_nat len) rest) with
            | Some pairs =>
                Some ((be_value [l3; l2; l1; l0], be_value (take (N.to_nat len) rest))
                      :: pairs)
            | None => None
            end
          else None
      | _ => None
      end
  end.

Definition decode_pairs (bs : bytes) : option (list (LeafIndex * MessageRef)) :=
  match bs with
  | c3 :: c2 :: c1 :: c0 :: rest =>
      (* a count beyond the input cannot be read *)
      if N.of_nat (length rest) <? be_value [c3; c2; c1; c0] then None
      else decode_elements (N.to_nat (be_value [c3; c2; c1; c0])) rest
  | _ => None
  end.

(** Modelled from the spec: the TLS codec of [ConsensusMessageContent], a
    [u32] view and a length-prefixed reference (the codec of the MLS library
    is not in the repository). *)
Definition encode_content (c : FC.ConsensusMessageContent) : bytes :=
  be_bytes 4 (FC.view c) ++ [N.of_nat ref_length]
  ++ be_bytes ref_length (FC.consensusMessage c).

Definition decode_content (bs : bytes) : option FC.ConsensusMessageContent :=
  match bs with
  | v3 :: v2 :: v1 :: v0 :: len :: rest =>
      if (N.to_nat len <=? length rest)%nat
      then Some (FC.mkContent (be_value [v3; v2; v1; v0])
                              (be_value (take (N.to_nat len) rest)))
      else None
  | _ => None
  end.

Definition sender_bytes (s : Sender) : bytes :=
  match s with
  | MemberSender i => 1 :: be_bytes 4 i
  | ExternalSenderIndex i => 2 :: be_bytes 4 i
  | NewMemberProposalSender => [3]
  | NewMemberCommitSender => [4]
  end.

Definition content_bytes (c : Content) : bytes :=
  match c with
  | ApplicationData d => 1 :: d
  | ProposalContent d => 2 :: d
  | CommitContent d => 3 :: d
  end.

(** The signed bytes: sender, epoch and content. *)
Definition to_be_signed (s : Sender) (e : Epoch) (c : Content) : bytes :=
  sender_bytes s ++ be_bytes 8 e ++ content_bytes c.

(** A stand-in for the signature of leaf [i]: the leaf index followed by a
    checksum of the signed bytes. *)
Definition signature_of (s : Sender) (e : Epoch) (c : Content) : bytes :=
  match s with
  | MemberSender i => [i mod 256; fold_left N.add (to_be_signed s e c) 0 mod 256]
  | _ => []
  end.

Definition sign_content (st : ExtendedMLSState) (s : Sender) (c : Content)
    : AuthenticatedContent :=
  mkAuthenticatedContent s (epoch st) c (signature_of s (epoch st) c).

(** A content verifies when its sender is a leaf of the tree and the
    signature is that leaf's. *)
Definition verify_content (st : ExtendedMLSState) (ac : AuthenticatedContent) : bool :=
  match ac_sender ac with
  | MemberSender i =>
      bool_decide (i ∈ MLSState.getMembersIndexes st)
      && bool_decide (ac_auth ac = signature_of (ac_sender ac) (ac_epoch ac) (ac_content ac))
  | _ => false
  end.

(** A stand-in for the hash: the value of the serialised content. *)
Definition hash_content (ac : AuthenticatedContent) : AuthContentRef :=
  be_value (to_be_signed (ac_sender ac) (ac_epoch ac) (ac_content ac) ++ ac_auth ac).

#[global] Instance library : MLSLibrary := {|
  state_sign := sign_content;
  state_verify := verify_content;
  ref_auth := hash_content;
  marshal_sig := encode_sig;
  unmarshal_sig := decode_sig;
|}.

(** A group of [n] members with leaves [0 .. n-1], seen from leaf [self]. *)
Definition group (n : nat) (self : LeafIndex) (e : Epoch) : ExtendedMLSState :=
  mkState e self ((λ i, (N.of_nat i, [N.of_nat i])) <$> seq 0 n).

(** A signature of [signer] in the epoch-0 group of [n] members. *)
Definition signature_by (n : nat) (signer : LeafIndex) (sequence : N)
    (witnessOrReady : bool) (ref : MessageRef) : AuthenticatedContent :=
  CACSignature.authContent
    (CACSignature.sign (group n signer 0) sequence witnessOrReady ref).

(** An application content signed by member 1 of a three-member group whose
    data is empty. *)
Definition empty_body : AuthenticatedContent := MLSOps.sign (group 3 1 0) [].

End ReferenceLibrary.

(** ** Concrete runs of CAC broadcast *)

Module CACScenario.
Import ReferenceLibrary CAC.

(** Payloads are numbers; the reference of a payload, the default payload and
    a Choice that takes the first candidate. *)
Definition ref_of (m : N) : MessageRef := m + 1000.
Definition default_payload : N := 0.
Definition first_choice (l : list N) : N := hd default_payload l.

Definition receive (msg : CACMessage N) (st : State N) : State N * bool :=
  receiveMessage ref_of default_payload first_choice msg st.
Definition validate (m : N) (st : State N) : State N :=
  validateMessage ref_of default_payload first_choice m st.

(** *** A payload delivered three times in one epoch

    Member 0 of a two-member group.  Member 1 broadcasts payload 7 with its
    WITNESS; the application validates it; two more WITNESS messages and the
    READY of member 1 follow. *)
Definition two_members : State N := start 1 (group 2 0 0).

Definition witness_of_1 : CACMessage N :=
  mkCACMessage CACSignature.WITNESS [signature_by 2 1 0 CACSignature.WITNESS (ref_of 7)]
               (Some 7).
Definition bare_witness : CACMessage N := mkCACMessage CACSignature.WITNESS [] None.
Definition ready_of_1 : CACMessage N :=
  mkCACMessage CACSignature.READY [signature_by 2 1 1 CACSignature.READY (ref_of 7)] None.

Definition after_witness : State N := fst (receive witness_of_1 two_members).
Definition after_validate : State N := validate 7 after_witness.
Definition after_first_fast : State N := fst (receive bare_witness after_validate).
Definition after_second_fast : State N := fst (receive bare_witness after_first_fast).
Definition after_ready : State N := fst (receive ready_of_1 after_second_fast).

(** The state [after_ready] with the record of deliveries emptied. *)
Definition ready_quorum : State N := set_m_deliveredMessages ∅ after_ready.

(** *** READY quorum without witness quorum

    Member 0 of a six-member group ([t = 1], [qw = 5], [qr = 5]) receives one
    READY message carrying the WITNESS and the READY of member 5 for payload
    reference [ref_of 7] and the READY signatures of members 1 to 4. *)
Definition six_members : State N := start 1 (group 6 0 0).

Definition readies_without_witnesses : CACMessage N :=
  mkCACMessage CACSignature.READY
    (signature_by 6 5 0 CACSignature.WITNESS (ref_of 7)
     :: signature_by 6 5 1 CACSignature.READY (ref_of 7)
     :: ((λ i, signature_by 6 i 1 CACSignature.READY (ref_of 7)) <$> [1; 2; 3; 4]))
    None.

Definition after_readies : State N * bool := receive readies_without_witnesses six_members.
Definition after_readies_state : State N := fst after_readies.

(** *** A payload validated before it was received

    Member 0 of a three-member group validates payload 7, which no CAC
    message has carried yet. *)
Definition three_members : State N := start 1 (group 3 0 0).
Definition after_early_validate : State N := validate 7 three_members.

End CACScenario.

(** ** A concrete run of restrained consensus *)

Module RCScenario.
Import ReferenceLibrary RC.

Definition receive (message : RestrainedConsensusMessage) (st : State) : State * bool :=
  receiveMessage decode_pairs message st.

(** Member 0 of a three-member group has delivered two conflicting commits,
    its own with reference 1000 and one of member 1 with reference 1001, and
    proposes. *)
Definition conflict : list (LeafIndex * MessageRef) := [(0, 1000); (1, 1001)].
Definition proposed : State := propose encode_pairs conflict [] 1 (start 300 (group 3 0 0)).

(** What member [signer] signs for the subset [elt]. *)
Definition signed_by (signer : LeafIndex) (elt : list (LeafIndex * MessageRef))
    : AuthenticatedContent :=
  MLSOps.sign (group 3 signer 0) (encode_pairs elt).

(** A RESTRAINED_CONS message whose first entry is signed by member 1 and
    whose second entry is signed by member 2; both verify and parse. *)
Definition mixed_senders : RestrainedConsContent :=
  mkContent [signed_by 1 [(1, 1001)]; signed_by 2 [(1, 1001); (0, 1000)]]
            (powerSet conflict) [].

Definition after_mixed_senders : State * bool := receive (RestrainedCons mixed_senders) proposed.

End RCScenario.

(** ** A concrete run of full consensus *)

Module FCScenario.
Import ReferenceLibrary FC.

(** Member 0 of a four-member group ([f = 1], quorum 3) in view 0, holding
    the value 42 under reference 1000, as after a PRE_PREPARE. *)
Definition prepared : State N :=
  mkState (group 4 0 0) (f (start (T := N) (group 4 0 0))) 0 ∅ ∅ {[1000 := 42]} [].

(** The COMMIT message of member [signer] for view 0 and reference 1000. *)
Definition commit_of (signer : LeafIndex) : ConsensusCommitMessage :=
  mkCommit (MLSOps.sign (group 4 signer 0) (encode_content (mkContent 0 1000))).

Definition receive (message : ConsensusCommitMessage) (st : State N) : State N :=
  fst (receiveCommit 0 decode_content message st).

(** The COMMIT messages of members 1, 2 and 3, then of member 0, then the
    message of member 1 once more. *)
Definition after_quorum : State N :=
  receive (commit_of 3) (receive (commit_of 2) (receive (commit_of 1) prepared)).
Definition after_fourth : State N := receive (commit_of 0) after_quorum.
Definition after_replay : State N := receive (commit_of 1) after_fourth.

End FCScenario.

(** ** Gossip broadcast *)

Module Gossip.

(** The order of [mls::bytes_ns::bytes]: lexicographic. *)
Fixpoint bytes_leb (a b : bytes) : bool :=
  match a, b with
  | [], _ => true
  | _ :: _, [] => false
  | x :: a, y :: b => (x <? y) || ((x =? y) && bytes_leb a b)
  end.

Definition bytes_ltb (a b : bytes) : bool := negb (bytes_leb b a).

Definition bytes_le (a b : bytes) : Prop := bytes_leb a b = true.

Definition bytes_lt (a b : bytes) : Prop := bytes_ltb a b = true.

#[global] Instance bytes_le_dec : RelDecision bytes_le.
Proof. intros a b. unfold bytes_le. apply _. Defined.

(** The elements of a [std::set<bytes>] in iteration order. *)
Definition sorted_ids (s : gset bytes) : list bytes := merge_sort bytes_le (elements s).

(** [std::set_difference] on two ranges, as the algorithm runs (it expects
    both ranges sorted). *)
Fixpoint set_difference (l1 : list bytes) : list bytes → list bytes :=
  fix go (l2 : list bytes) : list bytes :=
    match l1, l2 with
    | [], _ => []
    | _, [] => l1
    | x :: l1', y :: l2' =>
        if bytes_ltb x y then x :: set_difference l1' l2
        else if bytes_ltb y x then go l2'
        else set_difference l1' l2'
    end.

(** [(int) std::log10(n)] for [n >= 1]: the number of decimal digits less
    one.  (The floating-point value is exact enough for this below 10^15.) *)
Fixpoint log10_digits (fuel : nat) (n : N) : N :=
  match fuel with
  | O => 0
  | S fuel => if n <? 10 then 0 else 1 + log10_digits fuel (n / 10)
  end.

Definition MINIMUM_PEERS : N := 6.

(** [std::max<int>(std::log10(members.size()), MINIMUM_PEERS)].  For an empty
    member list the logarithm is minus infinity, whose conversion to [int] is
    not defined; the model takes [MINIMUM_PEERS]. *)
Definition expectedMin (members : nat) : nat :=
  N.to_nat (N.max (log10_digits 20 (N.of_nat members)) MINIMUM_PEERS).

Section Gossip.
(** [mls::MLSMessage] with its reference under the cipher suite, and the
    wire form of the two DDS messages that gossip sends. *)
Context {MLSMessage : Type}.
Variable ref : MLSMessage → MessageRef.
Variable marshal_gossip : MLSMessage → bytes.
Variable marshal_subscribe : bytes → bytes.

(** [std::sample] with the random generator: [sample population count] is
    the selection made among [population]. *)
Variable sample : list bytes → nat → list bytes.

(** [GossipBcastMessage]. *)
Inductive GossipBcastMessage :=
| Subscribe (subscriberId : bytes)
| Gossip (bcastMessage : MLSMessage).

(** Calls to [Network::send] and [Network::broadcastSample] and through the
    callback [m_deliver]. *)
Inductive Event :=
| Send (id : bytes) (message : bytes)
| BroadcastSample (sample : list bytes) (message : bytes)
| Deliver (msg : MLSMessage).

Record State := mkState {
  m_selfId : bytes;
  m_computedSample : list bytes;
  m_idsSample : gset bytes;
  m_received : gmap MessageRef bytes;
  events : list Event;
}.

(** The object after construction. *)
Definition create (selfId : bytes) : State := mkState selfId [] ∅ ∅ [].

(** [subscribe] followed by the insertion into [m_idsSample]: the body of
    the loop of [updateSample]. *)
Definition subscribeTo (st : State) (sampled : bytes) : State :=
  mkState (m_selfId st) (m_computedSample st) ({[sampled]} ∪ m_idsSample st)
          (m_received st)
          (events st ++ [Send sampled (marshal_subscribe (m_selfId st))]).

(** The SUBSCRIBE messages sent by [st] to the identities of [l]. *)
Definition subscriptions (st : State) (l : list bytes) : list Event :=
  (λ id, Send id (marshal_subscribe (m_selfId st))) <$> l.

(** The candidates of [updateSample]: the set built from
    [std::set_difference(members, m_idsSample)]. *)
Definition candidates (members : list bytes) (st : State) : gset bytes :=
  list_to_set (set_difference members (sorted_ids (m_idsSample st))).

(** The identities that [updateSample] selects. *)
Definition selected (members : list bytes) (st : State) : gset bytes :=
  let difference := candidates members st in
  list_to_set
    (sample (sorted_ids difference)
            (Nat.min (size difference)
                     (expectedMin (length members) - size (m_idsSample st)))).

(** [updateSample]. *)
Definition updateSample (state : ExtendedMLSState) (st : State) : State * bool :=
  let members := MLSState.getMembersIdentity state true in
  if (size (m_idsSample st) <? expectedMin (length members))%nat
     && (size (m_idsSample st) <? length members)%nat
  then (fold_left subscribeTo (sorted_ids (selected members st)) st, true)
  else (st, false).

(** [computeSample]. *)
Definition computeSample (st : State) : State :=
  mkState (m_selfId st) (sorted_ids (m_idsSample st)) (m_idsSample st) (m_received st)
          (events st).

(** [init]. *)
Definition init (state : ExtendedMLSState) (st : State) : State :=
  computeSample (fst (updateSample state st)).

(** The loop of [newEpoch] over [removed]. *)
Definition dropRemoved (acc : State * bool) (id : bytes) : State * bool :=
  let st := fst acc in
  if bool_decide (id ∈ m_idsSample st) then
    (mkState (m_selfId st) (m_computedSample st) (m_idsSample st ∖ {[id]})
             (m_received st) (events st), true)
  else acc.

(** [newEpoch]. *)
Definition newEpoch (state : ExtendedMLSState) (removed : list bytes) (st : State)
    : State :=
  let st := mkState (m_selfId st) (m_computedSample st) (m_idsSample st) ∅ (events st) in
  let '(st, updated) := fold_left dropRemoved removed (st, false) in
  let '(st, sampled) := updateSample state st in
  if sampled || updated then computeSample st else st.

(** [dispatchMessage]. *)
Definition dispatchMessage (msg : MLSMessage) (st : State) : State :=
  let messageBytes := marshal_gossip msg in
  mkState (m_selfId st) (m_computedSample st) (m_idsSample st)
          (CAC.insert_new (ref msg) messageBytes (m_received st))
          (events st ++ [BroadcastSample (m_computedSample st) messageBytes; Deliver msg]).

(** [receiveMessage]. *)
Definition receiveMessage (msg : GossipBcastMessage) (st : State) : State :=
  match msg with
  | Gossip bcastMessage =>
      if bool_decide (is_Some (m_received st !! ref bcastMessage)) then st
      else dispatchMessage bcastMessage st
  | Subscribe subscriberId =>
      if bool_decide (subscriberId ∈ m_idsSample st) then st
      else
        mkState (m_selfId st) (m_computedSample st ++ [subscriberId])
                ({[subscriberId]} ∪ m_idsSample st) (m_received st)
                (events st ++ (Send subscriberId <$> sorted_values (m_received st)))
  end.

(** *** Notions used to state the properties *)

(** The references handed to the deliver callback so far, in order. *)
Definition delivered_refs (st : State) : list MessageRef :=
  omap (λ e, match e with Deliver msg => Some (ref msg) | _ => None end) (events st).

End Gossip.

Arguments GossipBcastMessage MLSMessage : clear implicits.
Arguments Event MLSMessage : clear implicits.
Arguments State MLSMessage : clear implicits.

End Gossip.

(** ** Runs of the gossip broadcast *)

Module GossipScenario.

#[local] Abbreviation Build_group := mkState (only parsing).

Import Gossip.

(** A generator that selects the first [count] candidates. *)
Definition first_candidates (population : list bytes) (count : nat) : list bytes :=
  take count population.

(** A wire form for SUBSCRIBE: a tag before the subscriber identity. *)
Definition subscribe_message (subscriberId : bytes) : bytes := 1 :: subscriberId.

Definition new_epoch : ExtendedMLSState → list bytes → State N → State N :=
  newEpoch subscribe_message first_candidates.

(** Member 0 after construction. *)
Definition fresh : State N := create [0].

(** Member 0 with members 3 and 4 in its sample set. *)
Definition subscribed : State N := mkState [0] [[3]; [4]] {[ [3]; [4] ]} ∅ [].

(** Epoch 1 of a group of nine, from which member 3 was removed. *)
Definition large_group : ExtendedMLSState :=
  Build_group 1 0 (filter (λ leaf, fst leaf ≠ 3%N) (leaves (ReferenceLibrary.group 10 0 1))).

Definition after_large : State N := new_epoch large_group [[3]] subscribed.

(** Epoch 1 of a group of three. *)
Definition small_group : ExtendedMLSState := ReferenceLibrary.group 3 0 1.

Definition after_small : State N := new_epoch small_group [] fresh.

(** A tree whose identities do not increase with the leaf index. *)
Definition unsorted_group : ExtendedMLSState := Build_group 1 0 [(0, [0]); (1, [5]); (2, [1])].

Definition subscribed_to_1 : State N := mkState [0] [[1]] {[ [1] ]} ∅ [].

Definition after_unsorted : State N := new_epoch unsorted_group [] subscribed_to_1.

End GossipScenario.

(** ** Sequences of calls to the gossip broadcast *)

Module GossipRun.
Import Gossip.

Section Run.
Context {MLSMessage : Type}.
Variable ref : MLSMessage → MessageRef.
Variable marshal_gossip : MLSMessage → bytes.
Variable marshal_subscribe : bytes → bytes.
Variable sample : list bytes → nat → list bytes.

(** The public member functions of [GossipBcast]. *)
Inductive Call :=
| Init (state : ExtendedMLSState)
| NewEpoch (state : ExtendedMLSState) (removed : list bytes)
| ReceiveMessage (msg : GossipBcastMessage MLSMessage)
| DispatchMessage (msg : MLSMessage).

Definition call (st : State MLSMessage) (c : Call) : State MLSMessage :=
  match c with
  | Init state => init marshal_subscribe sample state st
  | NewEpoch state removed => newEpoch marshal_subscribe sample state removed st
  | ReceiveMessage msg => receiveMessage ref marshal_gossip msg st
  | DispatchMessage msg => dispatchMessage ref marshal_gossip msg st
  end.

Definition run (calls : list Call) (st : State MLSMessage) : State MLSMessage :=
  fold_left call calls st.

(** The computed sample lists the sample set, each identity once. *)
Definition lists_sample (st : State MLSMessage) : Prop :=
  NoDup (m_computedSample st) ∧ list_to_set (m_computedSample st) = m_idsSample st.

(** The recipients of the forwarding calls among [events]. *)
Definition forwarded_to (events : list (Event MLSMessage)) : list (list bytes) :=
  omap (λ e, match e with BroadcastSample recipients _ => Some recipients | _ => None end)
       events.

End Run.

Arguments Call MLSMessage : clear implicits.

End GossipRun.

(** ** Sequences of calls to CAC broadcast *)

Module CACRun.
Import CAC.

Section Run.
Context `{MLSLibrary}.
Context {MessageT : Type}.
Variable ref : MessageT → MessageRef.
Variable default_message : MessageT.
Variable choice : list MessageT → MessageT.

(** [newEpoch] and [receiveMessage], the two members that read or write the
    message queue and its lock. *)
Inductive Call :=
| NewEpoch (state : ExtendedMLSState)
| ReceiveMessage (message : CACMessage MessageT).

Definition call (st : State MessageT) (c : Call) : State MessageT :=
  match c with
  | NewEpoch state => newEpoch state st
  | ReceiveMessage message => fst (receiveMessage ref default_message choice message st)
  end.

Definition run (calls : list Call) (st : State MessageT) : State MessageT :=
  fold_left call calls st.

(** The messages that the calls hand to [receiveMessage], in order. *)
Definition received (calls : list Call) : list (CACMessage MessageT) :=
  omap (λ c, match c with ReceiveMessage message => Some message | _ => None end) calls.

End Run.

Arguments Call MessageT : clear implicits.

End CACRun.

Module CACRunScenario.
Import ReferenceLibrary CAC CACRun CACScenario.

(** A WITNESS message whose only signature is [empty_body]: signed by member
    1 in the current epoch, with application data that holds no body. *)
Definition malformed_witness : CACMessage N :=
  mkCACMessage CACSignature.WITNESS [empty_body] None.

(** After it, a new epoch and the WITNESS of member 1 for payload 7. *)
Definition later_calls : list (Call N) :=
  [NewEpoch (group 3 0 1);
   ReceiveMessage
     (mkCACMessage CACSignature.WITNESS
        [CACSignature.authContent
           (CACSignature.sign (group 3 1 1) 0 CACSignature.WITNESS (ref_of 7))]
        (Some 7))].

End CACRunScenario.

(** ** Sequences of calls to restrained consensus *)

Module RCRun.
Import RC.

Section Run.
Context `{MLSLibrary}.
Variable marshal_pairs : list (LeafIndex * MessageRef) → bytes.
Variable unmarshal_pairs : bytes → option (list (LeafIndex * MessageRef)).

(** The callback that [propose] registers with the network:
    [m_timeout = {}; bottom();]. *)
Definition timeout (st : State) : State := bottom (set_m_timeout None st).

(** What happens to the instance within an epoch: the two public members
    and the expiry of the timer. *)
Inductive Call :=
| Propose (conflictSet : list (LeafIndex * MessageRef)) (sigs : list CACSignature.t)
          (timeoutId : N)
| ReceiveMessage (message : RestrainedConsensusMessage)
| Timeout.

Definition call (st : State) (c : Call) : State :=
  match c with
  | Propose conflictSet sigs timeoutId => propose marshal_pairs conflictSet sigs timeoutId st
  | ReceiveMessage message => fst (receiveMessage unmarshal_pairs message st)
  | Timeout => timeout st
  end.

Definition run (calls : list Call) (st : State) : State := fold_left call calls st.

End Run.

(** The calls that end the instance: [m_decide] and [m_bottom]. *)
Definition terminal (e : Event) : bool :=
  match e with
  | Decide _ _ _ | Bottom => true
  | _ => false
  end.

Definition terminals (events : list Event) : nat := length (filter (λ e, terminal e = true) events).

(** One step that adds [added] to the calls made, with at most one of
    [m_decide] and [m_bottom] among them, and only when the instance had not
    finished; the instance has finished after such a call. *)
Definition ends_once (st st' : State) : Prop :=
  m_state st' = m_state st
  ∧ ∃ added,
      events st' = events st ++ added
      ∧ (m_hasFinished st = true → m_hasFinished st' = true ∧ terminals added = 0%nat)
      ∧ (terminals added ≤ 1)%nat
      ∧ (terminals added = 1%nat → m_hasFinished st' = true).

End RCRun.

(** ** Full consensus: the whole instance

    [FullConsensus<T>] with every member function, the timers it registers
    with the network, and the calls through its callbacks.  The recursion of
    [receiveMessage] through [handleViewChange] and [newView] is bounded by
    a fuel. *)

Module FullConsensus.
Import CAC (add32, mul32, sub32).

Section FullConsensus.
Context `{MLSLibrary}.

(** The decided type [T] with its reference under the cipher suite and a
    default-constructed value, and the TLS codecs of [ConsensusMessageContent]
    and [ViewChangeMessageContent]; a decoder raises on malformed input
    ([None]). *)
Context {T : Type}.
Variable ref : T → MessageRef.
Variable default_value : T.
Variable marshal_content : FC.ConsensusMessageContent → bytes.
Variable unmarshal_content : bytes → option FC.ConsensusMessageContent.
Variable marshal_view : N → bytes.
Variable unmarshal_view : bytes → option N.

(** [ConsensusMessage<T>]: the alternatives of its variant. *)
Inductive ConsensusMessage :=
| ProposeMessage (view : N) (content : T)
| PrePrepareMessage (signedContent : AuthenticatedContent) (proposedMessage : T)
| PrepareMessage (signedContent : AuthenticatedContent)
| CommitMessage (signedContent : AuthenticatedContent)
| ViewChange (viewChange : AuthenticatedContent).

(** The two callbacks handed to [Network::registerTimeout]:
    [m_timeout = {}; handleProposeTimeout()] and
    [m_forwardTimeout = {}; handleForwardTimeout()]. *)
Inductive Timer := ProposeTimer | ForwardTimer.

(** Calls through the callbacks [m_broadcast], [m_send] and [m_deliver], and
    to the timers of the network. *)
Inductive Event :=
| Broadcast (message : ConsensusMessage)
| Send (message : ConsensusMessage) (recipient : bytes)
| Deliver (value : T)
| RegisterTimeout (delay : Z) (callback : Timer) (id : N)
| UnregisterTimeout (id : N).

(** The fields of [FullConsensus<T>], the counter [m_timeoutCounter] of the
    network, and the calls made so far. *)
Record State := mkState {
  m_networkRTT : Z;
  m_timeoutCounter : N;
  m_state : ExtendedMLSState;
  m_currentView : N;
  m_currentLeader : bytes;
  m_currentLeaderIdx : LeafIndex;
  f : N;
  m_futureMessages : gmap N (list ConsensusMessage);
  m_hasSentPrePrepare : bool;
  m_hasSentPrepare : bool;
  m_hasSentCommit : bool;
  m_signedPrepare : gmap MessageRef (gset LeafIndex);
  m_signedCommit : gmap MessageRef (gset LeafIndex);
  m_signedNewView : gset LeafIndex;
  m_messages : gmap MessageRef T;
  m_proposedMessage : option T;
  m_prePreparedMessage : option T;
  m_timeout : option N;
  m_forwardTimeout : option N;
  events : list Event;
}.

(** Field updates. *)
Definition set_m_timeoutCounter (v : N) (st : State) : State :=
  mkState (m_networkRTT st) v (m_state st) (m_currentView st) (m_currentLeader st)
    (m_currentLeaderIdx st) (f st) (m_futureMessages st) (m_hasSentPrePrepare st)
    (m_hasSentPrepare st) (m_hasSentCommit st) (m_signedPrepare st) (m_signedCommit
    st) (m_signedNewView st) (m_messages st) (m_proposedMessage st)
    (m_prePreparedMessage st) (m_timeout st) (m_forwardTimeout st) (events st).
Definition set_m_state (v : ExtendedMLSState) (st : State) : State :=
  mkState (m_networkRTT st) (m_timeoutCounter st) v (m_currentView st)
    (m_currentLeader st) (m_currentLeaderIdx st) (f st) (m_futureMessages st)
    (m_hasSentPrePrepare st) (m_hasSentPrepare st) (m_hasSentCommit st)
    (m_signedPrepare st) (m_signedCommit st) (m_signedNewView st) (m_messages st)
    (m_proposedMessage st) (m_prePreparedMessage st) (m_timeout st)
    (m_forwardTimeout st) (events st).
Definition set_m_currentView (v : N) (st : State) : State :=
  mkState (m_networkRTT st) (m_timeoutCounter st) (m_state st) v (m_currentLeader st)
    (m_currentLeaderIdx st) (f st) (m_futureMessages st) (m_hasSentPrePrepare st)
    (m_hasSentPrepare st) (m_hasSentCommit st) (m_signedPrepare st) (m_signedCommit
    st) (m_signedNewView st) (m_messages st) (m_proposedMessage st)
    (m_prePreparedMessage st) (m_timeout st) (m_forwardTimeout st) (events st).
Definition set_m_currentLeader (v : bytes) (st : State) : State :=
  mkState (m_networkRTT st) (m_timeoutCounter st) (m_state st) (m_currentView st) v
    (m_currentLeaderIdx st) (f st) (m_futureMessages st) (m_hasSentPrePrepare st)
    (m_hasSentPrepare st) (m_hasSentCommit st) (m_signedPrepare st) (m_signedCommit
    st) (m_signedNewView st) (m_messages st) (m_proposedMessage st)
    (m_prePreparedMessage st) (m_timeout st) (m_forwardTimeout st) (events st).
Definition set_m_currentLeaderIdx (v : LeafIndex) (st : State) : State :=
  mkState (m_networkRTT st) (m_timeoutCounter st) (m_state st) (m_currentView st)
    (m_currentLeader st) v (f st) (m_futureMessages st) (m_hasSentPrePrepare st)
    (m_hasSentPrepare st) (m_hasSentCommit st) (m_signedPrepare st) (m_signedCommit
    st) (m_signedNewView st) (m_messages st) (m_proposedMessage st)
    (m_prePreparedMessage st) (m_timeout st) (m_forwardTimeout st) (events st).
Definition set_f (v : N) (st : State) : State :=
  mkState (m_networkRTT st) (m_timeoutCounter st) (m_state st) (m_currentView st)
    (m_currentLeader st) (m_currentLeaderIdx st) v (m_futureMessages st)
    (m_hasSentPrePrepare st) (m_hasSentPrepare st) (m_hasSentCommit st)
    (m_signedPrepare st) (m_signedCommit st) (m_signedNewView st) (m_messages st)
    (m_proposedMessage st) (m_prePreparedMessage st) (m_timeout st)
    (m_forwardTimeout st) (events st).
Definition set_m_futureMessages (v : gmap N (list ConsensusMessage)) (st : State) : State :=
  mkState (m_networkRTT st) (m_timeoutCounter st) (m_state st) (m_currentView st)
    (m_currentLeader st) (m_currentLeaderIdx st) (f st) v (m_hasSentPrePrepare st)
    (m_hasSentPrepare st) (m_hasSentCommit st) (m_signedPrepare st) (m_signedCommit
    st) (m_signedNewView st) (m_messages st) (m_proposedMessage st)
    (m_prePreparedMessage st) (m_timeout st) (m_forwardTimeout st) (events st).
Definition set_m_hasSentPrePrepare (v : bool) (st : State) : State :=
  mkState (m_networkRTT st) (m_timeoutCounter st) (m_state st) (m_currentView st)
    (m_currentLeader st) (m_currentLeaderIdx st) (f st) (m_futureMessages st) v
    (m_hasSentPrepare st) (m_hasSentCommit st) (m_signedPrepare st) (m_signedCommit
    st) (m_signedNewView st) (m_messages st) (m_proposedMessage st)
    (m_prePreparedMessage st) (m_timeout st) (m_forwardTimeout st) (events st).
Definition set_m_hasSentPrepare (v : bool) (st : State) : State :=
  mkState (m_networkRTT st) (m_timeoutCounter st) (m_state st) (m_currentView st)
    (m_currentLeader st) (m_currentLeaderIdx st) (f st) (m_futureMessages st)
    (m_hasSentPrePrepare st) v (m_hasSentCommit st) (m_signedPrepare st)
    (m_signedCommit st) (m_signedNewView st) (m_messages st) (m_proposedMessage st)
    (m_prePreparedMessage st) (m_timeout st) (m_forwardTimeout st) (events st).
Definition set_m_hasSentCommit (v : bool) (st : State) : State :=
  mkState (m_networkRTT st) (m_timeoutCounter st) (m_state st) (m_currentView st)
    (m_currentLeader st) (m_currentLeaderIdx st) (f st) (m_futureMessages st)
    (m_hasSentPrePrepare st) (m_hasSentPrepare st) v (m_signedPrepare st)
    (m_signedCommit st) (m_signedNewView st) (m_messages st) (m_proposedMessage st)
    (m_prePreparedMessage st) (m_timeout st) (m_forwardTimeout st) (events st).
Definition set_m_signedPrepare (v : gmap MessageRef (gset LeafIndex)) (st : State) : State :=
  mkState (m_networkRTT st) (m_timeoutCounter st) (m_state st) (m_currentView st)
    (m_currentLeader st) (m_currentLeaderIdx st) (f st) (m_futureMessages st)
    (m_hasSentPrePrepare st) (m_hasSentPrepare st) (m_hasSentCommit st) v
    (m_signedCommit st) (m_signedNewView st) (m_messages st) (m_proposedMessage st)
    (m_prePreparedMessage st) (m_timeout st) (m_forwardTimeout st) (events st).
Definition set_m_signedCommit (v : gmap MessageRef (gset LeafIndex)) (st : State) : State :=
  mkState (m_networkRTT st) (m_timeoutCounter st) (m_state st) (m_currentView st)
    (m_currentLeader st) (m_currentLeaderIdx st) (f st) (m_futureMessages st)
    (m_hasSentPrePrepare st) (m_hasSentPrepare st) (m_hasSentCommit st)
    (m_signedPrepare st) v (m_signedNewView st) (m_messages st) (m_proposedMessage
    st) (m_prePreparedMessage st) (m_timeout st) (m_forwardTimeout st) (events st).
Definition set_m_signedNewView (v : gset LeafIndex) (st : State) : State :=
  mkState (m_networkRTT st) (m_timeoutCounter st) (m_state st) (m_currentView st)
    (m_currentLeader st) (m_currentLeaderIdx st) (f st) (m_futureMessages st)
    (m_hasSentPrePrepare st) (m_hasSentPrepare st) (m_hasSentCommit st)
    (m_signedPrepare st) (m_signedCommit st) v (m_messages st) (m_proposedMessage
    st) (m_prePreparedMessage st) (m_timeout st) (m_forwardTimeout st) (events st).
Definition set_m_messages (v : gmap MessageRef T) (st : State) : State :=
  mkState (m_networkRTT st) (m_timeoutCounter st) (m_state st) (m_currentView st)
    (m_currentLeader st) (m_currentLeaderIdx st) (f st) (m_futureMessages st)
    (m_hasSentPrePrepare st) (m_hasSentPrepare st) (m_hasSentCommit st)
    (m_signedPrepare st) (m_signedCommit st) (m_signedNewView st) v
    (m_proposedMessage st) (m_prePreparedMessage st) (m_timeout st)
    (m_forwardTimeout st) (events st).
Definition set_m_proposedMessage (v : option T) (st : State) : State :=
  mkState (m_networkRTT st) (m_timeoutCounter st) (m_state st) (m_currentView st)
    (m_currentLeader st) (m_currentLeaderIdx st) (f st) (m_futureMessages st)
    (m_hasSentPrePrepare st) (m_hasSentPrepare st) (m_hasSentCommit st)
    (m_signedPrepare st) (m_signedCommit st) (m_signedNewView st) (m_messages st) v
    (m_prePreparedMessage st) (m_timeout st) (m_forwardTimeout st) (events st).
Definition set_m_prePreparedMessage (v : option T) (st : State) : State :=
  mkState (m_networkRTT st) (m_timeoutCounter st) (m_state st) (m_currentView st)
    (m_currentLeader st) (m_currentLeaderIdx st) (f st) (m_futureMessages st)
    (m_hasSentPrePrepare st) (m_hasSentPrepare st) (m_hasSentCommit st)
    (m_signedPrepare st) (m_signedCommit st) (m_signedNewView st) (m_messages st)
    (m_proposedMessage st) v (m_timeout st) (m_forwardTimeout st) (events st).
Definition set_m_timeout (v : option N) (st : State) : State :=
  mkState (m_networkRTT st) (m_timeoutCounter st) (m_state st) (m_currentView st)
    (m_currentLeader st) (m_currentLeaderIdx st) (f st) (m_futureMessages st)
    (m_hasSentPrePrepare st) (m_hasSentPrepare st) (m_hasSentCommit st)
    (m_signedPrepare st) (m_signedCommit st) (m_signedNewView st) (m_messages st)
    (m_proposedMessage st) (m_prePreparedMessage st) v (m_forwardTimeout st) (events
    st).
Definition set_m_forwardTimeout (v : option N) (st : State) : State :=
  mkState (m_networkRTT st) (m_timeoutCounter st) (m_state st) (m_currentView st)
    (m_currentLeader st) (m_currentLeaderIdx st) (f st) (m_futureMessages st)
    (m_hasSentPrePrepare st) (m_hasSentPrepare st) (m_hasSentCommit st)
    (m_signedPrepare st) (m_signedCommit st) (m_signedNewView st) (m_messages st)
    (m_proposedMessage st) (m_prePreparedMessage st) (m_timeout st) v (events st).
Definition set_events (v : list Event) (st : State) : State :=
  mkState (m_networkRTT st) (m_timeoutCounter st) (m_state st) (m_currentView st)
    (m_currentLeader st) (m_currentLeaderIdx st) (f st) (m_futureMessages st)
    (m_hasSentPrePrepare st) (m_hasSentPrepare st) (m_hasSentCommit st)
    (m_signedPrepare st) (m_signedCommit st) (m_signedNewView st) (m_messages st)
    (m_proposedMessage st) (m_prePreparedMessage st) (m_timeout st)
    (m_forwardTimeout st) v.
Definition log (e : Event) (st : State) : State := set_events (events st ++ [e]) st.

(** The outcome of a call: it returns, an exception leaves it, or the fuel
    of the model runs out. *)
Inductive Run (A : Type) :=
| Done (a : A) (st : State)
| Raised (st : State)
| OutOfFuel.
Arguments Done {A} a st.
Arguments Raised {A} st.
Arguments OutOfFuel {A}.

Definition bind {A B} (r : Run A) (k : A → State → Run B) : Run B :=
  match r with
  | Done a st => k a st
  | Raised st => Raised st
  | OutOfFuel => OutOfFuel
  end.

(** [Network::registerTimeout]: the identifier is the counter, which is
    incremented (a [size_t]). *)
Definition registerTimeout (delay : Z) (callback : Timer) (st : State) : N * State :=
  let id := m_timeoutCounter st in
  (id, log (RegisterTimeout delay callback id)
           (set_m_timeoutCounter ((id + 1) mod 2 ^ 64) st)).

(** [resetTimers]. *)
Definition resetTimers (st : State) : State :=
  let st :=
    match m_timeout st with
    | Some id => set_m_timeout None (log (UnregisterTimeout id) st)
    | None => st
    end in
  match m_forwardTimeout st with
  | Some id => set_m_forwardTimeout None (log (UnregisterTimeout id) st)
  | None => st
  end.

(** The quorum [2*f + 1], in [uint] arithmetic. *)
Definition quorum (st : State) : N := add32 (mul32 2 (f st)) 1.

(** What a member signs in the PRE_PREPARE, PREPARE and COMMIT phases. *)
Definition signContent (st : State) (r : MessageRef) : AuthenticatedContent :=
  MLSOps.sign (m_state st) (marshal_content (FC.mkContent (m_currentView st) r)).

(** [handleForwardTimeout]. *)
Definition handleForwardTimeout (st : State) : State :=
  log (Broadcast (ViewChange (MLSOps.sign (m_state st)
                                (marshal_view (add32 (m_currentView st) 1))))) st.

(** [handleProposeTimeout]; [value()] of an empty optional raises. *)
Definition handleProposeTimeout (st : State) : Run unit :=
  match match m_prePreparedMessage st with
        | Some value => Some value
        | None => m_proposedMessage st
        end with
  | None => Raised st
  | Some content =>
      let st := log (Broadcast (ProposeMessage (m_currentView st) content)) st in
      let '(id, st) := registerTimeout (m_networkRTT st) ForwardTimer st in
      Done () (set_m_forwardTimeout (Some id) st)
  end.

(** [handlePropose]. *)
Definition handlePropose (proposed : T) (st : State) : State :=
  let st := set_m_messages (<[ref proposed := proposed]> (m_messages st)) st in
  if (m_currentLeaderIdx st =? index (m_state st)) && negb (m_hasSentPrePrepare st) then
    let st := set_m_hasSentPrePrepare true st in
    log (Broadcast (PrePrepareMessage (signContent st (ref proposed)) proposed)) st
  else
    let st := log (Send (ProposeMessage (m_currentView st) proposed)
                        (m_currentLeader st)) st in
    let '(id, st) := registerTimeout (m_networkRTT st) ForwardTimer st in
    set_m_forwardTimeout (Some id) st.

(** [proposeCurrentValue]. *)
Definition proposeCurrentValue (st : State) : Run unit :=
  match m_proposedMessage st with
  | None => Raised st
  | Some proposed =>
      if m_currentLeaderIdx st =? index (m_state st) then Done () (handlePropose proposed st)
      else
        let st := log (Send (ProposeMessage (m_currentView st) proposed)
                            (m_currentLeader st)) st in
        let '(id, st) := registerTimeout (m_networkRTT st) ProposeTimer st in
        Done () (set_m_timeout (Some id) st)
  end.

(** [propose]. *)
Definition propose (proposedMessage : T) (st : State) : Run unit :=
  match m_proposedMessage st with
  | Some _ => Done () st
  | None =>
      let st := set_m_proposedMessage (Some proposedMessage) st in
      if negb (m_hasSentPrepare st) then proposeCurrentValue st else Done () st
  end.

(** [handlePrePrepare]. *)
Definition handlePrePrepare (sender : LeafIndex) (content : FC.ConsensusMessageContent)
    (proposed : T) (st : State) : State :=
  if (m_currentLeaderIdx st =? index (m_state st))
     || negb (sender =? m_currentLeaderIdx st)
  then st
  else
    let st := set_m_messages (<[ref proposed := proposed]> (m_messages st)) st in
    let st := resetTimers st in
    if negb (m_hasSentPrepare st) then
      let st := set_m_hasSentPrepare true st in
      let st := set_m_proposedMessage (Some proposed) st in
      let '(id, st) := registerTimeout (m_networkRTT st) ProposeTimer st in
      let st := set_m_timeout (Some id) st in
      log (Broadcast (PrepareMessage (signContent st (FC.consensusMessage content)))) st
    else st.

(** [handlePrepare]. *)
Definition handlePrepare (sender : LeafIndex) (content : FC.ConsensusMessageContent)
    (st : State) : State :=
  let r := FC.consensusMessage content in
  let signed := {[sender]} ∪ default ∅ (m_signedPrepare st !! r) in
  let st := set_m_signedPrepare (<[r := signed]> (m_signedPrepare st)) st in
  if (quorum st <=? N.of_nat (size signed)) && negb (m_hasSentCommit st) then
    let st := set_m_hasSentCommit true st in
    let st := resetTimers st in
    log (Broadcast (CommitMessage (signContent st r))) st
  else st.

(** [handleCommit]. *)
Definition handleCommit (sender : LeafIndex) (content : FC.ConsensusMessageContent)
    (st : State) : State :=
  let r := FC.consensusMessage content in
  let signed := {[sender]} ∪ default ∅ (m_signedCommit st !! r) in
  let st := set_m_signedCommit (<[r := signed]> (m_signedCommit st)) st in
  if quorum st <=? N.of_nat (size signed) then
    let '(value, messages) := subscript default_value r (m_messages st) in
    log (Deliver value) (set_m_messages messages st)
  else st.

(** [m_futureMessages[view].push(message)]. *)
Definition pushFuture (view : N) (message : ConsensusMessage) (st : State) : State :=
  set_m_futureMessages
    (<[view := default [] (m_futureMessages st !! view) ++ [message]]> (m_futureMessages st))
    st.

(** [ExtendedMLSState::verifyAndExtract<C>] for a content type [C] with the
    decoder [unmarshal]. *)
Definition verifyAndExtract {C} (unmarshal : bytes → option C) (state : ExtendedMLSState)
    (ac : AuthenticatedContent) : Outcome (option C) :=
  if negb (MLSOps.verify state ac)
     || negb (bool_decide (content_type (ac_content ac) = application))
  then Returned None
  else
    match ac_content ac with
    | ApplicationData data =>
        match unmarshal data with
        | Some content => Returned (Some content)
        | None => Thrown
        end
    | _ => Thrown
    end.

(** [getContentIfReady]. *)
Definition getContentIfReady (authContent : AuthenticatedContent)
    (message : ConsensusMessage) (st : State)
    : Run (option (LeafIndex * FC.ConsensusMessageContent)) :=
  if negb (bool_decide (sender_type (ac_sender authContent) = member)) then Done None st
  else
    match verifyAndExtract unmarshal_content (m_state st) authContent with
    | Thrown => Raised st
    | Returned None => Done None st
    | Returned (Some content) =>
        if FC.view content =? m_currentView st
        then Done (Some (RC.leaf_of authContent, content)) st
        else if m_currentView st <? FC.view content
        then Done None (pushFuture (FC.view content) message st)
        else Done None st
    end.

(** The leader of [view]: [members[(view + epoch) % members.size()]] in the
    sorted vector of the leaf indexes.  The sum is a 64-bit value and the
    position a [uint].  For an empty vector the source divides by zero; the
    model yields leaf 0. *)
Definition leaderOf (state : ExtendedMLSState) (view : N) : LeafIndex :=
  let members := merge_sort N.le (MLSState.getMembersIndexes state) in
  let leader := (((view + epoch state) mod 2 ^ 64) mod N.of_nat (length members))
                  mod 2 ^ 32 in
  nth (N.to_nat leader) members 0.

Section Recursion.
(** [receiveMessage], as called from the loop of [newView]. *)
Variable receive : ConsensusMessage → State → Run unit.

(** The [while] loop of [newView] over [m_futureMessages[view]]; the
    subscript creates the entry. *)
Fixpoint drain (steps : nat) (view : N) (st : State) : Run unit :=
  match steps with
  | O => OutOfFuel
  | S steps =>
      let '(queue, futureMessages) := subscript [] view (m_futureMessages st) in
      let st := set_m_futureMessages futureMessages st in
      match queue with
      | [] => Done () st
      | message :: queue =>
          let st := set_m_futureMessages (<[view := queue]> futureMessages) st in
          bind (receive message st) (λ _, drain steps view)
      end
  end.

(** [newView]. *)
Definition newView_with (steps : nat) (view : N) (st : State) : Run unit :=
  let st := set_m_currentView view st in
  let st := set_m_currentLeaderIdx (leaderOf (m_state st) view) st in
  let st := set_m_currentLeader
              (MLSState.getMemberNameByIndex (m_state st) (m_currentLeaderIdx st)) st in
  let st := set_m_prePreparedMessage None st in
  let st := set_m_hasSentPrePrepare false st in
  let st := set_m_hasSentPrepare false st in
  let st := set_m_hasSentCommit false st in
  let st := set_m_signedPrepare ∅ st in
  let st := set_m_signedCommit ∅ st in
  let st := set_m_signedNewView ∅ st in
  let st := resetTimers st in
  bind (drain steps view st)
       (λ _ st,
          if bool_decide (is_Some (m_proposedMessage st))
             && negb (m_hasSentPrepare st) && negb (m_hasSentPrePrepare st)
          then proposeCurrentValue st
          else Done () st).

(** [handleViewChange]. *)
Definition handleViewChange_with (steps : nat) (sender : LeafIndex) (view : N)
    (st : State) : Run unit :=
  let st := set_m_signedNewView ({[sender]} ∪ m_signedNewView st) st in
  if quorum st <=? N.of_nat (size (m_signedNewView st))
  then newView_with steps view st
  else Done () st.

(** [receiveMessage]. *)
Definition receiveMessage_with (steps : nat) (message : ConsensusMessage) (st : State)
    : Run unit :=
  match message with
  | ProposeMessage view content =>
      if view =? m_currentView st then Done () (handlePropose content st)
      else if m_currentView st <? view then Done () (pushFuture view message st)
      else Done () st
  | PrePrepareMessage signedContent proposedMessage =>
      bind (getContentIfReady signedContent message st)
           (λ content st,
              match content with
              | Some (sender, content) =>
                  Done () (handlePrePrepare sender content proposedMessage st)
              | None => Done () st
              end)
  | PrepareMessage signedContent =>
      bind (getContentIfReady signedContent message st)
           (λ content st,
              match content with
              | Some (sender, content) => Done () (handlePrepare sender content st)
              | None => Done () st
              end)
  | CommitMessage signedContent =>
      bind (getContentIfReady signedContent message st)
           (λ content st,
              match content with
              | Some (sender, content) => Done () (handleCommit sender content st)
              | None => Done () st
              end)
  | ViewChange viewChange =>
      if negb (bool_decide (sender_type (ac_sender viewChange) = member)) then Done () st
      else
        match verifyAndExtract unmarshal_view (m_state st) viewChange with
        | Thrown => Raised st
        | Returned None => Done () st
        | Returned (Some view) =>
            if view =? add32 (m_currentView st) 1
            then handleViewChange_with steps (RC.leaf_of viewChange) view st
            else if m_currentView st <? view
            then Done () (pushFuture view message st)
            else Done () st
        end
  end.

End Recursion.

(** [receiveMessage] with the nesting of [newView] bounded by [fuel]. *)
Fixpoint receiveMessage (fuel : nat) (message : ConsensusMessage) (st : State)
    : Run unit :=
  match fuel with
  | O => OutOfFuel
  | S fuel => receiveMessage_with (receiveMessage fuel) fuel message st
  end.

Definition newView (fuel : nat) (view : N) (st : State) : Run unit :=
  newView_with (receiveMessage fuel) fuel view st.

(** [newEpoch]. *)
Definition newEpoch (fuel : nat) (state : ExtendedMLSState) (st : State) : Run unit :=
  let st := set_m_state state st in
  let n := N.of_nat (length (MLSState.getMembersIdentity state false)) mod 2 ^ 32 in
  let st := set_f (sub32 n 1 / 3) st in
  let st := set_m_futureMessages ∅ st in
  let st := set_m_messages ∅ st in
  let st := set_m_proposedMessage None st in
  newView fuel 0 st.

(** The expiry of a timer: the callback registered, as the network calls
    it. *)
Definition expire (callback : Timer) (st : State) : Run unit :=
  match callback with
  | ProposeTimer => handleProposeTimeout (set_m_timeout None st)
  | ForwardTimer => Done () (handleForwardTimeout (set_m_forwardTimeout None st))
  end.

(** *** Notions used to state the properties *)

(** The state in which a call leaves the instance; it is the state before
    the call when the fuel of the model ran out. *)
Definition state_after (st : State) (r : Run unit) : State :=
  match r with
  | Done _ st' | Raised st' => st'
  | OutOfFuel => st
  end.

(** What can happen to the instance while its view stays: a local proposal,
    a message that is not a VIEW_CHANGE, the expiry of a timer. *)
Inductive Call :=
| Propose (proposedMessage : T)
| ReceiveMessage (message : ConsensusMessage)
| Expire (callback : Timer).

Definition call (fuel : nat) (st : State) (c : Call) : State :=
  state_after st
    match c with
    | Propose proposedMessage => propose proposedMessage st
    | ReceiveMessage message => receiveMessage fuel message st
    | Expire callback => expire callback st
    end.

Definition run (fuel : nat) (calls : list Call) (st : State) : State :=
  fold_left (call fuel) calls st.

Definition isViewChange (c : Call) : bool :=
  match c with
  | ReceiveMessage (ViewChange _) => true
  | _ => false
  end.

(** The COMMIT messages among the calls made. *)
Definition commitsSent (events : list Event) : list AuthenticatedContent :=
  omap (λ e, match e with Broadcast (CommitMessage signed) => Some signed | _ => None end)
       events.

(** A step within the view that adds [added] to the calls made, with at
    most one COMMIT message among them, and none once the flag
    [m_hasSentCommit] is set; the flag is set after a COMMIT and stays. *)
Definition commits_once (st st' : State) : Prop :=
  m_currentView st' = m_currentView st
  ∧ ∃ added,
      events st' = events st ++ added
      ∧ (m_hasSentCommit st = true → m_hasSentCommit st' = true ∧ commitsSent added = [])
      ∧ (length (commitsSent added) ≤ 1)%nat
      ∧ (commitsSent added ≠ [] → m_hasSentCommit st' = true).

(** A step that sends no COMMIT and leaves the flag and the view. *)
Definition quiet (st st' : State) : Prop :=
  m_currentView st' = m_currentView st
  ∧ m_hasSentCommit st' = m_hasSentCommit st
  ∧ ∃ added, events st' = events st ++ added ∧ commitsSent added = [].

End FullConsensus.

Arguments ConsensusMessage T : clear implicits.
Arguments Event T : clear implicits.
Arguments State T : clear implicits.
Arguments Call T : clear implicits.
Arguments Done {T A} a st.
Arguments Raised {T A} st.
Arguments OutOfFuel {T A}.

End FullConsensus.

(** ** Concrete runs of full consensus *)

Module FullConsensusScenario.
Import ReferenceLibrary FullConsensus.

(** Modelled from the spec: the TLS codec of [ViewChangeMessageContent], a
    [u32] view (the codec of the MLS library is not in the repository). *)
Definition encode_view (view : N) : bytes := be_bytes 4 view.

Definition decode_view (bs : bytes) : option N :=
  match bs with
  | v3 :: v2 :: v1 :: v0 :: _ => Some (be_value [v3; v2; v1; v0])
  | _ => None
  end.

(** Values are numbers; the reference of a value. *)
Definition ref_of (value : N) : MessageRef := value + 1000.

Definition receive (message : ConsensusMessage N) (st : State N) : Run unit :=
  receiveMessage ref_of 0 encode_content decode_content decode_view 2 message st.

(** Member 0 of the epoch-0 group of four ([f = 1], quorum 3) after
    [newEpoch]: view 0, led by member 0. *)
Definition created : State N :=
  mkState 300 0 (group 4 0 0) 0 [] 0 0 ∅ false false false ∅ ∅ ∅ ∅ None None None None [].

Definition started : State N :=
  state_after created
    (newEpoch ref_of 0 encode_content decode_content decode_view 2
              (group 4 0 0) created).

(** The PREPARE of member [signer] for view 0 and the value 42, and the
    VIEW_CHANGE of member [signer] for [view]. *)
Definition prepare_of (signer : LeafIndex) : ConsensusMessage N :=
  PrepareMessage (MLSOps.sign (group 4 signer 0)
                    (encode_content (FC.mkContent 0 (ref_of 42)))).

Definition view_change_of (signer : LeafIndex) (view : N) : ConsensusMessage N :=
  ViewChange (MLSOps.sign (group 4 signer 0) (encode_view view)).

(** The PREPARE messages of the four members, that of member 1 twice. *)
Definition prepares : list (Call N) :=
  ReceiveMessage <$> [prepare_of 1; prepare_of 2; prepare_of 3; prepare_of 0; prepare_of 1].

(** The VIEW_CHANGE messages of members 1, 2 and 3 for view 2 reach member
    0 while it is in view 0. *)
Definition early_view_changes : State N :=
  fold_left (λ st signer, state_after st (receive (view_change_of signer 2) st))
            [1; 2; 3] started.

End FullConsensusScenario.

(** ** The delivery-service engine *)

Module DDS.

(** [mls::ProposalRef]: a hash output, stored as its big-endian value. *)
#[local] Abbreviation ProposalRef := N (only parsing).

Section DDS.
(** [mls::MLSMessage], the messages of the cascade consensus and
    [mls::Welcome]. *)
Context {MLSMessage CascadeConsensusMessage Welcome : Type}.

(** [MLSMessage::epoch()], on the public and private messages that members
    exchange, [CipherSuite::ref] and the TLS encoding of a message. *)
Variable epoch_of : MLSMessage → Epoch.
Variable ref : MLSMessage → MessageRef.
Variable marshal : MLSMessage → bytes.

(** [checkAndExtractContent] of the library for the three content types,
    with what the caller reads from the content: the reference of the
    proposal, the proposals that the commit references, the application
    data. *)
Variable proposal_content : ExtendedMLSState → MLSMessage → option ProposalRef.
Variable commit_content : ExtendedMLSState → MLSMessage → option (gset ProposalRef).
Variable application_content : ExtendedMLSState → MLSMessage → option bytes.

(** [getCommitMembershipChanges]: the identities added and removed. *)
Variable getCommitMembershipChanges :
  ExtendedMLSState → MLSMessage → list bytes * list bytes.

(** The TLS decoder of [CascadeConsensusMessage]; [None] when it raises. *)
Variable unmarshal_cascade : bytes → option CascadeConsensusMessage.

(** The commit callback of the client: the state of the next epoch, or
    [None] for the null pointer that it returns on a commit that it rejects. *)
Variable deliverCommit : ExtendedMLSState → MLSMessage → option ExtendedMLSState.

(** [isValidProposal], [isValidCommit] and [isValidApplicationMessage] of
    [ExtendedMLSState]. *)
Definition isValidProposal (s : ExtendedMLSState) (message : MLSMessage)
    : option ProposalRef :=
  if negb (epoch_of message =? epoch s) then None else proposal_content s message.

Definition isValidCommit (s : ExtendedMLSState) (message : MLSMessage)
    : option (gset ProposalRef) :=
  if negb (epoch_of message =? epoch s) then None else commit_content s message.

Definition isValidApplicationMessage (s : ExtendedMLSState) (message : MLSMessage)
    : option bytes :=
  if negb (epoch_of message =? epoch s) then None else application_content s message.

(** Calls through the client callbacks, to the network and into the gossip
    and cascade-consensus components. *)
Inductive Event :=
| DeliverProposalOrMessage (message : MLSMessage)
| DeliverCommit (message : MLSMessage)
| SendWelcome (added : list bytes) (welcome : Welcome)
| GossipInit (s : ExtendedMLSState)
| GossipNewEpoch (s : ExtendedMLSState) (removed : list bytes)
| CascadeNewEpoch (s : ExtendedMLSState)
| CascadeReceive (message : CascadeConsensusMessage)
| CascadeValidate (commit : MLSMessage).

(** The cascade consensus calls back into the engine before it returns: its
    transmit callback is [handleCommit] and its deliver callback is
    [handleConsensusDelivery]. *)
Inductive Upcall :=
| Candidate (commit : MLSMessage)
| Decided (commit : MLSMessage).

(** The callbacks that the cascade consensus makes during a call, in order.
    They depend on the calls that the component has received, which are the
    events logged so far, the last one being the call in progress. *)
Variable cascade : list Event → list Upcall.

Record State := mkState {
  state : option ExtendedMLSState;
  m_proposedCommit : option MLSMessage;
  m_associatedWelcome : option Welcome;
  m_futureProposals : list MLSMessage;
  m_futureCascadeConsensus : list MLSMessage;
  m_receivedProposals : gset ProposalRef;
  m_incompleteCommits : list (MLSMessage * gset ProposalRef);
  events : list Event;
}.

(** The engine after construction. *)
Definition create : State := mkState None None None [] [] ∅ [] [].

Definition set_state (v : option ExtendedMLSState) (st : State) : State :=
  mkState v (m_proposedCommit st) (m_associatedWelcome st) (m_futureProposals st)
          (m_futureCascadeConsensus st) (m_receivedProposals st)
          (m_incompleteCommits st) (events st).

Definition set_m_futureProposals (v : list MLSMessage) (st : State) : State :=
  mkState (state st) (m_proposedCommit st) (m_associatedWelcome st) v
          (m_futureCascadeConsensus st) (m_receivedProposals st)
          (m_incompleteCommits st) (events st).

Definition set_m_futureCascadeConsensus (v : list MLSMessage) (st : State) : State :=
  mkState (state st) (m_proposedCommit st) (m_associatedWelcome st)
          (m_futureProposals st) v (m_receivedProposals st)
          (m_incompleteCommits st) (events st).

Definition set_m_receivedProposals (v : gset ProposalRef) (st : State) : State :=
  mkState (state st) (m_proposedCommit st) (m_associatedWelcome st)
          (m_futureProposals st) (m_futureCascadeConsensus st) v
          (m_incompleteCommits st) (events st).

Definition set_m_incompleteCommits (v : list (MLSMessage * gset ProposalRef))
    (st : State) : State :=
  mkState (state st) (m_proposedCommit st) (m_associatedWelcome st)
          (m_futureProposals st) (m_futureCascadeConsensus st)
          (m_receivedProposals st) v (events st).

Definition log (e : Event) (st : State) : State :=
  mkState (state st) (m_proposedCommit st) (m_associatedWelcome st)
          (m_futureProposals st) (m_futureCascadeConsensus st)
          (m_receivedProposals st) (m_incompleteCommits st) (events st ++ [e]).

(** How a call into the engine ends.  [Done]: it returns.  [Thrown]: a C++
    exception leaves it.  [Undefined]: it reaches an operation whose
    behaviour C++ does not define (a null pointer, an invalidated iterator or
    a dangling reference is used); the state is the one reached at that
    point.  [OutOfFuel]: the bound on nested callbacks is exhausted. *)
Inductive Run :=
| Done (st : State)
| Thrown (st : State)
| Undefined (st : State)
| OutOfFuel.

Definition bind (r : Run) (k : State → Run) : Run :=
  match r with
  | Done st => k st
  | _ => r
  end.

(** [try { ... } catch(const std::exception &)]. *)
Definition catch (r : Run) : Run :=
  match r with
  | Thrown st => Done st
  | _ => r
  end.

(** [m_incompleteCommits.insert({message, remaining})] under
    [MessageCompare]: the entries are ordered by the encoding of the commit
    and an entry with the same encoding is kept. *)
Fixpoint insert_commit (message : MLSMessage) (remaining : gset ProposalRef)
    (entries : list (MLSMessage * gset ProposalRef))
    : list (MLSMessage * gset ProposalRef) :=
  match entries with
  | [] => [(message, remaining)]
  | entry :: rest =>
      if Gossip.bytes_ltb (marshal message) (marshal (fst entry))
      then (message, remaining) :: entries
      else if Gossip.bytes_ltb (marshal (fst entry)) (marshal message)
      then entry :: insert_commit message remaining rest
      else entries
  end.

(** The loop of [lookUnlockCommits] over the entries of
    [m_incompleteCommits].  The result holds the entries as the loop leaves
    them and tells whether it stopped at a commit whose last awaited
    proposal is [newRef]: the loop erases that entry, and then passes the
    key of the erased entry, held by reference, to [handleCompleteCommit]. *)
Fixpoint unlock (newRef : ProposalRef) (entries : list (MLSMessage * gset ProposalRef))
    : list (MLSMessage * gset ProposalRef) * bool :=
  match entries with
  | [] => ([], false)
  | entry :: rest =>
      if bool_decide (newRef ∈ snd entry) then
        let remaining := snd entry ∖ {[newRef]} in
        if bool_decide (remaining = ∅) then (rest, true)
        else
          let '(rest, stopped) := unlock newRef rest in
          ((fst entry, remaining) :: rest, stopped)
      else
        let '(rest, stopped) := unlock newRef rest in
        (entry :: rest, stopped)
  end.

(** [lookUnlockCommits]. *)
Definition lookUnlockCommits (newRef : ProposalRef) (st : State) : Run :=
  let '(entries, stopped) := unlock newRef (m_incompleteCommits st) in
  let st := set_m_incompleteCommits entries st in
  if stopped then Undefined st else Done st.

(** [handleProposal]. *)
Definition handleProposal (message : MLSMessage) (st : State) : Run :=
  match state st with
  | None => Undefined st
  | Some s =>
      match isValidProposal s message with
      | Some proposalRef =>
          let st := log (DeliverProposalOrMessage message) st in
          let st := set_m_receivedProposals ({[proposalRef]} ∪ m_receivedProposals st) st in
          lookUnlockCommits proposalRef st
      | None =>
          match isValidApplicationMessage s message with
          | Some _ => Done (log (DeliverProposalOrMessage message) st)
          | None => Done st
          end
      end
  end.

(** [handleGossipDelivery]. *)
Definition handleGossipDelivery (message : MLSMessage) (st : State) : Run :=
  match state st with
  | None => Done (set_m_futureProposals (m_futureProposals st ++ [message]) st)
  | Some s =>
      if epoch_of message <? epoch s then Done st
      else if epoch s <? epoch_of message
      then Done (set_m_futureProposals (m_futureProposals st ++ [message]) st)
      else handleProposal message st
  end.

(** [m_futureProposals.clear()] and the like at the start of [advanceEpoch]. *)
Definition collectGarbage (st : State) : State :=
  mkState (state st) None None (m_futureProposals st) (m_futureCascadeConsensus st)
          ∅ [] (events st).

Section Engine.
(** What a callback of the cascade consensus does to the engine. *)
Variable upcall : Upcall → State → Run.

Fixpoint upcalls (us : list Upcall) (st : State) : Run :=
  match us with
  | [] => Done st
  | u :: us => bind (upcall u st) (upcalls us)
  end.

(** A call into the cascade consensus, with the callbacks that it makes. *)
Definition callCascade (call : Event) (st : State) : Run :=
  let st := log call st in
  upcalls (cascade (events st)) st.

(** [handleCompleteCommit]. *)
Definition handleCompleteCommit (message : MLSMessage) (st : State) : Run :=
  callCascade (CascadeValidate message) st.

(** [handleCommit]; the two ranges of [std::set_difference] are sets. *)
Definition handleCommit (message : MLSMessage) (st : State) : Run :=
  match state st with
  | None => Undefined st
  | Some s =>
      match isValidCommit s message with
      | Some referencedSet =>
          let remainingReferences := referencedSet ∖ m_receivedProposals st in
          if bool_decide (remainingReferences = ∅)
          then handleCompleteCommit message st
          else Done (set_m_incompleteCommits
                       (insert_commit message remainingReferences (m_incompleteCommits st))
                       st)
      | None => Done st
      end
  end.

(** [handleCascadeConsensusMessage]; the call into the cascade consensus is
    inside the [try] block. *)
Definition handleCascadeConsensusMessage (message : MLSMessage) (st : State) : Run :=
  match state st with
  | None => Undefined st
  | Some s =>
      match isValidApplicationMessage s message with
      | Some cascadeConsensusMessageBytes =>
          match unmarshal_cascade cascadeConsensusMessageBytes with
          | Some cascadeConsensusMessage =>
              catch (callCascade (CascadeReceive cascadeConsensusMessage) st)
          | None => Done st
          end
      | None => Done st
      end
  end.

(** [handleCascadeConsensusReception]. *)
Definition handleCascadeConsensusReception (message : MLSMessage) (st : State) : Run :=
  match state st with
  | None =>
      Done (set_m_futureCascadeConsensus (m_futureCascadeConsensus st ++ [message]) st)
  | Some s =>
      if epoch_of message <? epoch s then Done st
      else if epoch s <? epoch_of message
      then Done (set_m_futureCascadeConsensus (m_futureCascadeConsensus st ++ [message]) st)
      else handleCascadeConsensusMessage message st
  end.

(** One loop of [advanceEpoch] over the vector read by [get] and written by
    [set], with the iterator at index [pos]; [steps] bounds the iterations
    and is the size of the vector at entry.  The iterator stays usable after
    the call that processes its element only if that call erased nothing
    from the vector: an erasure by a nested [advanceEpoch], which scans the
    vector from its beginning, invalidates it.  During that call the model
    has no insertion into the vector, so the size tells. *)
Fixpoint scan (get : State → list MLSMessage) (set : list MLSMessage → State → State)
    (process : MLSMessage → State → Run) (steps pos : nat) (st : State) : Run :=
  match steps with
  | O => Done st
  | S steps =>
      match get st !! pos with
      | None => Done st
      | Some message =>
          match state st with
          | None => Undefined st
          | Some s =>
              if epoch_of message =? epoch s then
                bind (process message st) (λ st',
                  if (length (get st') =? length (get st))%nat
                  then scan get set process steps pos (set (delete pos (get st')) st')
                  else Undefined st')
              else if epoch_of message <? epoch s
              then scan get set process steps pos (set (delete pos (get st)) st)
              else scan get set process steps (S pos) st
          end
      end
  end.

(** [advanceEpoch]. *)
Definition advanceEpoch (st : State) : Run :=
  let st := collectGarbage st in
  bind (scan m_futureProposals set_m_futureProposals handleProposal
             (length (m_futureProposals st)) 0 st)
       (λ st, scan m_futureCascadeConsensus set_m_futureCascadeConsensus
                   handleCascadeConsensusMessage
                   (length (m_futureCascadeConsensus st)) 0 st).

(** [sendWelcome] as called by [handleConsensusDelivery], with
    [m_associatedWelcome.value()]. *)
Definition sendWelcome (added : list bytes) (st : State) : Run :=
  match m_associatedWelcome st with
  | Some welcome => Done (log (SendWelcome added welcome) st)
  | None => Thrown st
  end.

(** [handleConsensusDelivery]. *)
Definition handleConsensusDelivery (message : MLSMessage) (st : State) : Run :=
  match state st with
  | None => Undefined st
  | Some s =>
      let '(added, removed) := getCommitMembershipChanges s message in
      let st := log (DeliverCommit message) st in
      match deliverCommit s message with
      | None => Undefined (set_state None st)
      | Some s' =>
          let st := set_state (Some s') st in
          bind (match m_proposedCommit st with
                | Some proposed =>
                    if (ref message =? ref proposed) && negb (bool_decide (added = []))
                    then sendWelcome added st
                    else Done st
                | None => Done st
                end)
               (λ st, advanceEpoch (log (CascadeNewEpoch s') (log (GossipNewEpoch s' removed) st)))
      end
  end.

(** [init]. *)
Definition init (initState : option ExtendedMLSState) (st : State) : Run :=
  bind (advanceEpoch (set_state initState st))
       (λ st, match state st with
              | None => Undefined st
              | Some s => Done (log (CascadeNewEpoch s) (log (GossipInit s) st))
              end).

End Engine.

(** The callbacks of the cascade consensus, nested at most [fuel] deep. *)
Fixpoint react (fuel : nat) (u : Upcall) (st : State) : Run :=
  match fuel with
  | O => OutOfFuel
  | S fuel =>
      match u with
      | Candidate message => handleCommit (react fuel) message st
      | Decided message => handleConsensusDelivery (react fuel) message st
      end
  end.

(** *** Notions used in the statements *)

(** The messages of [l] that [advanceEpoch] hands on in epoch [e], and those
    that it keeps. *)
Definition current (e : Epoch) (l : list MLSMessage) : list MLSMessage :=
  filter (λ message, epoch_of message = e) l.

Definition later (e : Epoch) (l : list MLSMessage) : list MLSMessage :=
  filter (λ message, e < epoch_of message) l.

(** [process] applied to the messages of [l], in order. *)
Fixpoint processAll (process : MLSMessage → State → Run) (l : list MLSMessage)
    (st : State) : Run :=
  match l with
  | [] => Done st
  | message :: l => bind (process message st) (processAll process l)
  end.

(** A run followed by an assignment. *)
Definition and_then (f : State → State) (r : Run) : Run :=
  match r with
  | Done st => Done (f st)
  | Thrown st => Thrown (f st)
  | Undefined st => Undefined (f st)
  | OutOfFuel => OutOfFuel
  end.

(** A run that, if it returns or raises, leaves the two buffers and the
    state pointer as they are in [st]. *)
Definition keeps_buffers (st : State) (r : Run) : Prop :=
  match r with
  | Done st' | Thrown st' =>
      m_futureProposals st' = m_futureProposals st
      ∧ m_futureCascadeConsensus st' = m_futureCascadeConsensus st
      ∧ state st' = state st
  | _ => True
  end.

(** A handler whose run leaves the buffers and does not depend on them. *)
Definition apart_from_buffers (handler : State → Run) : Prop :=
  ∀ st,
    keeps_buffers st (handler st)
    ∧ (∀ v, handler (set_m_futureProposals v st)
            = and_then (set_m_futureProposals v) (handler st))
    ∧ (∀ v, handler (set_m_futureCascadeConsensus v st)
            = and_then (set_m_futureCascadeConsensus v) (handler st)).

End DDS.

Arguments Event MLSMessage CascadeConsensusMessage Welcome : clear implicits.
Arguments Upcall MLSMessage : clear implicits.
Arguments State MLSMessage CascadeConsensusMessage Welcome : clear implicits.
Arguments Run MLSMessage CascadeConsensusMessage Welcome : clear implicits.

End DDS.

(** ** Runs of the delivery-service engine *)

Module DDSScenario.

#[local] Abbreviation Build_group := mkState (only parsing).

Import DDS.

(** A message of the group: its epoch and a body.  A body of 100 or more
    stands for a commit without proposals; another body is application data
    that carries the cascade-consensus message of that number. *)
Record Message := mkMessage {
  msg_epoch : Epoch;
  msg_body : N;
}.

Definition marshal_message (message : Message) : bytes :=
  [msg_epoch message; msg_body message].

Definition commit_of (s : ExtendedMLSState) (message : Message) : option (gset N) :=
  if 100 <=? msg_body message then Some ∅ else None.

Definition application_of (s : ExtendedMLSState) (message : Message) : option bytes :=
  if 100 <=? msg_body message then None else Some [msg_body message].

Definition decode_cascade (data : bytes) : option N :=
  match data with
  | [number] => Some number
  | _ => None
  end.

(** The client applies a commit: the next epoch of the same group. *)
Definition next_epoch (s : ExtendedMLSState) (message : Message)
    : option ExtendedMLSState :=
  Some (Build_group (epoch s + 1) (index s) (leaves s)).

(** The commits of epochs 0 and 1. *)
Definition commit_0 : Message := mkMessage 0 100.
Definition commit_1 : Message := mkMessage 1 101.

(** A cascade consensus that, upon message 0, hands over and decides
    [commit_0], and upon message 2 hands over and decides [commit_1]: these
    messages complete the quorum of the commit.  Message 1 and message 3
    cause no callback. *)
Definition quorum_at_0_and_2 (calls : list (Event Message N unit))
    : list (Upcall Message) :=
  match last calls with
  | Some (CascadeReceive 0) => [Candidate commit_0; Decided commit_0]
  | Some (CascadeReceive 2) => [Candidate commit_1; Decided commit_1]
  | _ => []
  end.

Definition upcall : Upcall Message → State Message N unit → Run Message N unit :=
  react msg_epoch msg_body marshal_message (λ _ _, None) commit_of application_of
        (λ _ _, ([], [])) decode_cascade next_epoch quorum_at_0_and_2 8.

Definition reception (message : Message) (st : State Message N unit)
    : Run Message N unit :=
  handleCascadeConsensusReception msg_epoch application_of decode_cascade
                                  quorum_at_0_and_2 upcall message st.

(** The state of a run that returned; the state at which another run
    stopped. *)
Definition returned (r : Run Message N unit) : State Message N unit :=
  match r with
  | Done st => st
  | _ => create
  end.

Definition stopped (r : Run Message N unit) : State Message N unit :=
  match r with
  | Undefined st => st
  | _ => create
  end.

(** A member in epoch 0 of a group of three. *)
Definition in_epoch_0 : State Message N unit :=
  set_state (Some (ReferenceLibrary.group 3 0 0)) create.

(** It receives messages 1, 2 and 3 of epoch 1 before the commit of epoch 0
    is decided. *)
Definition lagging : State Message N unit :=
  returned (reception (mkMessage 1 3)
    (returned (reception (mkMessage 1 2)
      (returned (reception (mkMessage 1 1) in_epoch_0))))).

(** Then message 0 of epoch 0 arrives. *)
Definition after_decision : Run Message N unit := reception (mkMessage 0 0) lagging.

End DDSScenario.

(** ** Integers and byte strings on a socket, and the framing of messages

    [message.hpp] and, of [network.hpp], [Buffer] and [Network::readClient].
    The host is little-endian (the first branch of [hton]). *)

Module Wire.

(** The [size] bytes of an unsigned integer as they lie in memory, least
    significant byte first, and the integer that such bytes hold. *)
Fixpoint to_memory (size : nat) (v : N) : bytes :=
  match size with
  | O => []
  | S size => v mod 256 :: to_memory size (v / 256)
  end.

Definition of_memory (data : bytes) : N := foldr (λ b acc, b + 256 * acc) 0 data.

(** [_swap_any<T>] for a type of [size] bytes:
    [data[i] = input >> ((size - i - 1) * 8)], each stored in a byte. *)
Definition _swap_any (size : nat) (input : N) : N :=
  of_memory ((λ i, N.shiftr input (N.of_nat ((size - i - 1) * 8)) mod 256)
               <$> seq 0 size).

(** [hton<T>] and the macro [ntoh]. *)
Definition hton (size : nat) (input : N) : N := _swap_any size input.
Definition ntoh (size : nat) (input : N) : N := hton size input.

(** *** Writers

    A writer yields the bytes that it hands to [send]; [send] failing makes
    the writer return [false], which is outside the model. *)

(** [netWrite<T>(s, value)]: the memory of [hton(value)]. *)
Definition netWrite_T (size : nat) (value : N) : bytes := to_memory size (hton size value).

(** [netWrite(s, const std::string &)]: the characters and the terminator
    of [c_str()]. *)
Definition netWrite_string (str : bytes) : bytes := str ++ [0].

(** [netWrite(s, const Bytes &)]: [bs.size], a [uint32_t], then the content. *)
Definition netWrite_Bytes (bs : bytes) : bytes :=
  netWrite_T 4 (N.of_nat (length bs) mod 2 ^ 32) ++ bs.

(** *** Readers

    A reader consumes a prefix of the bytes that the socket will yield and
    returns the value with the rest.  [None]: it does not return a value,
    because the bytes run out (it then waits in [recv], or loops on a closed
    connection) or [recv] fails. *)

(** [netRead(s, uint8_t * bytes, size)]: the loop ends when [size] bytes
    have arrived; it ends at once for [size = 0]. *)
Definition netRead_raw (size : nat) (stream : bytes) : option (bytes * bytes) :=
  if (length stream <? size)%nat then None
  else Some (take size stream, drop size stream).

(** [netRead(s, uint8_t &)]. *)
Definition netRead_u8 (stream : bytes) : option (N * bytes) :=
  match stream with
  | [] => None
  | c :: stream => Some (c, stream)
  end.

(** [netRead<T>(s, value)]: [value = ntoh(intVal)] for the integer whose
    memory was read. *)
Definition netRead_T (size : nat) (stream : bytes) : option (N * bytes) :=
  match netRead_raw size stream with
  | Some (data, stream) => Some (ntoh size (of_memory data), stream)
  | None => None
  end.

(** [netRead(s, std::string &)]: the characters before the first zero byte. *)
Fixpoint netRead_string_from (str : bytes) (stream : bytes) : option (bytes * bytes) :=
  match stream with
  | [] => None
  | c :: stream =>
      if c =? 0 then Some (str, stream)
      else netRead_string_from (str ++ [c]) stream
  end.

Definition netRead_string (stream : bytes) : option (bytes * bytes) :=
  netRead_string_from [] stream.

(** [netRead(s, Bytes &)]. *)
Definition netRead_Bytes (stream : bytes) : option (bytes * bytes) :=
  match netRead_T 4 stream with
  | Some (size, stream) => netRead_raw (N.to_nat size) stream
  | None => None
  end.

(** *** [Buffer] *)

(** The bytes held ([curSize] is their number) and the allocated size. *)
Record Buffer := mkBuffer {
  data : bytes;
  reservedSize : nat;
}.

Definition curSize (buf : Buffer) : nat := length (data buf).

(** [init]. *)
Definition init (size : nat) : Buffer := mkBuffer [] size.

(** [realloc]. *)
Definition realloc (newSizeMin : nat) (buf : Buffer) : Buffer :=
  mkBuffer (data buf) (Nat.max (reservedSize buf * 2) newSizeMin).

(** [append]. *)
Definition append (src : bytes) (buf : Buffer) : Buffer :=
  let buf := if (reservedSize buf <? curSize buf + length src)%nat
             then realloc (curSize buf + length src) buf else buf in
  mkBuffer (data buf ++ src) (reservedSize buf).

(** [pop]: the bytes copied to [dst] and the buffer; the callers have
    [size <= curSize], which the function asserts. *)
Definition pop (size : nat) (buf : Buffer) : bytes * Buffer :=
  (take size (data buf), mkBuffer (drop size (data buf)) (reservedSize buf)).

(** *** [Network::readClient] *)

Definition BUF_SIZE : nat := 4096.

(** What [Network] keeps for an inbound client, [m_incomingSize[client]] and
    [m_incomingMessage[client]], and the messages passed to
    [m_handleMessage] so far. *)
Record Inbound := mkInbound {
  m_incomingSize : N;
  m_incomingMessage : Buffer;
  handled : list bytes;
}.

(** The entries that [runSelect] creates when it accepts a client. *)
Definition accepted : Inbound := mkInbound 0 (init BUF_SIZE) [].

(** The [while] loop of [readClient].  An iteration that does not leave the
    loop pops at least one byte, so [steps] above [curSize] suffices. *)
Fixpoint extract (steps : nat) (expected : N) (clientBuf : Buffer) (handled : list bytes)
    : N * Buffer * list bytes :=
  match steps with
  | O => (expected, clientBuf, handled)
  | S steps =>
      if N.of_nat (curSize clientBuf) <? expected then (expected, clientBuf, handled)
      else if expected =? 0 then
        if (curSize clientBuf <? 4)%nat then (expected, clientBuf, handled)
        else
          let '(msgSize, clientBuf) := pop 4 clientBuf in
          extract steps (ntoh 4 (of_memory msgSize)) clientBuf handled
      else
        let '(message, clientBuf) := pop (N.to_nat expected) clientBuf in
        extract steps 0 clientBuf (handled ++ [message])
  end.

(** [readClient], on the bytes that [read] returned; none stands for
    [n <= 0].  [None]: the connection is closed and the client forgotten. *)
Definition readClient (chunk : bytes) (client : Inbound) : option Inbound :=
  match chunk with
  | [] => None
  | _ =>
      let clientBuf := append chunk (m_incomingMessage client) in
      let '(expected, clientBuf, handled) :=
        extract (S (curSize clientBuf)) (m_incomingSize client) clientBuf (handled client) in
      Some (mkInbound expected clientBuf handled)
  end.

(** The successive calls of [readClient] for one client. *)
Fixpoint readAll (chunks : list bytes) (client : Inbound) : option Inbound :=
  match chunks with
  | [] => Some client
  | chunk :: chunks =>
      match readClient chunk client with
      | Some client => readAll chunks client
      | None => None
      end
  end.

(** *** Notions used in the proofs *)

(** The loop of [readClient] on the bytes of the buffer alone. *)
Fixpoint parse (steps : nat) (expected : N) (d : bytes) (handled : list bytes)
    : N * bytes * list bytes :=
  match steps with
  | O => (expected, d, handled)
  | S steps =>
      if N.of_nat (length d) <? expected then (expected, d, handled)
      else if expected =? 0 then
        if (length d <? 4)%nat then (expected, d, handled)
        else parse steps (ntoh 4 (of_memory (take 4 d))) (drop 4 d) handled
      else parse steps 0 (drop (N.to_nat expected) d)
                 (handled ++ [take (N.to_nat expected) d])
  end.

Definition parse_all (expected : N) (d : bytes) (handled : list bytes)
    : N * bytes * list bytes :=
  parse (S (length d)) expected d handled.

End Wire.

(** ** The key directory: messages and server

    [pki.hpp] (the requests and responses on a socket) and, of [pki.cpp],
    [process]. *)

Module PKI.
Import Wire.

(** [enum PKIRequestType : uint32_t]. *)
Inductive PKIRequestType := REQUEST_PUBLISH | REQUEST_QUERY | REQUEST_ADDR.

#[global] Instance PKIRequestType_eq_dec : EqDecision PKIRequestType.
Proof. solve_decision. Defined.

Definition type_code (type : PKIRequestType) : N :=
  match type with
  | REQUEST_PUBLISH => 1
  | REQUEST_QUERY => 2
  | REQUEST_ADDR => 3
  end.

(** [struct PKIPublishRequest]: the identity (a [std::string], as its
    bytes), the port ([uint16_t]) and the keys. *)
Record PKIPublishRequest := mkPublish {
  id : bytes;
  port : N;
  keys : list bytes;
}.

(** [struct PKIRequest]. *)
Record PKIRequest := mkRequest {
  type : PKIRequestType;
  pubRequest : PKIPublishRequest;
  queryRequestId : bytes;
}.

(** [struct PKIQueryResponse], with [ip.s_addr] as a [uint32_t], and
    [struct PKIPublishResponse]. *)
Record PKIQueryResponse := mkQueryResponse {
  success : N;
  ip : N;
  resp_port : N;
  preKey : bytes;
}.

Record PKIPublishResponse := mkPublishResponse {
  pub_success : N;
}.

Section Messages.
(** The value of an integer member that a receiver leaves uninitialised. *)
Variable unset : N.

(** A [PKIRequest] as [PKIRecvRequest] declares it. *)
Definition fresh_request (type : PKIRequestType) : PKIRequest :=
  mkRequest type (mkPublish [] unset []) [].

(** The loop of [PKIRecvRequest] over the keys. *)
Fixpoint recvKeys (count : nat) (keys : list bytes) (stream : bytes)
    : option (list bytes * bytes) :=
  match count with
  | O => Some (keys, stream)
  | S count =>
      match netRead_Bytes stream with
      | Some (bs, stream) => recvKeys count (keys ++ [bs]) stream
      | None => None
      end
  end.

(** [PKIRecvRequest].  [None]: no request is returned; a read did not
    return, or a [CHECK] or [ERROR] ended the process. *)
Definition PKIRecvRequest (stream : bytes) : option (PKIRequest * bytes) :=
  match netRead_T 4 stream with
  | None => None
  | Some (type, stream) =>
      if type =? 1 then
        match netRead_string stream with
        | None => None
        | Some (id, stream) =>
            match netRead_T 2 stream with
            | None => None
            | Some (port, stream) =>
                match netRead_T 4 stream with
                | None => None
                | Some (count, stream) =>
                    match recvKeys (N.to_nat count) [] stream with
                    | None => None
                    | Some (keys, stream) =>
                        Some (mkRequest REQUEST_PUBLISH (mkPublish id port keys) [],
                              stream)
                    end
                end
            end
        end
      else if type =? 2 then
        match netRead_string stream with
        | None => None
        | Some (id, stream) =>
            Some (mkRequest REQUEST_QUERY (pubRequest (fresh_request REQUEST_QUERY)) id,
                  stream)
        end
      else if type =? 3 then
        match netRead_string stream with
        | None => None
        | Some (id, stream) =>
            Some (mkRequest REQUEST_ADDR (pubRequest (fresh_request REQUEST_ADDR)) id,
                  stream)
        end
      else None
  end.

(** [PKISendRequest]: the bytes written. *)
Definition PKISendRequest (req : PKIRequest) : bytes :=
  match type req with
  | REQUEST_PUBLISH =>
      netWrite_T 4 (type_code (type req))
      ++ netWrite_string (id (pubRequest req))
      ++ netWrite_T 2 (port (pubRequest req))
      ++ netWrite_T 4 (N.of_nat (length (keys (pubRequest req))) mod 2 ^ 32)
      ++ concat (netWrite_Bytes <$> keys (pubRequest req))
  | _ =>
      netWrite_T 4 (type_code (type req)) ++ netWrite_string (queryRequestId req)
  end.

(** [PKISendQueryResponse] and [PKISendAddrResponse]. *)
Definition PKISendQueryResponse (resp : PKIQueryResponse) : bytes :=
  [success resp]
  ++ (if success resp =? 0 then []
      else netWrite_T 4 (ip resp) ++ netWrite_T 2 (resp_port resp)
           ++ netWrite_Bytes (preKey resp)).

Definition PKISendAddrResponse (resp : PKIQueryResponse) : bytes :=
  [success resp]
  ++ (if success resp =? 0 then []
      else netWrite_T 4 (ip resp) ++ netWrite_T 2 (resp_port resp)).

(** [PKIRecvQueryResponse] and [PKIRecvAddrResponse]; a response that
    reports failure keeps the members as declared. *)
Definition PKIRecvQueryResponse (stream : bytes) : option (PKIQueryResponse * bytes) :=
  match netRead_u8 stream with
  | None => None
  | Some (success, stream) =>
      if success =? 0 then Some (mkQueryResponse success unset unset [], stream)
      else
        match netRead_T 4 stream with
        | None => None
        | Some (addr, stream) =>
            match netRead_T 2 stream with
            | None => None
            | Some (port, stream) =>
                match netRead_Bytes stream with
                | None => None
                | Some (preKey, stream) =>
                    Some (mkQueryResponse success addr port preKey, stream)
                end
            end
        end
  end.

Definition PKIRecvAddrResponse (stream : bytes) : option (PKIQueryResponse * bytes) :=
  match netRead_u8 stream with
  | None => None
  | Some (success, stream) =>
      if success =? 0 then Some (mkQueryResponse success unset unset [], stream)
      else
        match netRead_T 4 stream with
        | None => None
        | Some (addr, stream) =>
            match netRead_T 2 stream with
            | None => None
            | Some (port, stream) => Some (mkQueryResponse success addr port [], stream)
            end
        end
  end.

(** A request as the receiver holds it: of the members that the type of
    the request does not use, the strings and the vector are empty and the
    port is not set. *)
Definition received (req : PKIRequest) : PKIRequest :=
  match type req with
  | REQUEST_PUBLISH => mkRequest REQUEST_PUBLISH (pubRequest req) []
  | type => mkRequest type (pubRequest (fresh_request type)) (queryRequestId req)
  end.

(** The requests whose fields fit their encoding: the identity holds no
    zero byte, the port is a [uint16_t], and the number of keys and the size
    of each key are [uint32_t]. *)
Definition fits (req : PKIRequest) : Prop :=
  match type req with
  | REQUEST_PUBLISH =>
      Forall (λ c, c ≠ 0) (id (pubRequest req))
      ∧ port (pubRequest req) < 2 ^ 16
      ∧ N.of_nat (length (keys (pubRequest req))) < 2 ^ 32
      ∧ Forall (λ key, N.of_nat (length key) < 2 ^ 32) (keys (pubRequest req))
  | _ => Forall (λ c, c ≠ 0) (queryRequestId req)
  end.

End Messages.

(** *** The server *)

(** The globals [prekeys] and [addresses] of [pki.cpp]; of a
    [sockaddr_in] the address and the port. *)
Record Directory := mkDirectory {
  prekeys : gmap bytes (list bytes);
  addresses : gmap bytes (N * N);
}.

Definition empty_directory : Directory := mkDirectory ∅ ∅.

(** What [process] sends back. *)
Inductive Response :=
| PublishResponse (resp : PKIPublishResponse)
| QueryResponse (resp : PKIQueryResponse).

Section Server.
Variable unset : N.

(** [process], for a request received from the peer address [addr]
    ([sin_addr.s_addr] and [sin_port], both in network byte order). *)
Definition process (req : PKIRequest) (addr : N * N) (dir : Directory)
    : Response * Directory :=
  match type req with
  | REQUEST_PUBLISH =>
      let pub := pubRequest req in
      (PublishResponse (mkPublishResponse 1),
       mkDirectory (<[id pub := keys pub]> (prekeys dir))
                   (<[id pub := (ntoh 4 (fst addr), port pub)]> (addresses dir)))
  | _ =>
      let name := queryRequestId req in
      match prekeys dir !! name, addresses dir !! name with
      | Some queue, Some address =>
          match type req, queue with
          | REQUEST_QUERY, front :: queue =>
              (QueryResponse (mkQueryResponse 1 (fst address) (snd address) front),
               mkDirectory (<[name := queue]> (prekeys dir)) (addresses dir))
          | REQUEST_QUERY, [] =>
              (QueryResponse (mkQueryResponse 0 unset unset []), dir)
          | _, _ =>
              (QueryResponse (mkQueryResponse 1 (fst address) (snd address) []), dir)
          end
      | _, _ => (QueryResponse (mkQueryResponse 0 unset unset []), dir)
      end
  end.

(** Successive requests of one kind for [name], from any peers: the
    responses and the directory left. *)
Fixpoint ask (type : PKIRequestType) (name : bytes) (times : nat) (dir : Directory)
    : list Response * Directory :=
  match times with
  | O => ([], dir)
  | S times =>
      let '(resp, dir) := process (mkRequest type (mkPublish [] unset []) name) (0, 0) dir in
      let '(resps, dir) := ask type name times dir in
      (resp :: resps, dir)
  end.

End Server.

End PKI.

(** ** Commits that wait for proposals *)

Module DDSNotions.

(** An entry of [m_incompleteCommits] once [newRef] has been received. *)
Definition without {MLSMessage} (newRef : N) (entry : MLSMessage * gset N)
    : MLSMessage * gset N :=
  (fst entry, snd entry ∖ {[newRef]}).

End DDSNotions.

(** ** A commit that arrives before a proposal it references *)

Module DDSCommitScenario.
Import DDS DDSScenario.

(** A body below 50 stands for a proposal whose reference is the body; a
    body of 100 or more for a commit that references the proposal of the
    body less 100. *)
Definition proposal_of (s : ExtendedMLSState) (message : Message) : option N :=
  if msg_body message <? 50 then Some (msg_body message) else None.

Definition references_of (s : ExtendedMLSState) (message : Message) : option (gset N) :=
  if 100 <=? msg_body message then Some {[msg_body message - 100]} else None.

(** A cascade consensus that makes no callback. *)
Definition silent (calls : list (Event Message N unit)) : list (Upcall Message) := [].

Definition candidate (message : Message) (st : State Message N unit) : Run Message N unit :=
  react msg_epoch msg_body marshal_message proposal_of references_of (λ _ _, None)
        (λ _ _, ([], [])) decode_cascade next_epoch silent 1 (Candidate message) st.

Definition proposal (message : Message) (st : State Message N unit) : Run Message N unit :=
  handleProposal msg_epoch proposal_of (λ _ _, None) message st.

(** The member receives the commit that references proposal 5, then
    proposal 5. *)
Definition commit_5 : Message := mkMessage 0 105.
Definition proposal_5 : Message := mkMessage 0 5.

Definition awaiting : State Message N unit := returned (candidate commit_5 in_epoch_0).
Definition completed : Run Message N unit := proposal proposal_5 awaiting.

(** Messages 1 and 2 of epoch 1 and message 3 of epoch 2 wait in the buffer
    of a member that is in epoch 1. *)
Definition buffered : State Message N unit :=
  set_m_futureCascadeConsensus [mkMessage 1 1; mkMessage 2 3; mkMessage 1 2; mkMessage 0 4]
    (set_state (Some (ReferenceLibrary.group 3 0 1)) create).

End DDSCommitScenario.

(** * Part II: properties *)

(** Inside a section a proof depends on the section variables of its
    statement only. *)
Set Default Proof Using "Type".

(** Evaluation of a conjunction of closed equations. *)
Ltac evaluate :=
  repeat match goal with |- _ ∧ _ => split end; vm_compute; reflexivity.

(** ** Ordered iteration *)

Lemma elem_of_sorted_elements (s : gset N) x : x ∈ sorted_elements s ↔ x ∈ s.
Proof.
  unfold sorted_elements. rewrite merge_sort_Permutation. apply elem_of_elements.
Qed.

Lemma NoDup_sorted_elements (s : gset N) : NoDup (sorted_elements s).
Proof.
  unfold sorted_elements. rewrite merge_sort_Permutation. apply NoDup_elements.
Qed.

Lemma length_sorted_elements (s : gset N) : length (sorted_elements s) = size s.
Proof.
  unfold sorted_elements. rewrite merge_sort_Permutation. reflexivity.
Qed.

Lemma elem_of_sorted_keys {V} (m : gmap N V) x : x ∈ sorted_keys m ↔ is_Some (m !! x).
Proof.
  unfold sorted_keys. rewrite elem_of_sorted_elements. apply elem_of_dom.
Qed.

(** ** The Choice function *)

Module ChoiceProofs.
Import Choice.
Section Choice.
Context {MLSMessage Proposal : Type}.
Variable getCommitContent : MLSMessage → LeafIndex * list Proposal.

#[local] Abbreviation dominated := (dominated getCommitContent).
#[local] Abbreviation consistent := (consistent getCommitContent).
#[local] Abbreviation count_of := (count_of getCommitContent).
#[local] Abbreviation sender_of := (sender_of getCommitContent).
#[local] Abbreviation key_of := (key_of getCommitContent).
#[local] Abbreviation chooseCommit := (chooseCommit getCommitContent).
#[local] Abbreviation chooseCommit_step := (chooseCommit_step getCommitContent).

Lemma dominated_refl c : dominated c c.
Proof. right. split; [reflexivity | lia]. Qed.

Lemma dominated_trans a b c : dominated a b → dominated b c → dominated a c.
Proof.
  unfold Choice.dominated.
  intros [?|[? ?]] [?|[? ?]]; [left; lia ..| right; split; lia].
Qed.

Lemma dominated_antisym a b :
  dominated a b → dominated b a → count_of a = count_of b ∧ sender_of a = sender_of b.
Proof. unfold Choice.dominated. intros [?|[? ?]] [?|[? ?]]; lia. Qed.

Lemma chooseCommit_step_spec b c :
  consistent b →
  let b' := chooseCommit_step b c in
  consistent b' ∧ (bestCommit b' = bestCommit b ∨ bestCommit b' = c)
  ∧ dominated (bestCommit b) (bestCommit b') ∧ dominated c (bestCommit b').
Proof.
  intros [Hs Hc]. unfold Choice.chooseCommit_step, Choice.dominated, Choice.consistent.
  unfold Choice.sender_of, Choice.count_of in *.
  destruct (getCommitContent c) as [s ps] eqn:Hcc. simpl.
  destruct ((bestCount b <? length ps)%nat
            || ((length ps =? bestCount b)%nat && (s <? bestSender b))) eqn:Hb; simpl.
  - rewrite Hcc. simpl. split; [done|]. split; [by right|]. split.
    + apply orb_true_iff in Hb as [Hb|Hb].
      * apply Nat.ltb_lt in Hb. left. lia.
      * apply andb_true_iff in Hb as [H1 H2].
        apply Nat.eqb_eq in H1. apply N.ltb_lt in H2. right. split; lia.
    + right. split; [reflexivity | lia].
  - split; [done|]. split; [by left|]. split.
    + right. split; [reflexivity | lia].
    + apply orb_false_iff in Hb as [H1 H2]. apply Nat.ltb_ge in H1.
      apply andb_false_iff in H2 as [H2|H2].
      * apply Nat.eqb_neq in H2. left. lia.
      * apply N.ltb_ge in H2.
        destruct (decide (length ps = bestCount b)); [right; split; lia | left; lia].
Qed.

Lemma chooseCommit_fold_spec l b :
  consistent b →
  let b' := fold_left chooseCommit_step l b in
  consistent b' ∧ (bestCommit b' = bestCommit b ∨ bestCommit b' ∈ l)
  ∧ dominated (bestCommit b) (bestCommit b')
  ∧ ∀ c, c ∈ l → dominated c (bestCommit b').
Proof.
  revert b. induction l as [|x l IH]; intros b Hb; simpl.
  - split; [done|]. split; [by left|]. split; [apply dominated_refl|].
    intros c Hc. inversion Hc.
  - destruct (chooseCommit_step_spec b x Hb) as (Hb1 & Hsel & Hd1 & Hd2).
    destruct (IH _ Hb1) as (Hc' & Hsel' & Hd' & Hall).
    split; [done|]. split; [|split].
    + destruct Hsel' as [Heq|Hin].
      * rewrite Heq. destruct Hsel as [->| ->]; [by left | right; left].
      * right. by right.
    + eauto using dominated_trans.
    + intros c Hc. apply elem_of_cons in Hc as [->|Hc]; eauto using dominated_trans.
Qed.

(** What [chooseCommit] returns on a non-empty vector. *)
Lemma chooseCommit_some c0 l :
  ∃ best, chooseCommit (c0 :: l) = Some best ∧ best ∈ c0 :: l
          ∧ ∀ c, c ∈ c0 :: l → dominated c best.
Proof.
  unfold Choice.chooseCommit.
  destruct (getCommitContent c0) as [s0 p0] eqn:H0.
  assert (Hcons : consistent (mkBest c0 s0 (length p0))).
  { unfold Choice.consistent, Choice.sender_of, Choice.count_of. simpl. by rewrite H0. }
  destruct (chooseCommit_fold_spec (c0 :: l) _ Hcons) as (_ & Hsel & _ & Hall).
  eexists. split; [reflexivity|]. split; [|exact Hall].
  destruct Hsel as [Heq|Hin]; [|exact Hin].
  rewrite Heq. by left.
Qed.

Lemma key_of_inj_on l a b :
  NoDup (key_of <$> l) → a ∈ l → b ∈ l → key_of a = key_of b → a = b.
Proof.
  induction l as [|x l IH]; intros Hnd Ha Hb Hk; [inversion Ha|].
  rewrite fmap_cons in Hnd. apply NoDup_cons in Hnd as [Hx Hnd].
  apply elem_of_cons in Ha as [->|Ha]; apply elem_of_cons in Hb as [->|Hb]; auto.
  - exfalso. apply Hx. rewrite Hk. by apply list_elem_of_fmap_2.
  - exfalso. apply Hx. rewrite <- Hk. by apply list_elem_of_fmap_2.
Qed.

(** C1.  On a non-empty candidate list [chooseCommit] returns a candidate
    that has the greatest number of proposals and, among those with that
    many, the smallest sender leaf index; and when no two candidates agree
    on both proposal count and sender, every permutation of the list gives
    the same result. *)
Theorem chooseCommit_greatest_and_order_independent (commits : list MLSMessage) :
  commits ≠ [] →
  (∃ best, chooseCommit commits = Some best ∧ best ∈ commits
     ∧ ∀ c, c ∈ commits →
         (count_of c ≤ count_of best)%nat
         ∧ (count_of c = count_of best → sender_of best ≤ sender_of c))
  ∧ (NoDup (key_of <$> commits) →
     ∀ commits', commits' ≡ₚ commits → chooseCommit commits' = chooseCommit commits).
Proof.
  intros Hne. destruct commits as [|c0 l]; [done|]. clear Hne. split.
  - destruct (chooseCommit_some c0 l) as (best & Hb & Hin & Hall).
    exists best. split; [done|]. split; [done|].
    intros c Hc. destruct (Hall c Hc) as [?|[? ?]]; split; lia.
  - intros Hnd commits' Hp.
    destruct commits' as [|c0' l'].
    { symmetry in Hp. by apply Permutation_nil_r in Hp. }
    destruct (chooseCommit_some c0 l) as (best & Hb & Hin & Hall).
    destruct (chooseCommit_some c0' l') as (best' & Hb' & Hin' & Hall').
    rewrite Hb, Hb'. f_equal.
    rewrite Hp in Hin'.
    assert (Hin2 : best ∈ c0' :: l') by by rewrite Hp.
    destruct (dominated_antisym _ _ (Hall _ Hin') (Hall' _ Hin2)) as [Hc Hs].
    apply (key_of_inj_on (c0 :: l)); auto.
    unfold Choice.key_of. by rewrite Hc, Hs.
Qed.
End Choice.

Lemma chooseCommit_greatest_and_order_independent_witness :
  chooseCommit sample_content [(3, [1%nat]); (1, [1%nat; 2%nat]); (0, [])]
  = Some (1, [1%nat; 2%nat])
  ∧ chooseCommit sample_content [(0, []); (3, [1%nat]); (1, [1%nat; 2%nat])]
    = chooseCommit sample_content [(3, [1%nat]); (1, [1%nat; 2%nat]); (0, [])].
Proof.
  pose proof (chooseCommit_greatest_and_order_independent sample_content
                [(3, [1%nat]); (1, [1%nat; 2%nat]); (0, [])]) as H.
  destruct H as [_ Hperm]; [discriminate|].
  split; [reflexivity|].
  apply Hperm.
  - apply (bool_decide_unpack _). vm_compute. exact I.
  - apply Permutation_cons_append.
Defined.
End ChoiceProofs.

(** ** CAC signatures *)

Module CACSignatureProofs.
Import CACSignature.
Section Ops.
Context `{MLSLibrary}.

Lemma verifyAndConvert_some state ac sig :
  verifyAndConvert state ac = Returned (Some sig) ↔ accepted state ac sig.
Proof.
  unfold verifyAndConvert, accepted, authenticated. split.
  - destruct (MLSOps.verify state ac) eqn:Hv; simpl; [|discriminate].
    destruct (ac_epoch ac =? epoch state) eqn:He; simpl; [|discriminate].
    apply N.eqb_eq in He.
    case_bool_decide as Hm; simpl; [|discriminate].
    case_bool_decide as Ha; simpl; [|discriminate].
    destruct (ac_content ac) as [content| |] eqn:Hc; try discriminate.
    destruct (unmarshal_sig content) as [data|] eqn:Hd; [|discriminate].
    destruct (sd_witnessOrReady data =? WITNESS_CODE) eqn:Hw; simpl.
    + apply N.eqb_eq in Hw. intros [= <-]. split; [done|].
      exists content, data. rewrite Hw. repeat split; auto.
    + destruct (sd_witnessOrReady data =? READY_CODE) eqn:Hr; simpl; [|discriminate].
      apply N.eqb_eq in Hr. intros [= <-]. split; [done|].
      exists content, data. repeat split; auto. by rewrite Hw.
  - intros ((Hv & He & Hm & Ha) & content & data & Hc & Hd & Hk & ->).
    rewrite Hv. apply N.eqb_eq in He. rewrite He. simpl.
    rewrite !bool_decide_true by done. simpl. rewrite Hc, Hd.
    destruct Hk as [Hk|Hk]; rewrite Hk; reflexivity.
Qed.

Lemma verifyAndConvert_thrown state ac :
  verifyAndConvert state ac = Thrown ↔ authenticated state ac ∧ undecodable ac.
Proof.
  unfold verifyAndConvert, undecodable, authenticated. split.
  - destruct (MLSOps.verify state ac) eqn:Hv; simpl; [|discriminate].
    destruct (ac_epoch ac =? epoch state) eqn:He; simpl; [|discriminate].
    apply N.eqb_eq in He.
    case_bool_decide as Hm; simpl; [|discriminate].
    case_bool_decide as Ha; simpl; [|discriminate].
    destruct (ac_content ac) as [content| |] eqn:Hc; try discriminate.
    destruct (unmarshal_sig content) as [data|] eqn:Hd.
    + destruct (negb _ && negb _); discriminate.
    + intros _. split; [done|]. by exists content.
  - intros ((Hv & He & Hm & Ha) & content & Hc & Hd).
    rewrite Hv. apply N.eqb_eq in He. rewrite He. simpl.
    rewrite !bool_decide_true by done. rewrite Hc. simpl.
    by rewrite Hd.
Qed.

(** Signatures built by [verifyAndConvert] come from a member sender. *)
Lemma verifyAndConvert_member state ac sig :
  verifyAndConvert state ac = Returned (Some sig) →
  ac_sender (authContent sig) = MemberSender (sender sig).
Proof.
  intros Hv. apply verifyAndConvert_some in Hv.
  destruct Hv as ((_ & _ & Hm & _) & content & data & _ & _ & _ & Hsig).
  subst sig. unfold sender, make. simpl. by destruct (ac_sender ac).
Qed.

End Ops.

Import ReferenceLibrary.


End CACSignatureProofs.

(** ** CAC broadcast *)

Module CACProofs.
Import CAC.

Lemma fold_left_invariant_in {A B} (f : A → B → A) (I : A → Prop) (l : list B) (a : A) :
  I a → (∀ a b, b ∈ l → I a → I (f a b)) → I (fold_left f l a).
Proof.
  revert a. induction l as [|b l IH]; intros a Ha Hstep; simpl; [done|].
  apply IH.
  - apply Hstep; [left | done].
  - intros a' b' Hb'. apply Hstep. by right.
Qed.

Lemma fold_left_invariant {A B} (f : A → B → A) (I : A → Prop) (l : list B) (a : A) :
  I a → (∀ a b, I a → I (f a b)) → I (fold_left f l a).
Proof. intros Ha Hstep. apply fold_left_invariant_in; auto. Qed.

Lemma filter_ext_in {A} (P Q : A → Prop) `{∀ x, Decision (P x)} `{∀ x, Decision (Q x)}
    (l : list A) :
  (∀ x, x ∈ l → P x ↔ Q x) → filter P l = filter Q l.
Proof.
  induction l as [|x l IH]; intros Hpq; [done|].
  rewrite !filter_cons.
  assert (Hx : P x ↔ Q x) by (apply Hpq; left).
  rewrite IH by (intros y Hy; apply Hpq; by right).
  destruct (decide (P x)), (decide (Q x)); tauto.
Qed.

Section CAC.
Context `{MLSLibrary}.
Context {MessageT : Type}.
Variable ref : MessageT → MessageRef.
Variable default_message : MessageT.
Variable choice : list MessageT → MessageT.

#[local] Abbreviation State := (State MessageT).
#[local] Abbreviation message_at := (message_at default_message).
#[local] Abbreviation collectChoices := (collectChoices default_message).
#[local] Abbreviation witnessChoice := (witnessChoice ref default_message choice).
#[local] Abbreviation readyAndDeliver := (readyAndDeliver default_message).
#[local] Abbreviation readyOnWitnesses := (readyOnWitnesses default_message).
#[local] Abbreviation receivedWitness := (receivedWitness ref default_message choice).
#[local] Abbreviation receivedReady := (receivedReady default_message).
#[local] Abbreviation deliverReady := (deliverReady default_message).
#[local] Abbreviation transmit := (transmit default_message).
#[local] Abbreviation validateMessage := (validateMessage ref default_message choice).
#[local] Abbreviation deliver_only := (deliver_only default_message).

(** *** Fields left alone by the signing and sending helpers *)

Ltac frame_done := unfold CAC.same_frame; simpl; repeat split; reflexivity.

Lemma same_frame_refl (st : State) : same_frame st st.
Proof. frame_done. Qed.

Lemma same_frame_trans (st1 st2 st3 : State) :
  same_frame st1 st2 → same_frame st2 st3 → same_frame st1 st3.
Proof.
  unfold same_frame. intros (?&?&?&?&?&?&?) (?&?&?&?&?&?&?).
  repeat split; congruence.
Qed.

Lemma same_frame_fold {B} (f : State → B → State) (l : list B) (st : State) :
  (∀ s b, same_frame s (f s b)) → same_frame st (fold_left f l st).
Proof.
  intros Hf. apply (fold_left_invariant f (same_frame st)).
  - apply same_frame_refl.
  - intros a b Ha. eapply same_frame_trans; [exact Ha | apply Hf].
Qed.

Lemma countSignature_frame sig (st : State) : same_frame st (countSignature sig st).
Proof.
  unfold countSignature.
  destruct (CACSignature.isWitness sig); [frame_done|].
  destruct (CACSignature.isReady sig); frame_done.
Qed.

Lemma emitSignature_frame w r (st : State) : same_frame st (emitSignature w r st).
Proof.
  unfold emitSignature.
  eapply same_frame_trans; [|apply countSignature_frame]. frame_done.
Qed.

Lemma broadcastMessage_frame w m (st : State) : same_frame st (broadcastMessage w m st).
Proof. unfold broadcastMessage, log. case_bool_decide; frame_done. Qed.

Lemma message_at_frame r (st : State) : same_frame st (snd (message_at r st)).
Proof.
  unfold CAC.message_at, subscript. destruct (_ !! _); frame_done.
Qed.

Lemma collectChoices_frame (st : State) : same_frame st (snd (collectChoices st)).
Proof.
  unfold CAC.collectChoices.
  apply (fold_left_invariant _ (λ acc, same_frame st (snd acc))).
  - apply same_frame_refl.
  - intros [l s] r Hs. simpl in *.
    pose proof (message_at_frame r s) as Hm.
    destruct (message_at r s) as [m s']. simpl in *.
    eapply same_frame_trans; eauto.
Qed.

Lemma emitReady_frame (st : State) r : same_frame st (emitReady st r).
Proof.
  unfold emitReady. case_bool_decide; [apply same_frame_refl|].
  eapply same_frame_trans; [apply emitSignature_frame | apply broadcastMessage_frame].
Qed.

Lemma witnessChoice_frame (st : State) : same_frame st (witnessChoice st).
Proof.
  unfold CAC.witnessChoice.
  destruct (_ && _); [|apply same_frame_refl].
  pose proof (collectChoices_frame st) as Hc.
  destruct (collectChoices st) as [choices s]. simpl in Hc.
  eapply same_frame_trans; [exact Hc|].
  eapply same_frame_trans; [apply emitSignature_frame | apply broadcastMessage_frame].
Qed.

Lemma transmit_frame (st : State) r : same_frame st (transmit st r).
Proof.
  unfold CAC.transmit.
  pose proof (message_at_frame r st) as Hm.
  destruct (message_at r st) as [m s]. simpl in Hm.
  eapply same_frame_trans; [exact Hm|]. frame_done.
Qed.

Lemma markSeen_frame (st : State) (l : list MessageRef) :
  same_frame st (snd (fold_left markSeen l ([], st))).
Proof.
  apply (fold_left_invariant _ (λ acc, same_frame st (snd acc))).
  - apply same_frame_refl.
  - intros [seen s] r Hs. unfold markSeen. simpl in *.
    destruct (_ && _); simpl; [|done].
    eapply same_frame_trans; [exact Hs|]. frame_done.
Qed.

Lemma readyAndDeliver_frame (st : State) r : same_frame st (readyAndDeliver st r).
Proof.
  unfold CAC.readyAndDeliver.
  destruct (deliversImmediately (emitReady st r) r); [|apply emitReady_frame].
  pose proof (message_at_frame r (emitReady st r)) as Hm.
  destruct (message_at r (emitReady st r)) as [m s]. simpl in Hm.
  eapply same_frame_trans; [apply emitReady_frame|].
  eapply same_frame_trans; [exact Hm|]. frame_done.
Qed.

Lemma readyOnWitnesses_frame (st : State) : same_frame st (readyOnWitnesses st).
Proof.
  unfold CAC.readyOnWitnesses. destruct (existsb _ _); [|apply same_frame_refl].
  apply same_frame_fold. apply readyAndDeliver_frame.
Qed.

Lemma witnessOrWait_frame minWitnesses (st : State) msg :
  same_frame st (witnessOrWait minWitnesses st msg).
Proof.
  unfold witnessOrWait. destruct msg as [r entry].
  destruct (_ && _); [|apply same_frame_refl].
  case_bool_decide; [|frame_done].
  eapply same_frame_trans; [apply emitSignature_frame | apply broadcastMessage_frame].
Qed.

Lemma witnessAfterQuorum_frame (st : State) : same_frame st (witnessAfterQuorum st).
Proof.
  unfold witnessAfterQuorum. destruct (_ && _); [|apply same_frame_refl].
  match goal with |- context [match ?d with Some _ => _ | None => _ end] =>
    destruct d as [r|] end.
  - eapply same_frame_trans; [apply emitSignature_frame | apply broadcastMessage_frame].
  - apply same_frame_fold. apply witnessOrWait_frame.
Qed.

Lemma receivedWitness_frame (st : State) : same_frame st (receivedWitness st).
Proof.
  unfold CAC.receivedWitness.
  pose proof (markSeen_frame st (sorted_keys (m_signaturesCount st))) as Hm.
  destruct (fold_left markSeen _ _) as [toBeTransmitted s]. simpl in Hm.
  eapply same_frame_trans; [exact Hm|].
  eapply same_frame_trans;
    [apply (same_frame_fold transmit toBeTransmitted s), transmit_frame|].
  eapply same_frame_trans; [apply witnessChoice_frame|].
  eapply same_frame_trans; [apply readyOnWitnesses_frame|].
  apply witnessAfterQuorum_frame.
Qed.

(** *** Immediate delivery and delivery on a READY quorum *)

Lemma message_at_spec r (st : State) :
  fst (message_at r st) = payload_at default_message r st
  ∧ events (snd (message_at r st)) = events st
  ∧ m_validSignatures (snd (message_at r st)) = m_validSignatures st
  ∧ m_signaturesCount (snd (message_at r st)) = m_signaturesCount st
  ∧ m_deliveredMessages (snd (message_at r st)) = m_deliveredMessages st
  ∧ qr (snd (message_at r st)) = qr st.
Proof.
  unfold CAC.message_at, payload_at, subscript.
  destruct (_ !! _); simpl; repeat split; reflexivity.
Qed.

(** The immediate delivery of [receivedWitness] calls the deliver callback
    and leaves [m_deliveredMessages] alone. *)
Lemma readyAndDeliver_immediate (st : State) message :
  deliversImmediately (emitReady st message) message = true →
  events (readyAndDeliver st message)
  = events (emitReady st message)
    ++ [Deliver (payload_at default_message message (emitReady st message)) [message]
                (validSignatures (emitReady st message))]
  ∧ m_deliveredMessages (readyAndDeliver st message) = m_deliveredMessages st.
Proof.
  intros Hd. split.
  - unfold CAC.readyAndDeliver. rewrite Hd.
    destruct (message_at_spec message (emitReady st message)) as (Hp & He & Hv & _).
    destruct (message_at message (emitReady st message)) as [payload s]. simpl in *.
    unfold validSignatures. by rewrite He, Hv, Hp.
  - apply readyAndDeliver_frame.
Qed.

(** The delivery on a READY quorum records the reference, and a recorded
    reference is not delivered by that loop again. *)
Lemma deliverReady_spec conflictSet (st : State) r :
  (qr st ≤ readyCount (sigs_of r st) → r ∉ m_deliveredMessages st →
     events (deliverReady conflictSet st r)
     = events st ++ [Deliver (payload_at default_message r st) conflictSet
                             (validSignatures st)]
     ∧ m_deliveredMessages (deliverReady conflictSet st r)
       = {[r]} ∪ m_deliveredMessages st)
  ∧ (r ∈ m_deliveredMessages st → deliverReady conflictSet st r = st)
  ∧ (readyCount (sigs_of r st) < qr st → deliverReady conflictSet st r = st).
Proof.
  unfold CAC.deliverReady. split; [|split].
  - intros Hq Hn. rewrite !bool_decide_true by done.
    rewrite bool_decide_false by done. simpl.
    match goal with |- context [message_at r ?s] =>
      destruct (message_at_spec r s) as (Hp & He & Hv & _ & Hd & _);
      destruct (message_at r s) as [payload s'] end.
    simpl in *. unfold validSignatures. rewrite He, Hv, Hp, Hd. done.
  - intros Hin. rewrite (bool_decide_true (r ∈ _)) by done.
    by rewrite andb_false_r.
  - intros Hlt. rewrite bool_decide_false by lia. done.
Qed.


(** *** READY processing *)

#[local] Abbreviation self st := (index (m_state st)).

Lemma signReady_signaturesCount (st : State) r :
  m_signaturesCount (signReady st r)
  = <[r := mkMessageSigs
             (signedWitness (sigs_of r st))
             ({[CACSignature.sender
                  (CACSignature.sign (m_state st) (m_sigCount st) CACSignature.READY r)]}
              ∪ signedReady (sigs_of r st))]> (m_signaturesCount st).
Proof. reflexivity. Qed.

Lemma signReady_frame (st : State) r : same_frame st (signReady st r).
Proof.
  unfold signReady.
  eapply same_frame_trans; [apply emitSignature_frame | apply broadcastMessage_frame].
Qed.

Lemma signReady_messages (st : State) r : m_messages (signReady st r) = m_messages st.
Proof. reflexivity. Qed.

Lemma signReady_other (st : State) r r' :
  r' ≠ r → sigs_of r' (signReady st r) = sigs_of r' st.
Proof.
  intros Hne. unfold sigs_of at 1. rewrite signReady_signaturesCount.
  by rewrite lookup_insert_ne.
Qed.

Lemma signReady_witnesses (st : State) r r' :
  signedWitness (sigs_of r' (signReady st r)) = signedWitness (sigs_of r' st).
Proof.
  destruct (decide (r' = r)) as [->|Hne]; [|by rewrite signReady_other].
  unfold sigs_of at 1. rewrite signReady_signaturesCount.
  by rewrite lookup_insert_eq.
Qed.

Lemma signReady_readies (st : State) r r' :
  signedReady (sigs_of r' st) ⊆ signedReady (sigs_of r' (signReady st r)).
Proof.
  destruct (decide (r' = r)) as [->|Hne]; [|by rewrite signReady_other].
  unfold sigs_of at 2. rewrite signReady_signaturesCount.
  rewrite lookup_insert_eq. simpl. apply union_subseteq_r.
Qed.

Lemma signReady_dom (st : State) r :
  is_Some (m_signaturesCount st !! r) →
  dom (m_signaturesCount (signReady st r)) = dom (m_signaturesCount st).
Proof.
  intros Hr. rewrite signReady_signaturesCount, dom_insert_L.
  apply elem_of_dom in Hr. apply subseteq_union_1_L.
  by apply singleton_subseteq_l.
Qed.

Lemma signReady_fold (l : list MessageRef) (st : State) :
  (∀ r, r ∈ l → is_Some (m_signaturesCount st !! r)) →
  ready_only st (fold_left signReady l st).
Proof.
  intros Hl. apply (fold_left_invariant_in signReady (ready_only st)).
  - unfold ready_only. split; [apply same_frame_refl|]. done.
  - intros s r Hr (Hf & Hm & Hd & Hw & Hrd).
    assert (Hs : is_Some (m_signaturesCount s !! r)).
    { apply elem_of_dom. rewrite Hd. apply elem_of_dom. by apply Hl. }
    split; [eapply same_frame_trans; [exact Hf | apply signReady_frame]|].
    split; [by rewrite signReady_messages|].
    split; [by rewrite signReady_dom|].
    split.
    + intros r'. by rewrite signReady_witnesses.
    + intros r'. etrans; [apply Hrd | apply signReady_readies].
Qed.

(** The first loop of [receivedReady] signs READY for exactly the references
    that self has not signed READY for. *)
Lemma emitReady_fold (l : list MessageRef) (st : State) :
  NoDup l →
  fold_left emitReady l st
  = fold_left signReady (filter (λ r, self st ∉ signedReady (sigs_of r st)) l) st.
Proof.
  revert st. induction l as [|r l IH]; intros st Hnd; [done|].
  apply NoDup_cons in Hnd as [Hr Hnd].
  rewrite filter_cons. simpl. unfold emitReady at 2.
  case_bool_decide as Hin.
  - rewrite decide_False by (intros Hc; by apply Hc). by apply IH.
  - rewrite decide_True by done. simpl. rewrite IH by done.
    fold (signReady st r). f_equal.
    apply filter_ext_in. intros r' Hr'.
    assert (r' ≠ r) by (intros ->; done).
    rewrite signReady_other by done.
    destruct (signReady_frame st r) as (-> & _). done.
Qed.

Lemma conflictSetOf_ready_only (st st' : State) :
  ready_only st st' → conflictSetOf st' = conflictSetOf st.
Proof.
  intros ((_ & Hk & _) & _ & Hd & Hw & _).
  unfold conflictSetOf, sorted_keys. rewrite Hd, Hk.
  apply filter_ext_in. intros r _. unfold witnessCount. by rewrite Hw.
Qed.

Lemma elem_of_conflictSetOf (st : State) r :
  r ∈ conflictSetOf st
  ↔ is_Some (m_signaturesCount st !! r) ∧ k st ≤ witnessCount (sigs_of r st).
Proof.
  unfold conflictSetOf. rewrite list_elem_of_filter, elem_of_sorted_keys.
  split; intros [? ?]; done.
Qed.

Lemma NoDup_sorted_keys {V} (m : gmap N V) : NoDup (sorted_keys m).
Proof. apply NoDup_sorted_elements. Qed.

Lemma NoDup_conflictSetOf (st : State) : NoDup (conflictSetOf st).
Proof. apply NoDup_filter, NoDup_sorted_keys. Qed.

Lemma NoDup_messagesWithEnoughWitness (st : State) : NoDup (messagesWithEnoughWitness st).
Proof. apply NoDup_filter, NoDup_sorted_keys. Qed.

Lemma message_at_payload r (st : State) r' :
  payload_at default_message r' (snd (message_at r st)) = payload_at default_message r' st.
Proof.
  unfold CAC.message_at, payload_at, subscript.
  destruct (m_messages st !! r) eqn:Hr; simpl; [done|].
  destruct (decide (r' = r)) as [->|Hne].
  - by rewrite lookup_insert_eq, Hr.
  - by rewrite lookup_insert_ne.
Qed.

Lemma deliverReady_step conflictSet (st : State) r :
  let st' := deliverReady conflictSet st r in
  deliver_only st st'
  ∧ (qr st ≤ readyCount (sigs_of r st) ∧ r ∉ m_deliveredMessages st →
       events st' = events st ++ [Deliver (payload_at default_message r st) conflictSet
                                          (validSignatures st)]
       ∧ m_deliveredMessages st' = {[r]} ∪ m_deliveredMessages st)
  ∧ (¬ (qr st ≤ readyCount (sigs_of r st) ∧ r ∉ m_deliveredMessages st) →
       events st' = events st ∧ m_deliveredMessages st' = m_deliveredMessages st).
Proof.
  unfold CAC.deliverReady. simpl.
  destruct (decide (qr st ≤ readyCount (sigs_of r st) ∧ r ∉ m_deliveredMessages st))
    as [[Hq Hn]|Hno].
  - rewrite (bool_decide_true _ Hq), (bool_decide_false _ Hn). simpl.
    match goal with |- context [message_at r ?s] =>
      pose proof (message_at_payload r s) as Hpay;
      destruct (message_at_spec r s) as (Hp & He & Hv & Hs & Hd & Hqr);
      destruct (message_at r s) as [payload s'] end.
    simpl in *. split; [|split].
    + split; [done|]. split; [done|]. split; [exact Hqr | exact Hpay].
    + intros _. unfold validSignatures. by rewrite He, Hv, Hp, Hd.
    + intros Hc. exfalso. by apply Hc.
  - assert (Hb : bool_decide (qr st ≤ readyCount (sigs_of r st))
                 && negb (bool_decide (r ∈ m_deliveredMessages st)) = false).
    { apply andb_false_iff. rewrite negb_false_iff.
      destruct (decide (qr st ≤ readyCount (sigs_of r st))).
      - right. apply bool_decide_true.
        destruct (decide (r ∈ m_deliveredMessages st)); [done|].
        exfalso. by apply Hno.
      - left. by apply bool_decide_false. }
    rewrite Hb. split; [|split]; [by repeat split | intros Hc; done | done].
Qed.

Lemma deliverReady_fold conflictSet (l : list MessageRef) (st : State) :
  NoDup l →
  let due := filter (λ r, qr st ≤ readyCount (sigs_of r st) ∧ r ∉ m_deliveredMessages st) l in
  let st' := fold_left (deliverReady conflictSet) l st in
  events st'
  = events st ++ ((λ r, Deliver (payload_at default_message r st) conflictSet
                                (validSignatures st)) <$> due)
  ∧ m_deliveredMessages st' = list_to_set due ∪ m_deliveredMessages st
  ∧ deliver_only st st'.
Proof.
  revert st. induction l as [|r l IH]; intros st Hnd; simpl.
  { rewrite app_nil_r. split; [done|]. split; [|by repeat split].
    by rewrite (left_id_L ∅ (∪)). }
  apply NoDup_cons in Hnd as [Hr Hnd].
  destruct (deliverReady_step conflictSet st r) as ((Hs & Hv & Hq & Hp) & Hyes & Hno).
  destruct (IH (deliverReady conflictSet st r) Hnd) as (He & Hd & (Hs' & Hv' & Hq' & Hp')).
  assert (Hmk : ∀ r', Deliver (payload_at default_message r' (deliverReady conflictSet st r))
                        conflictSet (validSignatures (deliverReady conflictSet st r))
                      = Deliver (payload_at default_message r' st) conflictSet
                                (validSignatures st)).
  { intros r'. unfold validSignatures. by rewrite Hp, Hv. }
  assert (Hdo : deliver_only st (fold_left (deliverReady conflictSet) l
                                           (deliverReady conflictSet st r))).
  { split; [congruence|]. split; [congruence|]. split; [congruence|].
    intros r'. by rewrite Hp', Hp. }
  rewrite filter_cons.
  destruct (decide (qr st ≤ readyCount (sigs_of r st) ∧ r ∉ m_deliveredMessages st))
    as [Hdue|Hdue].
  - destruct (Hyes Hdue) as [He1 Hd1].
    assert (Hf : filter (λ r', qr (deliverReady conflictSet st r)
                               ≤ readyCount (sigs_of r' (deliverReady conflictSet st r))
                             ∧ r' ∉ m_deliveredMessages (deliverReady conflictSet st r)) l
                 = filter (λ r', qr st ≤ readyCount (sigs_of r' st)
                                 ∧ r' ∉ m_deliveredMessages st) l).
    { apply filter_ext_in. intros r' Hr'. unfold sigs_of. rewrite Hs, Hq, Hd1.
      assert (r' ≠ r) by (intros ->; done).
      rewrite elem_of_union, elem_of_singleton.
      split; intros [Ha Hx]; (split; [done|]); intros Hb; apply Hx;
        [by right | by destruct Hb]. }
    rewrite Hf in He, Hd. split; [|split; [|exact Hdo]].
    + rewrite He, He1, fmap_cons, <- app_assoc. simpl. f_equal. f_equal.
      apply list_fmap_ext. intros ? r' _. apply Hmk.
    + rewrite Hd, Hd1, list_to_set_cons. by rewrite (assoc_L (∪)), (comm_L (∪) _ {[r]}).
  - destruct (Hno Hdue) as [He1 Hd1].
    assert (Hf : filter (λ r', qr (deliverReady conflictSet st r)
                               ≤ readyCount (sigs_of r' (deliverReady conflictSet st r))
                             ∧ r' ∉ m_deliveredMessages (deliverReady conflictSet st r)) l
                 = filter (λ r', qr st ≤ readyCount (sigs_of r' st)
                                 ∧ r' ∉ m_deliveredMessages st) l).
    { apply filter_ext_in. intros r' Hr'. unfold sigs_of. by rewrite Hs, Hq, Hd1. }
    rewrite Hf in He, Hd. split; [|split; [|exact Hdo]].
    + rewrite He, He1. f_equal. apply list_fmap_ext. intros ? r' _. apply Hmk.
    + by rewrite Hd, Hd1.
Qed.

Lemma sub32_small a b : b ≤ a → a < 2 ^ 32 → sub32 a b = a - b.
Proof.
  intros Hb Ha. unfold sub32.
  rewrite (N.mod_small a), (N.mod_small b) by lia.
  replace (a + 2 ^ 32 - b) with (a - b + 1 * 2 ^ 32) by lia.
  rewrite N.Div0.mod_add. apply N.mod_small. lia.
Qed.

Lemma add32_small a b : a + b < 2 ^ 32 → add32 a b = a + b.
Proof. intros. unfold add32. by apply N.mod_small. Qed.

Lemma mul32_small a b : a * b < 2 ^ 32 → mul32 a b = a * b.
Proof. intros. unfold mul32. by apply N.mod_small. Qed.

(** The parameters that [newEpoch] sets for [k = 1]. *)
Lemma newEpoch_parameters state (st0 : State) :
  k st0 = 1 →
  0 < N.of_nat (length (MLSState.getMembersIdentity state false)) < 2 ^ 32 →
  let st := newEpoch state st0 in
  k st = 1
  ∧ n st = N.of_nat (length (MLSState.getMembersIdentity state false))
  ∧ t st = (n st - 1) / 5
  ∧ qw st = 4 * t st + 1
  ∧ qr st = n st - t st.
Proof.
  intros Hk Hn. unfold newEpoch. simpl. rewrite Hk.
  set (members := N.of_nat (length (MLSState.getMembersIdentity state false))) in *.
  rewrite (N.mod_small members) by lia.
  rewrite (sub32_small members 1) by lia.
  assert (Ht : (members - 1) / 5 ≤ members - 1) by (apply N.Div0.div_le_upper_bound; lia).
  assert (Ht5 : 5 * ((members - 1) / 5) ≤ members - 1) by (apply N.Div0.mul_div_le).
  rewrite (mul32_small 4) by lia.
  rewrite add32_small by lia.
  rewrite sub32_small by lia.
  done.
Qed.

Lemma signReady_ready_only (st : State) :
  ready_only st
    (fold_left signReady
       (filter (λ r, index (m_state st) ∉ signedReady (sigs_of r st))
               (messagesWithEnoughWitness st)) st).
Proof.
  apply signReady_fold. intros r Hr.
  apply list_elem_of_filter in Hr as [_ Hr].
  unfold messagesWithEnoughWitness in Hr.
  apply list_elem_of_filter in Hr as [_ Hr]. by apply elem_of_sorted_keys.
Qed.

Lemma receivedReady_run (st : State) :
  messagesWithEnoughWitness st ≠ [] →
  receivedReady st
  = fold_left (deliverReady (conflictSetOf st)) (conflictSetOf st)
      (fold_left signReady
         (filter (λ r, index (m_state st) ∉ signedReady (sigs_of r st))
                 (messagesWithEnoughWitness st)) st).
Proof.
  intros Hne. unfold CAC.receivedReady.
  destruct (messagesWithEnoughWitness st) as [|r0 l] eqn:E; [done|].
  rewrite <- E.
  rewrite emitReady_fold by apply NoDup_messagesWithEnoughWitness.
  by rewrite (conflictSetOf_ready_only st _ (signReady_ready_only st)).
Qed.

(** C2, as amended.  With the parameters that [newEpoch] sets for [k = 1],
    [receivedReady] does nothing when no reference has [qw] witness
    signatures.  Otherwise it signs and broadcasts READY for exactly the
    references with at least [qw] witnesses that self has not signed READY
    for; the conflict set is exactly the set of references with at least [k]
    witnesses; and every reference of the conflict set that then has at least
    [qr] READY signers and is not in [m_deliveredMessages] is recorded there
    and handed to the deliver callback with its payload, that conflict set
    and all valid signatures; these are the only deliveries.  A reference
    that had [qr] READY signers before the call is among them. *)
Theorem receivedReady_delivers_on_witness_quorum (st : State) :
  let ready := messagesWithEnoughWitness st in
  let st1 :=
    fold_left signReady
              (filter (λ r, index (m_state st) ∉ signedReady (sigs_of r st)) ready) st in
  let conflictSet := conflictSetOf st in
  let due :=
    filter (λ r, qr st ≤ readyCount (sigs_of r st1) ∧ r ∉ m_deliveredMessages st)
           conflictSet in
  (∀ state (st0 : State),
     k st0 = 1 →
     0 < N.of_nat (length (MLSState.getMembersIdentity state false)) < 2 ^ 32 →
     let st' := newEpoch state st0 in
     k st' = 1
     ∧ n st' = N.of_nat (length (MLSState.getMembersIdentity state false))
     ∧ t st' = (n st' - 1) / 5 ∧ qw st' = 4 * t st' + 1 ∧ qr st' = n st' - t st')
  ∧ (∀ r, r ∈ ready
          ↔ is_Some (m_signaturesCount st !! r) ∧ qw st ≤ witnessCount (sigs_of r st))
  ∧ (∀ r, r ∈ conflictSet
          ↔ is_Some (m_signaturesCount st !! r) ∧ k st ≤ witnessCount (sigs_of r st))
  ∧ (ready = [] → receivedReady st = st)
  ∧ (ready ≠ [] →
       events (receivedReady st)
       = events st1 ++ ((λ r, Deliver (payload_at default_message r st) conflictSet
                                      (validSignatures st1)) <$> due)
       ∧ m_deliveredMessages (receivedReady st) = list_to_set due ∪ m_deliveredMessages st
       ∧ ∀ r, r ∈ conflictSet → qr st ≤ readyCount (sigs_of r st) →
              r ∉ m_deliveredMessages st → r ∈ due).
Proof.
  intros ready st1 conflictSet due.
  split; [intros state st0; apply newEpoch_parameters|].
  split.
  { intros r. unfold ready, messagesWithEnoughWitness.
    rewrite list_elem_of_filter, elem_of_sorted_keys.
    split; intros [? ?]; done. }
  split; [apply elem_of_conflictSetOf|].
  split.
  { intros Hr. unfold CAC.receivedReady. fold ready. by rewrite Hr. }
  intros Hne.
  pose proof (signReady_ready_only st) as Hro. fold ready st1 in Hro.
  pose proof (receivedReady_run st Hne) as Hrun. fold ready st1 conflictSet in Hrun.
  destruct Hro as ((_ & _ & _ & _ & _ & Hqr & Hdel) & Hmsg & _ & _ & Hrd).
  destruct (deliverReady_fold conflictSet conflictSet st1 (NoDup_conflictSetOf st))
    as (He & Hd & _).
  rewrite Hqr, Hdel in He, Hd. fold due in He, Hd.
  rewrite Hrun. split; [|split].
  - rewrite He. f_equal. apply list_fmap_ext. intros ? r _.
    unfold payload_at. by rewrite Hmsg.
  - exact Hd.
  - intros r Hr Hq Hn. unfold due. apply list_elem_of_filter.
    split; [|done]. split; [|done].
    etrans; [exact Hq|]. unfold readyCount.
    pose proof (subseteq_size _ _ (Hrd r)). lia.
Qed.
End CAC.

Import CACScenario.

Lemma receivedReady_delivers_on_witness_quorum_witness :
  events (receivedReady default_payload ready_quorum)
  = events ready_quorum ++ [Deliver 7 [ref_of 7] (validSignatures ready_quorum)]
  ∧ m_deliveredMessages (receivedReady default_payload ready_quorum) = {[ref_of 7]}.
Proof.
  destruct (receivedReady_delivers_on_witness_quorum default_payload ready_quorum)
    as (_ & _ & _ & _ & Hrun).
  destruct Hrun as (He & Hd & _); [vm_compute; discriminate|].
  split; [rewrite He | rewrite Hd]; vm_compute; reflexivity.
Defined.

(** C2 as stated fails in [after_readies_state], reached from a fresh epoch
    of a six-member group by receiving one READY message: the reference has
    one witness, so it is in the conflict set for [k = 1]; it has [qr = 5]
    READY signers and is not in [m_deliveredMessages]; but no reference has
    [qw = 5] witnesses, and processing the READY message delivered nothing,
    nor does a further run of [receivedReady]. *)
Lemma ready_quorum_without_witness_quorum_is_not_delivered :
  snd after_readies = false
  ∧ k after_readies_state = 1
  ∧ n after_readies_state = 6
  ∧ t after_readies_state = 1
  ∧ qw after_readies_state = 5
  ∧ qr after_readies_state = 5
  ∧ conflictSetOf after_readies_state = [ref_of 7]
  ∧ witnessCount (sigs_of (ref_of 7) after_readies_state) = 1
  ∧ readyCount (sigs_of (ref_of 7) after_readies_state) = 5
  ∧ m_deliveredMessages after_readies_state = ∅
  ∧ events after_readies_state = []
  ∧ receivedReady default_payload after_readies_state = after_readies_state.
Proof. evaluate. Qed.


End CACProofs.

(** ** Restrained consensus *)

Module RCProofs.
Import RC.

Section RC.
Context `{MLSLibrary}.
Variable unmarshal_pairs : bytes → option (list (LeafIndex * MessageRef)).

#[local] Abbreviation checkSigSet := (checkSigSet unmarshal_pairs).
#[local] Abbreviation handleRestrainedCons := (handleRestrainedCons unmarshal_pairs).

#[local] Abbreviation parsed := (parsed unmarshal_pairs).
#[local] Abbreviation invalid_entry := (invalid_entry unmarshal_pairs).

(** The loop over [sigSet] refuses exactly the vectors with an invalid entry:
    the sender of an entry plays no part, since the loop compares the sender
    of the first entry with itself. *)
Lemma checkSigSet_none state first sigSet signedSet :
  checkSigSet state first (leaf_of first) sigSet signedSet = None
  ↔ Exists (invalid_entry state) sigSet.
Proof.
  revert signedSet. induction sigSet as [|sig sigSet IH]; intros signedSet; simpl.
  - split; [discriminate | intros Hx; inversion Hx].
  - rewrite N.eqb_refl. simpl. rewrite orb_false_r, Exists_cons.
    unfold RC.invalid_entry at 1, RC.parsed.
    destruct (MLSOps.verify state sig); simpl; [|split; [by left; left | done]].
    destruct (from_member sig); simpl; [|split; [by left; right; left | done]].
    destruct (ac_content sig) as [data| |]; simpl;
      [|split; [by left; right; right | done] ..].
    destruct (unmarshal_pairs data) as [signedContent|]; simpl;
      [|split; [by left; right; right | done]].
    rewrite IH. split; [by right|].
    intros [[?|[?|?]]|?]; done.
Qed.

Lemma bottom_signed (st : State) : m_signed (bottom st) = m_signed st.
Proof.
  unfold bottom. destruct (m_hasFinished st); [done|].
  unfold resetTimeout. simpl. by destruct (m_timeout st).
Qed.

Lemma bottom_events (st : State) :
  m_hasFinished st = false →
  ∃ earlier, events (bottom st) = earlier ++ [Bottom].
Proof.
  intros Hf. unfold bottom. rewrite Hf. unfold log. simpl. eauto.
Qed.

(** The part of C3 that the source implements: a RESTRAINED_CONS message with
    an entry that fails verification or does not parse ends the instance with
    bottom (unless decoding a proof raised first), and none of its signed
    subsets is recorded. *)
Lemma handleRestrainedCons_invalid_entry content (st : State) :
  Exists (invalid_entry (m_state st)) (sigSet content) →
  handleRestrainedCons content st = (st, true)
  ∨ handleRestrainedCons content st = (bottom st, false).
Proof.
  intros Hinv. unfold RC.handleRestrainedCons.
  destruct (convertProofs (m_state st) (proofs content)) as [[proofs|]|];
    [|by right|by left].
  case_bool_decide; [by right|].
  destruct (sigSet content) as [|first rest] eqn:Hs; [by right|].
  destruct (from_member first); [|by right].
  rewrite ?Hs in Hinv.
  apply (checkSigSet_none (m_state st) first (first :: rest) ∅) in Hinv.
  rewrite Hinv. by right.
Qed.

End RC.

Import RCScenario.

(** C3 on the failing input [mixed_senders]: member 0 has proposed; the
    message carries an entry signed by member 1 followed by an entry signed
    by member 2 for the full conflict set.  Both entries are group members'
    with different leaf indices, verify and parse.  The instance does not
    end with bottom: it records the entry of member 2 as signed by member 1
    and decides on the two commits with the signatures of members 0 and 2. *)
Lemma mixed_senders_are_accepted :
  leaf_of <$> sigSet mixed_senders = [1; 2]
  ∧ forallb (MLSOps.verify (m_state proposed)) (sigSet mixed_senders) = true
  ∧ RC.parsed ReferenceLibrary.decode_pairs <$> sigSet mixed_senders
    = [Some [(1, 1001)]; Some [(1, 1001); (0, 1000)]]
  ∧ m_hasFinished proposed = false
  ∧ snd after_mixed_senders = false
  ∧ events (fst after_mixed_senders)
    = events proposed
      ++ [UnregisterTimeout 1;
          Decide [1001; 1000]
                 [signed_by 0 [(1, 1001); (0, 1000)]; signed_by 2 [(1, 1001); (0, 1000)]]
                 []]
  ∧ m_signed (fst after_mixed_senders) !! ({[(0, 1000); (1, 1001)]} : gset (N * N))
    = Some {[0 := signed_by 0 [(1, 1001); (0, 1000)];
             1 := signed_by 2 [(1, 1001); (0, 1000)]]}.
Proof. evaluate. Qed.

End RCProofs.

(** ** Full consensus *)

Module FCProofs.
Import FC.

Section FC.
Context `{MLSLibrary}.
Context {T : Type}.
Variable default_value : T.

#[local] Abbreviation State := (State T).
#[local] Abbreviation handleCommit := (handleCommit default_value).
#[local] Abbreviation value_at := (value_at default_value).

Lemma handleCommit_spec sender content (st : State) :
  let r := consensusMessage content in
  let st' := handleCommit sender content st in
  signers r st' = {[sender]} ∪ signers r st
  ∧ (∀ r', r' ≠ r → signers r' st' = signers r' st)
  ∧ (∀ r', value_at r' st' = value_at r' st)
  ∧ f st' = f st
  ∧ m_currentView st' = m_currentView st
  ∧ m_state st' = m_state st
  ∧ (quorum st ≤ N.of_nat (size ({[sender]} ∪ signers r st)) →
       events st' = events st ++ [Deliver (value_at r st)])
  ∧ (N.of_nat (size ({[sender]} ∪ signers r st)) < quorum st → events st' = events st).
Proof.
  intros r st'. subst st'. unfold FC.handleCommit. fold r.
  change (quorum (mkState (m_state st) (f st) (m_currentView st) (m_futureMessages st)
                          (<[r := {[sender]} ∪ signers r st]> (m_signedCommit st))
                          (m_messages st) (events st)))
    with (quorum st).
  destruct (quorum st <=? N.of_nat (size ({[sender]} ∪ signers r st))) eqn:Hq.
  - apply N.leb_le in Hq. unfold subscript, FC.value_at, signers. simpl.
    destruct (m_messages st !! r) as [value|] eqn:Hv; simpl.
    + rewrite lookup_insert_eq. simpl.
      split; [done|]. split; [by intros r' Hr'; rewrite lookup_insert_ne|].
      do 5 (split; [done|]). intros; unfold signers in *; lia.
    + rewrite lookup_insert_eq. simpl.
      split; [done|]. split; [by intros r' Hr'; rewrite lookup_insert_ne|].
      split.
      { intros r'. destruct (decide (r' = r)) as [->|Hne].
        - by rewrite lookup_insert_eq, Hv.
        - by rewrite lookup_insert_ne. }
      do 4 (split; [done|]). intros; unfold signers in *; lia.
  - apply N.leb_gt in Hq. unfold signers. simpl.
    rewrite lookup_insert_eq. simpl.
    split; [done|]. split; [by intros r' Hr'; rewrite lookup_insert_ne|].
    do 4 (split; [done|]). split; [intros; unfold signers in *; lia | done].
Qed.

Lemma quorum_unfold (st st' : State) : f st' = f st → quorum st' = quorum st.
Proof. unfold quorum. by intros ->. Qed.

(** Once the quorum is reached for a reference, each further [handleCommit]
    for it calls the deliver callback. *)
Lemma handleCommit_repeats (senders : list LeafIndex) view r (st : State) :
  quorum st ≤ N.of_nat (size (signers r st)) →
  events (fold_left (λ st sender, handleCommit sender (mkContent view r) st) senders st)
  = events st ++ replicate (length senders) (Deliver (value_at r st)).
Proof.
  revert st. induction senders as [|sender senders IH]; intros st Hq; simpl.
  { by rewrite app_nil_r. }
  destruct (handleCommit_spec sender (mkContent view r) st)
    as (Hs & _ & Hv & Hf & _ & _ & He & _).
  simpl in *.
  assert (Hsize : N.of_nat (size (signers r st))
                  ≤ N.of_nat (size ({[sender]} ∪ signers r st))).
  { pose proof (subseteq_size (signers r st) ({[sender]} ∪ signers r st)
                              (union_subseteq_r _ _)). lia. }
  rewrite IH.
  - rewrite He by lia. rewrite Hv, <- app_assoc. done.
  - rewrite (quorum_unfold st _ Hf), Hs. lia.
Qed.


End FC.
End FCProofs.

(** ** Gossip broadcast *)

Module GossipProofs.
Import Gossip.

(** *** The order on identities *)

Lemma bytes_leb_refl a : bytes_leb a a = true.
Proof.
  induction a as [|x a IH]; simpl; [done|].
  by rewrite N.eqb_refl, IH, orb_true_r.
Qed.

Lemma bytes_leb_total a b : bytes_leb a b = true ∨ bytes_leb b a = true.
Proof.
  revert b. induction a as [|x a IH]; intros [|y b]; simpl; auto.
  destruct (N.lt_trichotomy x y) as [Hlt|[->|Hgt]].
  - left. apply N.ltb_lt in Hlt. by rewrite Hlt.
  - rewrite N.ltb_irrefl, N.eqb_refl. simpl. apply IH.
  - right. apply N.ltb_lt in Hgt. by rewrite Hgt.
Qed.

Lemma bytes_leb_cons x a y b :
  bytes_leb (x :: a) (y :: b) = true ↔ x < y ∨ (x = y ∧ bytes_leb a b = true).
Proof.
  simpl. rewrite orb_true_iff, andb_true_iff, N.ltb_lt, N.eqb_eq. done.
Qed.

Lemma bytes_leb_trans a b c :
  bytes_leb a b = true → bytes_leb b c = true → bytes_leb a c = true.
Proof.
  revert b c. induction a as [|x a IH]; intros [|y b] [|z c]; try done.
  rewrite !bytes_leb_cons. intros [?|[-> ?]] [?|[-> ?]].
  - left. lia.
  - by left.
  - by left.
  - right. split; [done|]. eauto.
Qed.

Lemma bytes_leb_antisym a b :
  bytes_leb a b = true → bytes_leb b a = true → a = b.
Proof.
  revert b. induction a as [|x a IH]; intros [|y b]; try done.
  rewrite !bytes_leb_cons. intros [?|[-> ?]] [?|[? ?]]; try lia.
  f_equal. by apply IH.
Qed.

#[local] Instance bytes_le_total : Total bytes_le.
Proof. intros a b. apply bytes_leb_total. Qed.

#[local] Instance bytes_le_trans : Transitive bytes_le.
Proof. intros a b c. apply bytes_leb_trans. Qed.

(** The strict order. *)

Lemma bytes_lt_le a b : bytes_lt a b ↔ bytes_le a b ∧ a ≠ b.
Proof.
  unfold bytes_lt, bytes_ltb, bytes_le. rewrite negb_true_iff. split.
  - intros Hba. split.
    + destruct (bytes_leb_total a b) as [?|Hc]; [done | congruence].
    + intros ->. by rewrite bytes_leb_refl in Hba.
  - intros [Hab Hne]. destruct (bytes_leb b a) eqn:Hba; [|done].
    destruct Hne. by apply bytes_leb_antisym.
Qed.

Lemma bytes_lt_irrefl a : ¬ bytes_lt a a.
Proof. rewrite bytes_lt_le. by intros [_ ?]. Qed.

Lemma bytes_lt_trans a b c : bytes_lt a b → bytes_lt b c → bytes_lt a c.
Proof.
  rewrite !bytes_lt_le. intros [Hab Hne] [Hbc Hne']. split.
  - by etrans.
  - intros ->. apply Hne. by apply bytes_leb_antisym.
Qed.

Lemma bytes_lt_asym a b : bytes_lt a b → ¬ bytes_lt b a.
Proof. intros H1 H2. apply (bytes_lt_irrefl a). by eapply bytes_lt_trans. Qed.

Lemma bytes_ltb_neither a b : bytes_ltb a b = false → bytes_ltb b a = false → a = b.
Proof.
  unfold bytes_ltb. rewrite !negb_false_iff. intros. by apply bytes_leb_antisym.
Qed.

(** A set is iterated in strictly increasing order. *)
Lemma sorted_ids_sorted (s : gset bytes) : StronglySorted bytes_lt (sorted_ids s).
Proof.
  unfold sorted_ids.
  assert (Hs : StronglySorted bytes_le (merge_sort bytes_le (elements s)))
    by apply (StronglySorted_merge_sort _).
  assert (Hn : NoDup (merge_sort bytes_le (elements s))).
  { rewrite merge_sort_Permutation. apply NoDup_elements. }
  induction Hs as [|x l Hl IH Hx]; [constructor|].
  apply NoDup_cons in Hn as [Hnx Hn].
  constructor; [by apply IH|].
  apply Forall_forall. intros y Hy. apply bytes_lt_le. split.
  - by apply (proj1 (Forall_forall _ _) Hx).
  - intros ->. done.
Qed.

Lemma elem_of_sorted_ids (s : gset bytes) x : x ∈ sorted_ids s ↔ x ∈ s.
Proof. unfold sorted_ids. rewrite merge_sort_Permutation. apply elem_of_elements. Qed.

Lemma NoDup_sorted_ids (s : gset bytes) : NoDup (sorted_ids s).
Proof. unfold sorted_ids. rewrite merge_sort_Permutation. apply NoDup_elements. Qed.

Lemma length_sorted_ids (s : gset bytes) : length (sorted_ids s) = size s.
Proof. unfold sorted_ids. by rewrite merge_sort_Permutation. Qed.

Lemma list_to_set_sorted_ids (s : gset bytes) : list_to_set (sorted_ids s) = s.
Proof.
  apply set_eq. intros x. by rewrite elem_of_list_to_set, elem_of_sorted_ids.
Qed.

Lemma StronglySorted_lt_NoDup (l : list bytes) : StronglySorted bytes_lt l → NoDup l.
Proof.
  induction 1 as [|x l Hl IH Hx]; constructor; [|done].
  intros Hin. apply (bytes_lt_irrefl x).
  by apply (proj1 (Forall_forall _ _) Hx).
Qed.

(** *** [std::set_difference] *)

Lemma set_difference_unfold x l1 y l2 :
  set_difference (x :: l1) (y :: l2)
  = if bytes_ltb x y then x :: set_difference l1 (y :: l2)
    else if bytes_ltb y x then set_difference (x :: l1) l2
    else set_difference l1 l2.
Proof. reflexivity. Qed.

Lemma set_difference_nil_r l1 : set_difference l1 [] = l1.
Proof. by destruct l1. Qed.

(** Whatever the order of the ranges, the output is taken from the first. *)
Lemma set_difference_subseteq l1 l2 x : x ∈ set_difference l1 l2 → x ∈ l1.
Proof.
  revert l2. induction l1 as [|a l1 IH1]; intros l2; [by destruct l2|].
  induction l2 as [|b l2 IH2]; [by rewrite set_difference_nil_r|].
  rewrite set_difference_unfold.
  destruct (bytes_ltb a b).
  - rewrite !elem_of_cons. intros [->|?]; [by left | right; eauto].
  - destruct (bytes_ltb b a); [done|].
    intros ?. right. eauto.
Qed.

(** On sorted ranges the output is the difference. *)
Lemma elem_of_set_difference l1 l2 x :
  StronglySorted bytes_lt l1 → StronglySorted bytes_lt l2 →
  x ∈ set_difference l1 l2 ↔ x ∈ l1 ∧ x ∉ l2.
Proof.
  intros H1. revert l2. induction H1 as [|a l1 Hs1 IH1 Ha]; intros l2 H2.
  { assert (Hnil : set_difference [] l2 = []) by by destruct l2.
    rewrite Hnil. split; [intros Hx; inversion Hx | intros [Hx _]; inversion Hx]. }
  induction H2 as [|b l2 Hs2 IH2 Hb].
  { rewrite set_difference_nil_r. split.
    - intros ?. split; [done|]. intros Hx. inversion Hx.
    - by intros [? _]. }
  assert (Hsl2 : StronglySorted bytes_lt (b :: l2)) by by constructor.
  rewrite Forall_forall in Ha, Hb.
  rewrite set_difference_unfold.
  destruct (bytes_ltb a b) eqn:Hab; [|destruct (bytes_ltb b a) eqn:Hba].
  - rewrite elem_of_cons, (IH1 _ Hsl2), !elem_of_cons. split.
    + intros [->|[Hx Hn]].
      * split; [by left|]. intros [->|Hin].
        -- by apply (bytes_lt_irrefl b).
        -- apply (bytes_lt_asym a b Hab). by apply Hb.
      * split; [by right | done].
    + intros [[->|Hx] Hn]; [by left | right; done].
  - rewrite IH2, !elem_of_cons. split.
    + intros [Hx Hn]. split; [done|]. intros [->|Hin]; [|done].
      destruct Hx as [->|Hx].
      * by apply (bytes_lt_irrefl a).
      * apply (bytes_lt_asym b a Hba). by apply Ha.
    + intros [Hx Hn]. split; [done|]. intros Hin. apply Hn. by right.
  - pose proof (bytes_ltb_neither a b Hab Hba) as ->.
    rewrite (IH1 _ Hs2), !elem_of_cons. split.
    + intros [Hx Hn]. split; [by right|]. intros [->|Hin]; [|done].
      by apply (bytes_lt_irrefl b), Ha.
    + intros [[->|Hx] Hn].
      * destruct Hn. by left.
      * split; [done|]. intros Hin. apply Hn. by right.
Qed.

(** *** Sets of identities *)

Lemma union_insert_swap (X Y : gset bytes) (a : bytes) :
  X ∪ ({[a]} ∪ Y) = {[a]} ∪ X ∪ Y.
Proof. set_solver. Qed.

Lemma difference_insert (X Y : gset bytes) (a : bytes) :
  X ∖ {[a]} ∖ Y = X ∖ ({[a]} ∪ Y).
Proof. set_solver. Qed.

Lemma difference_insert_absent (X Y : gset bytes) (a : bytes) :
  a ∉ X → X ∖ Y = X ∖ ({[a]} ∪ Y).
Proof. set_solver. Qed.

Lemma union_difference_cancel (X Y : gset bytes) : X ## Y → (X ∪ Y) ∖ Y = X.
Proof. set_solver. Qed.

Lemma size_cover (members D S : gset bytes) :
  (∀ x, x ∈ members → x ∈ D ∨ x ∈ S) → (size members ≤ size D + size S)%nat.
Proof.
  intros Hc. etrans; [apply (subseteq_size members (D ∪ S))|].
  - intros x Hx. apply elem_of_union. by apply Hc.
  - rewrite size_union_alt.
    pose proof (subseteq_size (S ∖ D) S (subseteq_difference_l _ _ _ (reflexivity S))).
    lia.
Qed.

(** *** Reception *)

Section Reception.
Context {MLSMessage : Type}.
Variable ref : MLSMessage → MessageRef.
Variable marshal_gossip : MLSMessage → bytes.

#[local] Abbreviation State := (State MLSMessage).
#[local] Abbreviation receiveMessage := (receiveMessage ref marshal_gossip).
#[local] Abbreviation delivered_refs := (delivered_refs ref).

Lemma receive_new (m : MLSMessage) (st : State) :
  m_received st !! ref m = None →
  receiveMessage (Gossip m) st
  = mkState (m_selfId st) (m_computedSample st) (m_idsSample st)
            (<[ref m := marshal_gossip m]> (m_received st))
            (events st ++ [BroadcastSample (m_computedSample st) (marshal_gossip m);
                           Deliver m]).
Proof.
  intros Hn. unfold Gossip.receiveMessage, dispatchMessage, CAC.insert_new.
  rewrite bool_decide_false by (rewrite Hn; by intros [? ?]).
  by rewrite Hn.
Qed.

Lemma receive_known (m : MLSMessage) (st : State) :
  is_Some (m_received st !! ref m) → receiveMessage (Gossip m) st = st.
Proof.
  intros Hs. unfold Gossip.receiveMessage. by rewrite bool_decide_true.
Qed.

Lemma delivered_refs_app (st : State) (es : list (Event MLSMessage)) :
  omap (λ e, match e with Deliver msg => Some (ref msg) | _ => None end) (events st ++ es)
  = delivered_refs st
    ++ omap (λ e, match e with Deliver msg => Some (ref msg) | _ => None end) es.
Proof. apply omap_app. Qed.

(** One reception: the references delivered and recorded by it. *)
Lemma receive_step (msg : GossipBcastMessage MLSMessage) (st : State) :
  let st' := receiveMessage msg st in
  (delivered_refs st' = delivered_refs st ∧ m_received st' = m_received st)
  ∨ (∃ m, m_received st !! ref m = None
          ∧ delivered_refs st' = delivered_refs st ++ [ref m]
          ∧ m_received st' = <[ref m := marshal_gossip m]> (m_received st)).
Proof.
  destruct msg as [id|m]; simpl.
  - left. case_bool_decide; [done|]. split; [|done].
    unfold Gossip.delivered_refs. simpl. rewrite omap_app.
    assert (Hnone : omap (λ e : Event MLSMessage,
                            match e with Deliver msg => Some (ref msg) | _ => None end)
                         (Send id <$> sorted_values (m_received st)) = []).
    { induction (sorted_values (m_received st)) as [|b l IH]; [done|]. simpl. exact IH. }
    by rewrite Hnone, app_nil_r.
  - case_bool_decide as Hk; [by left|]. right. exists m.
    assert (Hn : m_received st !! ref m = None).
    { destruct (m_received st !! ref m) eqn:E; [|done]. destruct Hk. by eexists. }
    split; [done|]. unfold dispatchMessage, CAC.insert_new. rewrite Hn.
    split; [|done]. unfold Gossip.delivered_refs. simpl. by rewrite omap_app.
Qed.

(** Over any sequence of receptions between two epoch changes, no reference
    is delivered twice, and none that was already received is delivered. *)
Lemma receive_trace (msgs : list (GossipBcastMessage MLSMessage)) (st : State) :
  ∃ added,
    delivered_refs (fold_left (λ st msg, receiveMessage msg st) msgs st)
    = delivered_refs st ++ added
    ∧ NoDup added
    ∧ ∀ r, r ∈ added → m_received st !! r = None.
Proof.
  revert st. induction msgs as [|msg msgs IH]; intros st; simpl.
  { exists []. rewrite app_nil_r. split; [done|]. split; [constructor|].
    intros r Hr. inversion Hr. }
  destruct (IH (receiveMessage msg st)) as (added & Hd & Hnd & Hnew).
  destruct (receive_step msg st) as [[Hsame Hrec]|(m & Hn & Hdel & Hrec)].
  - exists added. rewrite Hd, Hsame. split; [done|]. split; [done|].
    intros r Hr. rewrite <- Hrec. by apply Hnew.
  - exists (ref m :: added). rewrite Hd, Hdel, <- app_assoc. split; [done|].
    split.
    + constructor; [|done]. intros Hin. specialize (Hnew _ Hin).
      rewrite Hrec, lookup_insert_eq in Hnew. discriminate.
    + intros r Hr. apply elem_of_cons in Hr as [->|Hr]; [done|].
      specialize (Hnew _ Hr). rewrite Hrec in Hnew.
      destruct (decide (r = ref m)) as [->|Hne].
      * rewrite lookup_insert_eq in Hnew. discriminate.
      * by rewrite lookup_insert_ne in Hnew.
Qed.


End Reception.

(** *** Sampling *)

Section Sampling.
Context {MLSMessage : Type}.
Variable marshal_subscribe : bytes → bytes.
Variable sample : list bytes → nat → list bytes.

(** [std::sample] selects [min(count, size)] elements of the population, in
    their order. *)
Hypothesis sample_spec : ∀ population count,
  sample population count `sublist_of` population
  ∧ length (sample population count) = Nat.min count (length population).

#[local] Abbreviation State := (State MLSMessage).
#[local] Abbreviation subscribeTo := (subscribeTo marshal_subscribe).
#[local] Abbreviation selected := (selected sample).
#[local] Abbreviation updateSample := (updateSample marshal_subscribe sample).
#[local] Abbreviation newEpoch := (newEpoch marshal_subscribe sample).

#[local] Abbreviation subscriptions := (subscriptions marshal_subscribe).

Lemma subscribe_fold (l : list bytes) (st : State) :
  fold_left subscribeTo l st
  = mkState (m_selfId st) (m_computedSample st) (list_to_set l ∪ m_idsSample st)
            (m_received st) (events st ++ subscriptions st l).
Proof.
  revert st. induction l as [|a l IH]; intros st; simpl.
  - rewrite (left_id_L ∅ (∪)). unfold Gossip.subscriptions. simpl. rewrite app_nil_r.
    by destruct st.
  - rewrite IH. unfold Gossip.subscribeTo, Gossip.subscriptions. simpl.
    by rewrite union_insert_swap, <- app_assoc.
Qed.

Lemma dropRemoved_fold (removed : list bytes) (st : State) (updated : bool) :
  fst (fold_left dropRemoved removed (st, updated))
  = mkState (m_selfId st) (m_computedSample st)
            (m_idsSample st ∖ list_to_set removed) (m_received st) (events st).
Proof.
  revert st updated. induction removed as [|a removed IH]; intros st updated; simpl.
  - rewrite difference_empty_L. by destruct st.
  - unfold dropRemoved at 2. simpl. case_bool_decide as Hin.
    + rewrite IH. simpl. by rewrite difference_insert.
    + destruct st as [self computed ids received evs]. simpl in *.
      rewrite IH. simpl. by rewrite <- difference_insert_absent.
Qed.

Lemma elem_of_candidates (members : list bytes) (st : State) x :
  StronglySorted bytes_lt members →
  x ∈ candidates members st ↔ x ∈ members ∧ x ∉ m_idsSample st.
Proof.
  intros Hs. unfold candidates.
  rewrite elem_of_list_to_set, (elem_of_set_difference _ _ _ Hs (sorted_ids_sorted _)).
  by rewrite elem_of_sorted_ids.
Qed.

Lemma selected_spec (members : list bytes) (st : State) :
  selected members st ⊆ candidates members st
  ∧ size (selected members st)
    = Nat.min (size (candidates members st))
              (expectedMin (length members) - size (m_idsSample st)).
Proof using Type*.
  unfold Gossip.selected.
  set (D := candidates members st).
  set (count := Nat.min (size D) (expectedMin (length members) - size (m_idsSample st))).
  destruct (sample_spec (sorted_ids D) count) as [Hsub Hlen].
  split.
  - intros x Hx. apply elem_of_list_to_set in Hx.
    apply (elem_of_sorted_ids D). by eapply elem_of_sublist.
  - rewrite size_list_to_set by (eapply sublist_NoDup; [apply NoDup_sorted_ids | done]).
    rewrite Hlen, length_sorted_ids. subst count. lia.
Qed.

(** [updateSample] on a sorted member list. *)
Lemma updateSample_spec (state : ExtendedMLSState) (st : State) :
  let members := MLSState.getMembersIdentity state true in
  let st' := fst (updateSample state st) in
  StronglySorted bytes_lt members →
  ∃ new : gset bytes,
    new ⊆ list_to_set members
    ∧ new ## m_idsSample st
    ∧ st' = mkState (m_selfId st) (m_computedSample st) (new ∪ m_idsSample st)
                    (m_received st) (events st ++ subscriptions st (sorted_ids new))
    ∧ (Nat.min (expectedMin (length members)) (length members) ≤ size (m_idsSample st'))%nat.
Proof using Type*.
  intros members st' Hs. subst st'. unfold Gossip.updateSample. fold members.
  destruct ((size (m_idsSample st) <? expectedMin (length members))%nat
            && (size (m_idsSample st) <? length members)%nat) eqn:Hg; simpl.
  - apply andb_true_iff in Hg as [Hg1 Hg2].
    apply Nat.ltb_lt in Hg1, Hg2.
    destruct (selected_spec members st) as [Hsub Hsize].
    exists (selected members st).
    assert (Hdisj : selected members st ## m_idsSample st).
    { intros x Hx Hin. apply Hsub in Hx.
      apply (elem_of_candidates members st x Hs) in Hx as [_ Hx]. done. }
    split.
    { intros x Hx. apply Hsub in Hx.
      apply (elem_of_candidates members st x Hs) in Hx as [Hx _].
      by apply elem_of_list_to_set. }
    split; [done|].
    rewrite subscribe_fold, list_to_set_sorted_ids. split; [done|]. simpl.
    rewrite size_union by done. rewrite Hsize.
    assert (Hcover : (size (list_to_set members : gset bytes)
                      ≤ size (candidates members st) + size (m_idsSample st))%nat).
    { apply size_cover. intros x Hx. apply elem_of_list_to_set in Hx.
      destruct (decide (x ∈ m_idsSample st)); [by right|].
      left. by apply (elem_of_candidates members st x Hs). }
    rewrite size_list_to_set in Hcover by by apply StronglySorted_lt_NoDup.
    lia.
  - exists ∅. split; [apply empty_subseteq|]. split; [apply disjoint_empty_l|].
    unfold Gossip.subscriptions.
    assert (Hnil : sorted_ids ∅ = []) by reflexivity.
    rewrite Hnil. simpl. rewrite (left_id_L ∅ (∪)), app_nil_r.
    split; [by destruct st|].
    apply andb_false_iff in Hg as [Hg|Hg]; apply Nat.ltb_ge in Hg; lia.
Qed.


End Sampling.

Import GossipScenario.

Lemma first_candidates_spec (population : list bytes) (count : nat) :
  first_candidates population count `sublist_of` population
  ∧ length (first_candidates population count) = Nat.min count (length population).
Proof. split; [apply sublist_take | apply length_take]. Qed.



(** [std::set_difference] expects sorted ranges and the member list is in
    leaf order.  On a tree whose identities do not increase with the leaf
    index, a peer of the sample set is among the candidates and receives a
    second SUBSCRIBE. *)
Lemma unsorted_members_are_subscribed_again :
  MLSState.getMembersIdentity unsorted_group true = [[5]; [1]]
  ∧ sorted_ids (m_idsSample subscribed_to_1) = [[1]]
  ∧ sorted_ids (candidates (MLSState.getMembersIdentity unsorted_group true)
                           subscribed_to_1)
    = [[1]; [5]]
  ∧ events after_unsorted
    = [Send [1] (subscribe_message [0]); Send [5] (subscribe_message [0])].
Proof. evaluate. Qed.

End GossipProofs.

(** ** The delivery-service engine *)

Module DDSProofs.
Import DDS.

Section Engine.
Context {MLSMessage CascadeConsensusMessage Welcome : Type}.
Variable epoch_of : MLSMessage → Epoch.
Variable proposal_content : ExtendedMLSState → MLSMessage → option N.
Variable application_content : ExtendedMLSState → MLSMessage → option bytes.
Variable unmarshal_cascade : bytes → option CascadeConsensusMessage.
Variable cascade :
  list (Event MLSMessage CascadeConsensusMessage Welcome) → list (Upcall MLSMessage).
Variable upcall :
  Upcall MLSMessage → State MLSMessage CascadeConsensusMessage Welcome
  → Run MLSMessage CascadeConsensusMessage Welcome.

#[local] Abbreviation State := (State MLSMessage CascadeConsensusMessage Welcome).
#[local] Abbreviation Run := (Run MLSMessage CascadeConsensusMessage Welcome).
#[local] Abbreviation handleProposal :=
  (handleProposal (CascadeConsensusMessage := CascadeConsensusMessage)
                  (Welcome := Welcome) epoch_of proposal_content application_content).
#[local] Abbreviation handleGossipDelivery :=
  (handleGossipDelivery (CascadeConsensusMessage := CascadeConsensusMessage)
                        (Welcome := Welcome) epoch_of proposal_content
                        application_content).
#[local] Abbreviation handleCascadeConsensusMessage :=
  (handleCascadeConsensusMessage epoch_of application_content unmarshal_cascade
                                 cascade upcall).
#[local] Abbreviation handleCascadeConsensusReception :=
  (handleCascadeConsensusReception epoch_of application_content unmarshal_cascade
                                   cascade upcall).
#[local] Abbreviation scan := (scan epoch_of).
#[local] Abbreviation current := (current epoch_of).
#[local] Abbreviation later := (later epoch_of).

(** *** Reception *)

(** Before the member is in a group a message from the gossip layer is
    appended to [m_futureProposals] and nothing else changes; in a group the
    same holds of a message of a later epoch, a message of an earlier epoch
    changes nothing, and a message of the current epoch is handled by
    [handleProposal]. *)
Lemma handleGossipDelivery_cases (message : MLSMessage) (st : State) :
  match state st with
  | None =>
      handleGossipDelivery message st
      = Done (set_m_futureProposals (m_futureProposals st ++ [message]) st)
  | Some s =>
      (epoch s < epoch_of message →
       handleGossipDelivery message st
       = Done (set_m_futureProposals (m_futureProposals st ++ [message]) st))
      ∧ (epoch_of message < epoch s → handleGossipDelivery message st = Done st)
      ∧ (epoch_of message = epoch s →
         handleGossipDelivery message st = handleProposal message st)
  end.
Proof.
  unfold DDS.handleGossipDelivery. destruct (state st) as [s|]; [|done].
  split; [|split]; intros He.
  - destruct (N.ltb_spec (epoch_of message) (epoch s)); [lia|].
    destruct (N.ltb_spec (epoch s) (epoch_of message)); [done|lia].
  - by destruct (N.ltb_spec (epoch_of message) (epoch s)); [|lia].
  - destruct (N.ltb_spec (epoch_of message) (epoch s)); [lia|].
    destruct (N.ltb_spec (epoch s) (epoch_of message)); [lia|done].
Qed.

(** The same for a cascade-consensus envelope and
    [m_futureCascadeConsensus]. *)
Lemma handleCascadeConsensusReception_cases (message : MLSMessage) (st : State) :
  match state st with
  | None =>
      handleCascadeConsensusReception message st
      = Done (set_m_futureCascadeConsensus (m_futureCascadeConsensus st ++ [message]) st)
  | Some s =>
      (epoch s < epoch_of message →
       handleCascadeConsensusReception message st
       = Done (set_m_futureCascadeConsensus
                 (m_futureCascadeConsensus st ++ [message]) st))
      ∧ (epoch_of message < epoch s →
         handleCascadeConsensusReception message st = Done st)
      ∧ (epoch_of message = epoch s →
         handleCascadeConsensusReception message st
         = handleCascadeConsensusMessage message st)
  end.
Proof.
  unfold DDS.handleCascadeConsensusReception. destruct (state st) as [s|]; [|done].
  split; [|split]; intros He.
  - destruct (N.ltb_spec (epoch_of message) (epoch s)); [lia|].
    destruct (N.ltb_spec (epoch s) (epoch_of message)); [done|lia].
  - by destruct (N.ltb_spec (epoch_of message) (epoch s)); [|lia].
  - destruct (N.ltb_spec (epoch_of message) (epoch s)); [lia|].
    destruct (N.ltb_spec (epoch s) (epoch_of message)); [lia|done].
Qed.

(** A message that is handled is of the current epoch: the validity tests
    of the state refuse any other. *)
Lemma handleProposal_other_epoch (message : MLSMessage) (st : State) s :
  state st = Some s → epoch_of message ≠ epoch s → handleProposal message st = Done st.
Proof.
  intros Hs He. unfold DDS.handleProposal, isValidProposal, isValidApplicationMessage.
  rewrite Hs. by destruct (N.eqb_spec (epoch_of message) (epoch s)).
Qed.

End Engine.

(** *** The loops of [advanceEpoch] *)

Section Sweep.
Context {MLSMessage CascadeConsensusMessage Welcome : Type}.
Variable epoch_of : MLSMessage → Epoch.

#[local] Abbreviation State := (State MLSMessage CascadeConsensusMessage Welcome).
#[local] Abbreviation Run := (Run MLSMessage CascadeConsensusMessage Welcome).
#[local] Abbreviation current := (current epoch_of).
#[local] Abbreviation later := (later epoch_of).

(** The vector that the loop sweeps, and a handler that leaves the vector
    and the state pointer as they are and does not depend on the vector. *)
Variable get : State → list MLSMessage.
Variable set : list MLSMessage → State → State.
Variable process : MLSMessage → State → Run.
Hypothesis get_set : ∀ v st, get (set v st) = v.
Hypothesis set_get : ∀ st, set (get st) st = st.
Hypothesis set_set : ∀ v w st, set v (set w st) = set v st.
Hypothesis state_set : ∀ v st, state (set v st) = state st.
Hypothesis process_frame : ∀ message st st',
  process message st = Done st' → get st' = get st ∧ state st' = state st.
Hypothesis process_set : ∀ message v st,
  process message (set v st) = and_then (set v) (process message st).

Lemma processAll_set (l : list MLSMessage) v (st : State) :
  processAll process l (set v st) = and_then (set v) (processAll process l st).
Proof using process_set.
  revert st. induction l as [|message l IH]; intros st; simpl; [done|].
  rewrite process_set. destruct (process message st); simpl; auto.
Qed.

Lemma processAll_frame (l : list MLSMessage) (st st' : State) :
  processAll process l st = Done st' → get st' = get st ∧ state st' = state st.
Proof using process_frame.
  revert st. induction l as [|message l IH]; intros st; simpl.
  - intros [= ->]. done.
  - destruct (process message st) as [st1| | |] eqn:Hp; simpl; try done.
    intros Hl. apply IH in Hl as [-> ->]. by apply process_frame in Hp.
Qed.

Lemma sweep_end pos (st st' : State) s :
  (length (get st) ≤ pos)%nat →
  Done st = Done st'
  ↔ ∃ st1, processAll process (current (epoch s) (drop pos (get st))) st = Done st1
           ∧ st' = set (take pos (get st) ++ later (epoch s) (drop pos (get st))) st1.
Proof using set_get.
  intros Hlen. rewrite drop_ge, take_ge by done. simpl. rewrite app_nil_r. split.
  - intros [= <-]. exists st. by rewrite set_get.
  - intros (st1 & [= <-] & ->). by rewrite set_get.
Qed.

Lemma and_then_done (f : State → State) (r : Run) (P : State → Prop) :
  (∀ v st, f (set v st) = f st) → ∀ v,
  (∃ st1, and_then (set v) r = Done st1 ∧ P (f st1))
  ↔ (∃ st1, r = Done st1 ∧ P (f st1)).
Proof.
  intros Hf v. destruct r as [st| | |]; simpl; split; intros (st1 & Hr & HP);
    try discriminate.
  - injection Hr as <-. exists st. by rewrite Hf in HP.
  - injection Hr as <-. exists (set v st). by rewrite Hf.
Qed.

(** The loop returns exactly when the handler returns on each message of
    the current epoch, taken in the order of the vector; the vector then
    holds the messages of later epochs, in their order. *)
Lemma scan_sweeps steps pos (st st' : State) s :
  state st = Some s → (length (get st) ≤ pos + steps)%nat →
  scan epoch_of get set process steps pos st = Done st'
  ↔ ∃ st1, processAll process (current (epoch s) (drop pos (get st))) st = Done st1
           ∧ st' = set (take pos (get st) ++ later (epoch s) (drop pos (get st))) st1.
Proof using Type*.
  revert pos st. induction steps as [|steps IH]; intros pos st Hs Hlen; simpl.
  { apply sweep_end. lia. }
  destruct (get st !! pos) as [message|] eqn:Hl.
  2: { apply sweep_end. by apply lookup_ge_None. }
  assert (Hpos : (pos < length (get st))%nat) by (by eapply lookup_lt_Some).
  assert (Htake : take pos (delete pos (get st)) = take pos (get st)).
  { rewrite delete_take_drop. apply take_app_length'. rewrite length_take. lia. }
  assert (Hdrop : drop pos (delete pos (get st)) = drop (S pos) (get st)).
  { rewrite delete_take_drop. apply drop_app_length'. rewrite length_take. lia. }
  assert (Hdel : (length (delete pos (get st)) ≤ pos + steps)%nat).
  { rewrite length_delete by done. lia. }
  rewrite Hs, (drop_S _ _ _ Hl). unfold DDS.current, DDS.later.
  destruct (N.eqb_spec (epoch_of message) (epoch s)) as [He|He].
  - rewrite filter_cons_True by done. rewrite filter_cons_False by lia. simpl.
    destruct (process message st) as [st1| | |] eqn:Hp; simpl.
    2-4: split; [discriminate | by intros (? & ? & _)].
    destruct (process_frame _ _ _ Hp) as [Hg Hst]. rewrite Hg, Nat.eqb_refl.
    rewrite IH by (rewrite ?get_set, ?state_set; congruence).
    rewrite get_set, Htake, Hdrop, processAll_set.
    apply (and_then_done (set _) _ (λ st2, st' = st2)). apply set_set.
  - rewrite filter_cons_False by done.
    destruct (N.ltb_spec (epoch_of message) (epoch s)) as [Hlt|Hge].
    + rewrite filter_cons_False by lia.
      rewrite IH by (rewrite ?get_set, ?state_set; congruence).
      rewrite get_set, Htake, Hdrop, processAll_set.
      apply (and_then_done (set _) _ (λ st2, st' = st2)). apply set_set.
    + rewrite filter_cons_True by lia.
      rewrite IH by (done || lia).
      by rewrite (take_S_r _ _ _ Hl), <- app_assoc.
Qed.

End Sweep.

(** *** Handlers and the buffers *)

Section Handlers.
Context {MLSMessage CascadeConsensusMessage Welcome : Type}.
Variable epoch_of : MLSMessage → Epoch.
Variable marshal : MLSMessage → bytes.
Variable proposal_content : ExtendedMLSState → MLSMessage → option N.
Variable commit_content : ExtendedMLSState → MLSMessage → option (gset N).
Variable application_content : ExtendedMLSState → MLSMessage → option bytes.
Variable unmarshal_cascade : bytes → option CascadeConsensusMessage.
Variable cascade :
  list (Event MLSMessage CascadeConsensusMessage Welcome) → list (Upcall MLSMessage).
Variable upcall :
  Upcall MLSMessage → State MLSMessage CascadeConsensusMessage Welcome
  → Run MLSMessage CascadeConsensusMessage Welcome.

#[local] Abbreviation State := (State MLSMessage CascadeConsensusMessage Welcome).
#[local] Abbreviation Run := (Run MLSMessage CascadeConsensusMessage Welcome).
#[local] Abbreviation handleProposal :=
  (handleProposal (CascadeConsensusMessage := CascadeConsensusMessage)
                  (Welcome := Welcome) epoch_of proposal_content application_content).
#[local] Abbreviation handleCommit :=
  (handleCommit epoch_of marshal commit_content cascade upcall).
#[local] Abbreviation handleCascadeConsensusMessage :=
  (handleCascadeConsensusMessage epoch_of application_content unmarshal_cascade
                                 cascade upcall).

Lemma keeps_buffers_done (st : State) : keeps_buffers st (Done st).
Proof. done. Qed.

Lemma keeps_buffers_bind (st : State) (r : Run) (k : State → Run) :
  keeps_buffers st r → (∀ st', keeps_buffers st' (k st')) → keeps_buffers st (bind r k).
Proof.
  intros Hr Hk. destruct r as [st1| | |]; simpl in *; try done.
  specialize (Hk st1). destruct Hr as (Hp & Hc & Hs).
  destruct (k st1); simpl in *; try done; by rewrite <- Hp, <- Hc, <- Hs.
Qed.

Lemma and_then_bind (f : State → State) (r : Run) (k : State → Run) :
  (∀ st, k (f st) = and_then f (k st)) →
  bind (and_then f r) k = and_then f (bind r k).
Proof. intros Hk. destruct r; simpl; auto. Qed.

Lemma apart_from_buffers_bind (h : State → Run) (k : State → Run) :
  apart_from_buffers h → apart_from_buffers k →
  apart_from_buffers (λ st, bind (h st) k).
Proof.
  intros Hh Hk st. destruct (Hh st) as (Hf & Hp & Hc). split; [|split].
  - apply keeps_buffers_bind; [done|]. intros st'. apply Hk.
  - intros v. rewrite Hp. apply and_then_bind. intros st'. apply Hk.
  - intros v. rewrite Hc. apply and_then_bind. intros st'. apply Hk.
Qed.

Lemma apart_from_buffers_catch (h : State → Run) :
  apart_from_buffers h → apart_from_buffers (λ st, catch (h st)).
Proof.
  intros Hh st. destruct (Hh st) as (Hf & Hp & Hc). split; [|split].
  - by destruct (h st).
  - intros v. rewrite Hp. by destruct (h st).
  - intros v. rewrite Hc. by destruct (h st).
Qed.

Lemma handleProposal_apart (message : MLSMessage) :
  apart_from_buffers (handleProposal message).
Proof.
  intros st. unfold DDS.handleProposal, lookUnlockCommits.
  destruct st as [[s|] pc aw fp fc rp ic ev]; simpl; [|done].
  destruct (isValidProposal _ _ _ _) as [proposalRef|]; simpl.
  - destruct (unlock _ _) as [entries [|]]; simpl; done.
  - destruct (isValidApplicationMessage _ _ _ _); simpl; done.
Qed.

(** The cascade consensus hands commits over and decides none, and handing
    a commit over leaves the buffers. *)
Hypothesis cascade_candidates : ∀ calls u,
  u ∈ cascade calls → ∃ message, u = Candidate message.
Hypothesis candidate_apart : ∀ message, apart_from_buffers (upcall (Candidate message)).

Lemma upcalls_apart (us : list (Upcall MLSMessage)) :
  (∀ u, u ∈ us → ∃ message, u = Candidate message) →
  apart_from_buffers (upcalls upcall us).
Proof using candidate_apart.
  induction us as [|u us IH]; intros Hus; simpl.
  - intros st. done.
  - apply apart_from_buffers_bind.
    + destruct (Hus u) as [message ->]; [left|]. apply candidate_apart.
    + apply IH. intros u' Hu'. apply Hus. by right.
Qed.

Lemma callCascade_apart call : apart_from_buffers (callCascade cascade upcall call).
Proof using cascade_candidates candidate_apart.
  intros st. unfold callCascade.
  destruct (upcalls_apart (cascade (events (log call st)))
              (cascade_candidates _) (log call st))
    as (Hf & Hp & Hc).
  split; [|split].
  - by destruct (upcalls _ _ _).
  - intros v. apply Hp.
  - intros v. apply Hc.
Qed.

Lemma handleCommit_apart (message : MLSMessage) : apart_from_buffers (handleCommit message).
Proof using cascade_candidates candidate_apart.
  intros st. unfold DDS.handleCommit, handleCompleteCommit.
  pose proof (callCascade_apart (CascadeValidate message) st) as Hcall.
  destruct st as [[s|] pc aw fp fc rp ic ev]; simpl in *; [|done].
  destruct (isValidCommit _ _ _ _) as [referencedSet|]; simpl; [|done].
  case_bool_decide; [done|]. simpl. done.
Qed.

Lemma handleCascadeConsensusMessage_apart (message : MLSMessage) :
  apart_from_buffers (handleCascadeConsensusMessage message).
Proof using cascade_candidates candidate_apart.
  intros st. unfold DDS.handleCascadeConsensusMessage.
  pose proof (λ call, apart_from_buffers_catch _ (callCascade_apart call) st) as Hcall.
  destruct st as [[s|] pc aw fp fc rp ic ev]; simpl in *; [|done].
  destruct (isValidApplicationMessage _ _ _ _) as [data|]; simpl; [|done].
  destruct (unmarshal_cascade data) as [cascadeMessage|]; simpl; [|done].
  apply Hcall.
Qed.

Lemma bind_done (r : Run) (k : State → Run) (st' : State) :
  bind r k = Done st' ↔ ∃ st1, r = Done st1 ∧ k st1 = Done st'.
Proof.
  destruct r as [st1| | |]; simpl; split; try discriminate.
  - intros Hk. by exists st1.
  - by intros (? & [= <-] & Hk).
  - by intros (? & ? & _).
  - by intros (? & ? & _).
  - by intros (? & ? & _).
Qed.

Lemma apart_proposals (h : MLSMessage → State → Run) :
  (∀ message, apart_from_buffers (h message)) →
  (∀ message st st', h message st = Done st' →
     m_futureProposals st' = m_futureProposals st ∧ state st' = state st)
  ∧ (∀ message v st, h message (set_m_futureProposals v st)
                     = and_then (set_m_futureProposals v) (h message st)).
Proof.
  intros Hh. split.
  - intros message st st' Hr. destruct (Hh message st) as (Hf & _).
    rewrite Hr in Hf. by destruct Hf as (? & ? & ?).
  - intros message v st. by destruct (Hh message st) as (_ & Hp & _).
Qed.

Lemma apart_cascade (h : MLSMessage → State → Run) :
  (∀ message, apart_from_buffers (h message)) →
  (∀ message st st', h message st = Done st' →
     m_futureCascadeConsensus st' = m_futureCascadeConsensus st ∧ state st' = state st)
  ∧ (∀ message v st, h message (set_m_futureCascadeConsensus v st)
                     = and_then (set_m_futureCascadeConsensus v) (h message st)).
Proof.
  intros Hh. split.
  - intros message st st' Hr. destruct (Hh message st) as (Hf & _).
    rewrite Hr in Hf. by destruct Hf as (? & ? & ?).
  - intros message v st. by destruct (Hh message st) as (_ & _ & Hc).
Qed.

Lemma scan_proposals (process : MLSMessage → State → Run) (st st' : State) s :
  (∀ message, apart_from_buffers (process message)) →
  state st = Some s →
  scan epoch_of m_futureProposals set_m_futureProposals process
       (length (m_futureProposals st)) 0 st = Done st'
  ↔ ∃ st1, processAll process (current epoch_of (epoch s) (m_futureProposals st)) st
           = Done st1
           ∧ st' = set_m_futureProposals
                     (later epoch_of (epoch s) (m_futureProposals st)) st1.
Proof.
  intros Hp Hs. destruct (apart_proposals _ Hp) as [Hframe Hset].
  by apply (scan_sweeps epoch_of m_futureProposals set_m_futureProposals process
              (λ _ _, eq_refl) (λ st, match st with mkState _ _ _ _ _ _ _ _ => eq_refl end)
              (λ _ _ _, eq_refl) (λ _ _, eq_refl) Hframe Hset).
Qed.

Lemma scan_cascade (process : MLSMessage → State → Run) (st st' : State) s :
  (∀ message, apart_from_buffers (process message)) →
  state st = Some s →
  scan epoch_of m_futureCascadeConsensus set_m_futureCascadeConsensus process
       (length (m_futureCascadeConsensus st)) 0 st = Done st'
  ↔ ∃ st1, processAll process (current epoch_of (epoch s) (m_futureCascadeConsensus st)) st
           = Done st1
           ∧ st' = set_m_futureCascadeConsensus
                     (later epoch_of (epoch s) (m_futureCascadeConsensus st)) st1.
Proof.
  intros Hp Hs. destruct (apart_cascade _ Hp) as [Hframe Hset].
  by apply (scan_sweeps epoch_of m_futureCascadeConsensus set_m_futureCascadeConsensus
              process
              (λ _ _, eq_refl) (λ st, match st with mkState _ _ _ _ _ _ _ _ => eq_refl end)
              (λ _ _ _, eq_refl) (λ _ _, eq_refl) Hframe Hset).
Qed.

(** [advanceEpoch], when the cascade consensus decides no commit while it
    is called: it returns exactly when the handlers
    return on the buffered proposals of the current epoch and then on the
    buffered envelopes of the current epoch, each buffer taken in order, and
    then the buffers hold the messages of later epochs. *)
Lemma advanceEpoch_sweeps (st st' : State) s :
  state st = Some s →
  advanceEpoch epoch_of proposal_content application_content unmarshal_cascade
               cascade upcall st = Done st'
  ↔ ∃ st1 st2,
      processAll handleProposal (current epoch_of (epoch s) (m_futureProposals st))
                 (collectGarbage st) = Done st1
      ∧ processAll handleCascadeConsensusMessage
                   (current epoch_of (epoch s) (m_futureCascadeConsensus st)) st1
        = Done st2
      ∧ st' = set_m_futureProposals (later epoch_of (epoch s) (m_futureProposals st))
                (set_m_futureCascadeConsensus
                   (later epoch_of (epoch s) (m_futureCascadeConsensus st)) st2).
Proof using cascade_candidates candidate_apart.
  intros Hs. unfold DDS.advanceEpoch. rewrite bind_done.
  destruct (apart_cascade _ handleProposal_apart) as [HfPc _].
  destruct (apart_proposals _ handleCascadeConsensusMessage_apart) as [_ HsCp].
  set (st0 := collectGarbage st).
  assert (Hs0 : state st0 = Some s) by done.
  assert (Hstep : ∀ st1,
            processAll handleProposal (current epoch_of (epoch s) (m_futureProposals st))
                       st0 = Done st1 →
            let stA := set_m_futureProposals
                         (later epoch_of (epoch s) (m_futureProposals st)) st1 in
            state stA = Some s
            ∧ m_futureCascadeConsensus stA = m_futureCascadeConsensus st
            ∧ ∀ l, processAll handleCascadeConsensusMessage l stA
                   = and_then (set_m_futureProposals
                                 (later epoch_of (epoch s) (m_futureProposals st)))
                              (processAll handleCascadeConsensusMessage l st1)).
  { intros st1 Hp1.
    pose proof (processAll_frame m_futureCascadeConsensus handleProposal HfPc _ _ _ Hp1)
      as [Hfc1 Hst1].
    split; [simpl; by rewrite Hst1|]. split; [simpl; by rewrite Hfc1|].
    intros l. apply (processAll_set set_m_futureProposals _ HsCp). }
  split.
  - intros (stA & HscanP & HscanC).
    apply (scan_proposals _ _ _ s handleProposal_apart Hs0) in HscanP.
    destruct HscanP as (st1 & Hp1 & ->). exists st1.
    destruct (Hstep st1 Hp1) as (HsA & HfcA & HpA).
    apply (scan_cascade _ _ _ s handleCascadeConsensusMessage_apart HsA) in HscanC.
    destruct HscanC as (st2' & Hp2 & ->).
    rewrite HfcA, HpA in Hp2. rewrite HfcA.
    destruct (processAll handleCascadeConsensusMessage _ st1) as [st2| | |];
      try discriminate.
    injection Hp2 as <-. exists st2. done.
  - intros (st1 & st2 & Hp1 & Hp2 & ->).
    destruct (Hstep st1 Hp1) as (HsA & HfcA & HpA).
    exists (set_m_futureProposals (later epoch_of (epoch s) (m_futureProposals st)) st1).
    split.
    + apply (scan_proposals _ _ _ s handleProposal_apart Hs0). by exists st1.
    + apply (scan_cascade _ _ _ s handleCascadeConsensusMessage_apart HsA).
      rewrite HfcA.
      exists (set_m_futureProposals (later epoch_of (epoch s) (m_futureProposals st)) st2).
      rewrite HpA, Hp2. done.
Qed.

End Handlers.

Section Nesting.
Context {MLSMessage CascadeConsensusMessage Welcome : Type}.
Variable epoch_of : MLSMessage → Epoch.
Variable ref : MLSMessage → MessageRef.
Variable marshal : MLSMessage → bytes.
Variable proposal_content : ExtendedMLSState → MLSMessage → option N.
Variable commit_content : ExtendedMLSState → MLSMessage → option (gset N).
Variable application_content : ExtendedMLSState → MLSMessage → option bytes.
Variable getCommitMembershipChanges :
  ExtendedMLSState → MLSMessage → list bytes * list bytes.
Variable unmarshal_cascade : bytes → option CascadeConsensusMessage.
Variable deliverCommit : ExtendedMLSState → MLSMessage → option ExtendedMLSState.
Variable cascade :
  list (Event MLSMessage CascadeConsensusMessage Welcome) → list (Upcall MLSMessage).

#[local] Abbreviation State := (State MLSMessage CascadeConsensusMessage Welcome).
#[local] Abbreviation react :=
  (react epoch_of ref marshal proposal_content commit_content application_content
         getCommitMembershipChanges unmarshal_cascade deliverCommit cascade).

Hypothesis cascade_candidates : ∀ calls u,
  u ∈ cascade calls → ∃ message, u = Candidate message.

Lemma react_candidate_apart (fuel : nat) (message : MLSMessage) :
  apart_from_buffers (react fuel (Candidate message)).
Proof using Type*.
  revert message. induction fuel as [|fuel IH]; intros message; simpl.
  - intros st. done.
  - apply (handleCommit_apart epoch_of marshal commit_content cascade (react fuel)
             cascade_candidates IH).
Qed.

(** With callbacks nested at any depth: when the cascade consensus decides
    no commit while it is called, [advanceEpoch] returns exactly when the
    handlers return on the buffered messages of the current epoch, each
    buffer taken in order, and then each buffer holds its messages of later
    epochs; the messages of earlier epochs are gone. *)
Lemma advanceEpoch_without_decision (fuel : nat) (st st' : State) s :
  state st = Some s →
  advanceEpoch epoch_of proposal_content application_content unmarshal_cascade
               cascade (react fuel) st = Done st'
  ↔ ∃ st1 st2,
      processAll (handleProposal epoch_of proposal_content application_content)
                 (current epoch_of (epoch s) (m_futureProposals st))
                 (collectGarbage st) = Done st1
      ∧ processAll (handleCascadeConsensusMessage epoch_of application_content
                      unmarshal_cascade cascade (react fuel))
                   (current epoch_of (epoch s) (m_futureCascadeConsensus st)) st1
        = Done st2
      ∧ st' = set_m_futureProposals (later epoch_of (epoch s) (m_futureProposals st))
                (set_m_futureCascadeConsensus
                   (later epoch_of (epoch s) (m_futureCascadeConsensus st)) st2).
Proof using Type*.
  intros Hs. apply (advanceEpoch_sweeps epoch_of proposal_content application_content
           unmarshal_cascade cascade (react fuel) cascade_candidates
           (react_candidate_apart fuel) st st' s Hs).
Qed.

End Nesting.

Import DDSScenario.


End DDSProofs.

(** ** Integers, byte strings and message framing on a socket *)

Module WireProofs.
Import Wire.

(** *** Memory images *)

Lemma length_to_memory size v : length (to_memory size v) = size.
Proof. revert v. induction size as [|size IH]; intros v; simpl; [done|]. by rewrite IH. Qed.

Lemma to_memory_bytes size v : Forall (λ b, b < 256) (to_memory size v).
Proof.
  revert v. induction size as [|size IH]; intros v; simpl; constructor.
  - apply N.mod_lt. lia.
  - apply IH.
Qed.

Lemma of_memory_to_memory size v :
  of_memory (to_memory size v) = v mod 256 ^ N.of_nat size.
Proof.
  revert v. induction size as [|size IH]; intros v.
  - simpl. by rewrite N.mod_1_r.
  - change (of_memory (to_memory (S size) v))
      with (v mod 256 + 256 * of_memory (to_memory size (v / 256))).
    rewrite IH, Nat2N.inj_succ, N.pow_succ_r'.
    rewrite (N.Div0.mod_mul_r v 256 (256 ^ N.of_nat size)). done.
Qed.

Lemma to_memory_of_memory (l : bytes) :
  Forall (λ b, b < 256) l → to_memory (length l) (of_memory l) = l.
Proof.
  induction 1 as [|b l Hb Hl IH]; [done|].
  change (of_memory (b :: l)) with (b + 256 * of_memory l). simpl.
  assert (Hm : (b + 256 * of_memory l) mod 256 = b).
  { rewrite (N.mul_comm 256), N.Div0.mod_add. by apply N.mod_small. }
  assert (Hd : (b + 256 * of_memory l) / 256 = of_memory l).
  { rewrite (N.mul_comm 256), N.div_add by lia.
    rewrite (N.div_small b) by done. lia. }
  by rewrite Hm, Hd, IH.
Qed.

Lemma of_memory_bound (l : bytes) :
  Forall (λ b, b < 256) l → of_memory l < 256 ^ N.of_nat (length l).
Proof.
  induction 1 as [|b l Hb Hl IH]; [simpl; lia|].
  change (of_memory (b :: l)) with (b + 256 * of_memory l).
  change (length (b :: l)) with (S (length l)).
  rewrite Nat2N.inj_succ, N.pow_succ_r'. nia.
Qed.

Lemma to_memory_lookup size v :
  to_memory size v = (λ j, v / 256 ^ N.of_nat j mod 256) <$> seq 0 size.
Proof.
  revert v. induction size as [|size IH]; intros v; [done|].
  simpl. rewrite N.div_1_r. f_equal.
  rewrite IH, <- fmap_S_seq, <- list_fmap_compose. apply list_fmap_ext.
  intros _ j _. simpl.
  rewrite N.Div0.div_div. f_equal. f_equal.
  change (256 * 256 ^ N.of_nat j = 256 ^ N.pos (Pos.of_succ_nat j)).
  rewrite <- N.pow_succ_r'. f_equal. lia.
Qed.

(** [_swap_any] reverses the bytes in memory. *)
Lemma swap_any_memory size v : _swap_any size v = of_memory (reverse (to_memory size v)).
Proof.
  unfold _swap_any. f_equal. apply list_eq. intros i.
  rewrite list_lookup_fmap.
  destruct (decide (i < size)%nat) as [Hi|Hi].
  - rewrite lookup_seq_lt by done.
    rewrite reverse_lookup by (rewrite length_to_memory; done).
    rewrite length_to_memory, to_memory_lookup, list_lookup_fmap.
    rewrite lookup_seq_lt by lia. simpl.
    rewrite N.shiftr_div_pow2. do 3 f_equal.
    change 256 with (2 ^ 8). rewrite <- N.pow_mul_r. f_equal. lia.
  - rewrite lookup_seq_ge by lia. symmetry. apply lookup_ge_None.
    rewrite length_reverse, length_to_memory. lia.
Qed.

(** [hton] exchanges the two byte orders: the memory of [hton(v)] holds the
    bytes of [v] most significant first. *)
Lemma hton_memory size v : to_memory size (hton size v) = reverse (to_memory size v).
Proof.
  unfold hton. rewrite swap_any_memory.
  rewrite <- (length_to_memory size v) at 1. rewrite <- length_reverse.
  apply to_memory_of_memory, Forall_reverse, to_memory_bytes.
Qed.

Lemma hton_involutive_and_read_back_parts (size : nat) (v : N) :
  v < 256 ^ N.of_nat size →
  hton size (hton size v) = v ∧ hton size v < 256 ^ N.of_nat size.
Proof.
  intros Hv. split.
  - unfold hton at 1. rewrite swap_any_memory, hton_memory, reverse_involutive.
    rewrite of_memory_to_memory. by apply N.mod_small.
  - unfold hton. rewrite swap_any_memory.
    rewrite <- (length_to_memory size v) at 2. rewrite <- length_reverse.
    apply of_memory_bound, Forall_reverse, to_memory_bytes.
Qed.

Lemma netRead_T_netWrite_T (size : nat) (v : N) (rest : bytes) :
  v < 256 ^ N.of_nat size →
  netRead_T size (netWrite_T size v ++ rest) = Some (v, rest).
Proof.
  intros Hv. destruct (hton_involutive_and_read_back_parts size v Hv) as [Hinv Hh].
  unfold netRead_T, netRead_raw, netWrite_T.
  rewrite length_app, length_to_memory.
  destruct (Nat.ltb_spec (size + length rest) size) as [Hlt|_]; [lia|].
  rewrite take_app_length', drop_app_length' by (by rewrite length_to_memory).
  rewrite of_memory_to_memory, N.mod_small by done.
  unfold ntoh. by rewrite Hinv.
Qed.

Lemma netRead_string_from_app (acc str rest : bytes) :
  Forall (λ c, c ≠ 0) str →
  netRead_string_from acc (str ++ 0 :: rest) = Some (acc ++ str, rest).
Proof.
  intros Hstr. revert acc. induction Hstr as [|c str Hc _ IH]; intros acc; simpl.
  - by rewrite app_nil_r.
  - destruct (N.eqb_spec c 0) as [|_]; [done|].
    rewrite IH, <- app_assoc. done.
Qed.

Lemma netRead_string_netWrite_string (str rest : bytes) :
  Forall (λ c, c ≠ 0) str →
  netRead_string (netWrite_string str ++ rest) = Some (str, rest).
Proof.
  intros Hstr. unfold netRead_string, netWrite_string. rewrite <- app_assoc.
  apply (netRead_string_from_app [] str rest Hstr).
Qed.

Lemma netRead_Bytes_netWrite_Bytes (bs rest : bytes) :
  N.of_nat (length bs) < 2 ^ 32 →
  netRead_Bytes (netWrite_Bytes bs ++ rest) = Some (bs, rest).
Proof.
  intros Hlen. unfold netRead_Bytes, netWrite_Bytes.
  rewrite N.mod_small, <- app_assoc by done.
  rewrite netRead_T_netWrite_T by done.
  unfold netRead_raw. rewrite Nat2N.id, length_app.
  destruct (Nat.ltb_spec (length bs + length rest) (length bs)) as [|_]; [lia|].
  by rewrite take_app_length, drop_app_length.
Qed.

(** X1.  On integers of [size] bytes [hton] is its own inverse (which is why
    [ntoh] can be [hton]); [netWrite<T>] writes the bytes of an integer most
    significant first; and an integer written by [netWrite<T>] and read back
    by [netRead<T>] is unchanged, whatever follows it on the socket. *)
Theorem hton_involutive_and_read_back (size : nat) (v : N) (rest : bytes) :
  v < 256 ^ N.of_nat size →
  hton size (hton size v) = v
  ∧ ntoh size (hton size v) = v
  ∧ netWrite_T size v = reverse (to_memory size v)
  ∧ netRead_T size (netWrite_T size v ++ rest) = Some (v, rest).
Proof.
  intros Hv. cut (hton size (hton size v) = v
                  ∧ ntoh size (hton size v) = v
                  ∧ netRead_T size (netWrite_T size v ++ rest) = Some (v, rest)).
  { intros (? & ? & ?). split; [done|]. split; [done|]. split; [|done].
    apply hton_memory. }
  assert (Hinv : hton size (hton size v) = v).
  { unfold hton at 1. rewrite swap_any_memory, hton_memory, reverse_involutive.
    rewrite of_memory_to_memory. by apply N.mod_small. }
  split; [done|]. split; [done|].
  unfold netRead_T, netRead_raw, netWrite_T.
  rewrite length_app, length_to_memory.
  destruct (Nat.ltb_spec (size + length rest) size) as [Hlt|_]; [lia|].
  rewrite take_app_length', drop_app_length' by (by rewrite length_to_memory).
  rewrite of_memory_to_memory.
  assert (Hh : hton size v < 256 ^ N.of_nat size).
  { unfold hton. rewrite swap_any_memory.
    rewrite <- (length_to_memory size v) at 2. rewrite <- length_reverse.
    apply of_memory_bound, Forall_reverse, to_memory_bytes. }
  rewrite N.mod_small by done. unfold ntoh. by rewrite Hinv.
Qed.

Lemma hton_involutive_and_read_back_witness :
  (16909060 < 256 ^ N.of_nat 4)
  ∧ netWrite_T 4 16909060 = [1; 2; 3; 4]
  ∧ netRead_T 4 (netWrite_T 4 16909060 ++ [9]) = Some (16909060, [9]).
Proof.
  assert (Hv : 16909060 < 256 ^ N.of_nat 4) by (vm_compute; reflexivity).
  destruct (hton_involutive_and_read_back 4 16909060 [9] Hv) as (_ & _ & Hw & Hr).
  split; [exact Hv|]. split; [rewrite Hw; vm_compute; reflexivity | exact Hr].
Defined.

(** X4.  A string is written with its terminator and read up to the first
    zero byte: a string that holds a zero byte is read back cut at that
    byte, and what follows the byte is left on the socket for the next
    read. *)
Theorem netRead_string_cuts_at_zero (before after rest : bytes) :
  Forall (λ c, c ≠ 0) before →
  netRead_string (netWrite_string (before ++ 0 :: after) ++ rest)
  = Some (before, after ++ 0 :: rest).
Proof.
  intros Hb. unfold netRead_string, netWrite_string.
  rewrite <- !app_assoc. apply (netRead_string_from_app [] before _ Hb).
Qed.

Lemma netRead_string_cuts_at_zero_witness :
  netRead_string (netWrite_string ([97] ++ 0 :: [98]) ++ [7]) = Some ([97], [98] ++ 0 :: [7]).
Proof. apply netRead_string_cuts_at_zero. repeat constructor; discriminate. Defined.

(** *** Framing *)

Lemma extract_parse steps expected (buf : Buffer) handled :
  extract steps expected buf handled
  = let '(e, d, h) := parse steps expected (data buf) handled in
    (e, mkBuffer d (reservedSize buf), h).
Proof.
  revert expected buf handled.
  induction steps as [|steps IH]; intros expected buf handled; simpl.
  - by destruct buf.
  - unfold curSize.
    destruct (N.of_nat (length (data buf)) <? expected); [by destruct buf|].
    destruct (expected =? 0).
    + destruct (length (data buf) <? 4)%nat; [by destruct buf|]. by rewrite IH.
    + by rewrite IH.
Qed.

(** More steps than bytes change nothing. *)
Lemma parse_steps steps steps' expected d handled :
  (length d < steps)%nat → (steps ≤ steps')%nat →
  parse steps' expected d handled = parse steps expected d handled.
Proof.
  revert steps' expected d handled.
  induction steps as [|steps IH]; intros steps' expected d handled Hd Hs; [lia|].
  destruct steps' as [|steps']; [lia|]. simpl.
  destruct (N.ltb_spec (N.of_nat (length d)) expected) as [|Hge]; [done|].
  destruct (N.eqb_spec expected 0) as [->|Hne].
  - destruct (Nat.ltb_spec (length d) 4) as [|H4]; [done|].
    apply IH; [rewrite length_drop|]; lia.
  - apply IH; [rewrite length_drop|]; lia.
Qed.

Lemma parse_all_unfold expected d handled :
  parse_all expected d handled
  = if N.of_nat (length d) <? expected then (expected, d, handled)
    else if expected =? 0 then
      if (length d <? 4)%nat then (expected, d, handled)
      else parse_all (ntoh 4 (of_memory (take 4 d))) (drop 4 d) handled
    else parse_all 0 (drop (N.to_nat expected) d)
                   (handled ++ [take (N.to_nat expected) d]).
Proof.
  unfold parse_all at 1. simpl.
  destruct (N.ltb_spec (N.of_nat (length d)) expected) as [|Hge]; [done|].
  destruct (N.eqb_spec expected 0) as [->|Hne].
  - destruct (Nat.ltb_spec (length d) 4) as [|H4]; [done|].
    apply parse_steps; rewrite length_drop; lia.
  - apply parse_steps; rewrite length_drop; lia.
Qed.

(** Bytes that arrive later are parsed as if they had arrived at once. *)
Lemma parse_all_app expected d c handled :
  parse_all expected (d ++ c) handled
  = let '(e, d', h) := parse_all expected d handled in parse_all e (d' ++ c) h.
Proof.
  remember (length d) as len eqn:Hlen. revert expected d handled Hlen.
  induction len as [len IH] using lt_wf_ind. intros expected d handled ->.
  rewrite (parse_all_unfold expected d).
  destruct (N.ltb_spec (N.of_nat (length d)) expected) as [Hlt|Hge]; [done|].
  destruct (N.eqb_spec expected 0) as [->|Hne].
  - destruct (Nat.ltb_spec (length d) 4) as [|H4]; [done|].
    rewrite (parse_all_unfold 0 (d ++ c)). rewrite length_app.
    destruct (N.ltb_spec (N.of_nat (length d + length c)) 0) as [|_]; [lia|]. simpl.
    destruct (Nat.ltb_spec (length d + length c) 4) as [|_]; [lia|].
    rewrite take_app_le, drop_app_le by lia.
    apply (IH (length (drop 4 d))); [rewrite length_drop; lia | done].
  - rewrite (parse_all_unfold expected (d ++ c)). rewrite length_app.
    destruct (N.ltb_spec (N.of_nat (length d + length c)) expected) as [|_]; [lia|].
    destruct (N.eqb_spec expected 0) as [|_]; [done|].
    rewrite take_app_le, drop_app_le by lia.
    apply (IH (length (drop (N.to_nat expected) d))); [rewrite length_drop; lia | done].
Qed.

Lemma readClient_parse chunk (client : Inbound) :
  chunk ≠ [] →
  ∃ client',
    readClient chunk client = Some client'
    ∧ (m_incomingSize client', data (m_incomingMessage client'), handled client')
      = parse_all (m_incomingSize client) (data (m_incomingMessage client) ++ chunk)
                  (handled client).
Proof.
  intros Hc. destruct chunk as [|c chunk]; [done|].
  unfold readClient. rewrite extract_parse.
  set (buf := append (c :: chunk) (m_incomingMessage client)).
  assert (Hd : data buf = data (m_incomingMessage client) ++ c :: chunk).
  { unfold buf, append. by destruct (_ <? _)%nat. }
  unfold parse_all. rewrite <- Hd. unfold curSize.
  destruct (parse _ _ _ _) as [[e d] h]. by eexists.
Qed.

Lemma readAll_parse chunk chunks (client : Inbound) :
  Forall (λ chunk, chunk ≠ []) (chunk :: chunks) →
  ∃ client',
    readAll (chunk :: chunks) client = Some client'
    ∧ (m_incomingSize client', data (m_incomingMessage client'), handled client')
      = parse_all (m_incomingSize client)
                  (data (m_incomingMessage client) ++ concat (chunk :: chunks))
                  (handled client).
Proof.
  revert chunk client. induction chunks as [|next chunks IH]; intros chunk client Hall.
  - apply Forall_cons in Hall as [Hc _].
    destruct (readClient_parse chunk client Hc) as (client1 & H1 & Hp).
    exists client1. simpl. rewrite H1, app_nil_r. done.
  - apply Forall_cons in Hall as [Hc Hall].
    destruct (readClient_parse chunk client Hc) as (client1 & H1 & Hp).
    destruct (IH next client1 Hall) as (client' & H' & Hp').
    exists client'. split.
    + change (readAll (chunk :: next :: chunks) client)
        with (match readClient chunk client with
              | Some client => readAll (next :: chunks) client
              | None => None
              end).
      by rewrite H1.
    + rewrite Hp'. change (concat (chunk :: next :: chunks))
        with (chunk ++ concat (next :: chunks)).
      rewrite app_assoc, (parse_all_app _ (_ ++ chunk)), <- Hp. done.
Qed.

Lemma parse_all_frame (message rest : bytes) handled :
  N.of_nat (length message) < 2 ^ 32 →
  parse_all 0 (netWrite_Bytes message ++ rest) handled
  = parse_all 0 rest (if bool_decide (message = []) then handled
                      else handled ++ [message]).
Proof.
  intros Hlen. unfold netWrite_Bytes. rewrite N.mod_small by done.
  set (len := N.of_nat (length message)).
  assert (Hl : len < 256 ^ N.of_nat 4) by done.
  destruct (hton_involutive_and_read_back_parts 4 len Hl) as [Hinv Hmem].
  assert (Hlen4 : length (netWrite_T 4 len) = 4%nat) by apply length_to_memory.
  rewrite parse_all_unfold, <- app_assoc.
  destruct (N.ltb_spec (N.of_nat (length (netWrite_T 4 len ++ message ++ rest))) 0);
    [lia|].
  change (0 =? 0) with true. cbv iota.
  destruct (Nat.ltb_spec (length (netWrite_T 4 len ++ message ++ rest)) 4) as [Hlt|_];
    [rewrite length_app in Hlt; lia|].
  rewrite take_app_length', drop_app_length' by done.
  unfold netWrite_T. rewrite of_memory_to_memory, N.mod_small by apply Hmem.
  unfold ntoh. rewrite Hinv.
  case_bool_decide as Hm.
  - subst message. done.
  - rewrite parse_all_unfold. rewrite length_app.
    destruct (N.ltb_spec (N.of_nat (length message + length rest)) len) as [|_];
      [subst len; lia|].
    destruct (N.eqb_spec len 0) as [H0|_].
    { destruct message; [done|]. subst len. simpl in H0. lia. }
    subst len. rewrite Nat2N.id.
    by rewrite take_app_length, drop_app_length.
Qed.

Lemma parse_all_frames (messages : list bytes) handled :
  Forall (λ message, N.of_nat (length message) < 2 ^ 32) messages →
  parse_all 0 (concat (netWrite_Bytes <$> messages)) handled
  = (0, [], handled ++ filter (λ message, message ≠ []) messages).
Proof.
  intros Hall. revert handled.
  induction Hall as [|message messages Hm _ IH]; intros handled.
  - simpl. by rewrite app_nil_r.
  - change (concat (netWrite_Bytes <$> message :: messages))
      with (netWrite_Bytes message ++ concat (netWrite_Bytes <$> messages)).
    rewrite parse_all_frame by done.
    rewrite IH. rewrite filter_cons. case_bool_decide as Hnil.
    + subst message. done.
    + rewrite decide_True by done. by rewrite <- app_assoc.
Qed.

(** X2.  A client's socket is read in pieces of any sizes.  When the pieces
    together are the frames written by [netWrite] for a sequence of
    messages, each shorter than 2^32 bytes, [readClient] hands the messages
    that are not empty to the handler, each once and in order, and ends
    between two frames with an empty buffer.  A message of no bytes is
    never handed over: its length field is taken for the state that awaits
    a length. *)
Theorem readClient_reassembles_frames (messages chunks : list bytes) :
  Forall (λ message, N.of_nat (length message) < 2 ^ 32) messages →
  Forall (λ chunk, chunk ≠ []) chunks →
  concat chunks = concat (netWrite_Bytes <$> messages) →
  ∃ client,
    readAll chunks accepted = Some client
    ∧ handled client = filter (λ message, message ≠ []) messages
    ∧ m_incomingSize client = 0
    ∧ data (m_incomingMessage client) = [].
Proof.
  intros Hm Hc Heq. destruct chunks as [|chunk chunks].
  - exists accepted. split; [done|]. split; [|done].
    destruct messages as [|message messages]; [done|].
    apply (f_equal length) in Heq.
    change (concat (netWrite_Bytes <$> message :: messages))
      with ((netWrite_T 4 (N.of_nat (length message) mod 2 ^ 32) ++ message)
            ++ concat (netWrite_Bytes <$> messages)) in Heq.
    rewrite !length_app in Heq. unfold netWrite_T in Heq.
    rewrite length_to_memory in Heq. simpl in Heq. lia.
  - destruct (readAll_parse chunk chunks accepted Hc) as (client & Hr & Hp).
    exists client. split; [done|].
    change (data (m_incomingMessage accepted) ++ concat (chunk :: chunks))
      with (concat (chunk :: chunks)) in Hp.
    rewrite Heq in Hp. change (m_incomingSize accepted) with 0 in Hp.
    rewrite parse_all_frames in Hp by done.
    by injection Hp as -> -> ->.
Qed.

Lemma readClient_reassembles_frames_witness :
  ∃ client,
    readAll [[0; 0; 0]; [2; 1; 2; 0; 0]; [0; 0; 0; 0; 0; 1; 3]] accepted = Some client
    ∧ handled client = filter (λ message, message ≠ []) [[1; 2]; []; [3]]
    ∧ m_incomingSize client = 0
    ∧ data (m_incomingMessage client) = [].
Proof.
  apply (readClient_reassembles_frames [[1; 2]; []; [3]]).
  - repeat constructor.
  - repeat constructor; discriminate.
  - vm_compute. reflexivity.
Defined.

End WireProofs.

(** ** The key directory *)

Module PKIProofs.
Import Wire PKI WireProofs.

Section Messages.
Variable unset : N.

#[local] Abbreviation PKIRecvRequest := (PKIRecvRequest unset).

Lemma recvKeys_written (keys acc : list bytes) (rest : bytes) :
  Forall (λ key, N.of_nat (length key) < 2 ^ 32) keys →
  recvKeys (length keys) acc (concat (netWrite_Bytes <$> keys) ++ rest)
  = Some (acc ++ keys, rest).
Proof.
  intros Hkeys. revert acc. induction Hkeys as [|key keys Hk _ IH]; intros acc.
  - cbn. by rewrite app_nil_r.
  - change (concat (netWrite_Bytes <$> key :: keys))
      with (netWrite_Bytes key ++ concat (netWrite_Bytes <$> keys)).
    cbn [length recvKeys]. rewrite <- app_assoc, netRead_Bytes_netWrite_Bytes by done.
    rewrite IH, <- app_assoc. done.
Qed.

(** X3.  A request written by [PKISendRequest] is read back by
    [PKIRecvRequest] with the fields of its type unchanged, whatever follows
    on the socket, provided that the identity holds no zero byte, the port
    fits 16 bits and the sizes fit 32 bits. *)
Theorem PKIRecvRequest_reads_what_PKISendRequest_wrote (req : PKIRequest) (rest : bytes) :
  fits req →
  PKIRecvRequest (PKISendRequest req ++ rest) = Some (received unset req, rest).
Proof.
  unfold fits, PKI.PKIRecvRequest, PKISendRequest, received.
  destruct req as [[| |] [id port keys] name]; cbn [type pubRequest queryRequestId PKI.id
    PKI.port PKI.keys type_code fresh_request].
  - intros (Hid & Hport & Hcount & Hkeys).
    rewrite <- !app_assoc.
    rewrite netRead_T_netWrite_T by (by vm_compute).
    change (1 =? 1) with true. cbv iota.
    rewrite netRead_string_netWrite_string by done.
    rewrite netRead_T_netWrite_T by done.
    rewrite N.mod_small by done.
    rewrite netRead_T_netWrite_T by done.
    rewrite Nat2N.id, recvKeys_written by done. done.
  - intros Hname. rewrite <- !app_assoc.
    rewrite netRead_T_netWrite_T by (by vm_compute).
    change (2 =? 1) with false. change (2 =? 2) with true. cbv iota.
    by rewrite netRead_string_netWrite_string.
  - intros Hname. rewrite <- !app_assoc.
    rewrite netRead_T_netWrite_T by (by vm_compute).
    change (3 =? 1) with false. change (3 =? 2) with false. change (3 =? 3) with true.
    cbv iota.
    by rewrite netRead_string_netWrite_string.
Qed.

#[local] Abbreviation failure := (mkQueryResponse 0 unset unset []).

(** X5.  A response that reports success, written by
    [PKISendQueryResponse], is read back unchanged by
    [PKIRecvQueryResponse]; [PKIRecvAddrResponse], which [queryAddrPKI] uses
    on what the server wrote with [PKISendQueryResponse], reads the address
    and the port and leaves the prekey field on the socket. *)
Theorem query_response_is_read_back (resp : PKIQueryResponse) (rest : bytes) :
  success resp ≠ 0 → ip resp < 2 ^ 32 → resp_port resp < 2 ^ 16 →
  N.of_nat (length (preKey resp)) < 2 ^ 32 →
  PKI.PKIRecvQueryResponse unset (PKISendQueryResponse resp ++ rest) = Some (resp, rest)
  ∧ PKI.PKIRecvAddrResponse unset (PKISendQueryResponse resp ++ rest)
    = Some (mkQueryResponse (success resp) (ip resp) (resp_port resp) [],
            netWrite_Bytes (preKey resp) ++ rest).
Proof.
  intros Hs Hip Hport Hkey. destruct resp as [success ip port preKey].
  cbn [PKI.success PKI.ip PKI.resp_port PKI.preKey] in *.
  unfold PKI.PKIRecvQueryResponse, PKI.PKIRecvAddrResponse, PKISendQueryResponse.
  cbn [PKI.success PKI.ip PKI.resp_port PKI.preKey app netRead_u8].
  destruct (N.eqb_spec success 0) as [|_]; [done|].
  rewrite <- !app_assoc.
  rewrite netRead_T_netWrite_T by done. rewrite netRead_T_netWrite_T by done.
  by rewrite netRead_Bytes_netWrite_Bytes.
Qed.

End Messages.

Lemma query_response_is_read_back_witness :
  PKI.PKIRecvQueryResponse 0
    (PKISendQueryResponse (mkQueryResponse 1 2130706433 8080 [5; 6]) ++ [7])
  = Some (mkQueryResponse 1 2130706433 8080 [5; 6], [7]).
Proof.
  refine (proj1 (query_response_is_read_back 0 (mkQueryResponse 1 2130706433 8080 [5; 6])
                   [7] _ _ _ _)); cbn [success ip resp_port preKey];
    first [discriminate | reflexivity].
Defined.

Lemma PKIRecvRequest_reads_what_PKISendRequest_wrote_witness :
  PKI.PKIRecvRequest 0
    (PKISendRequest (mkRequest REQUEST_PUBLISH (mkPublish [97; 108] 10501 [[1; 2]; []]) [])
     ++ [7])
  = Some (mkRequest REQUEST_PUBLISH (mkPublish [97; 108] 10501 [[1; 2]; []]) [], [7]).
Proof.
  apply (PKIRecvRequest_reads_what_PKISendRequest_wrote 0
           (mkRequest REQUEST_PUBLISH (mkPublish [97; 108] 10501 [[1; 2]; []]) []) [7]).
  unfold fits. cbn [type pubRequest PKI.id PKI.port PKI.keys].
  split; [repeat constructor; discriminate|].
  split; [reflexivity|]. split; [reflexivity|]. repeat constructor.
Defined.

(** *** The server *)

Section Server.
Variable unset : N.

#[local] Abbreviation ask := (ask unset).
#[local] Abbreviation failure := (QueryResponse (mkQueryResponse 0 unset unset [])).

Lemma ask_query_empty name address times (dir : Directory) :
  prekeys dir !! name = Some [] → addresses dir !! name = Some address →
  ask REQUEST_QUERY name times dir = (replicate times failure, dir).
Proof.
  intros Hk Ha. induction times as [|times IH]; [done|].
  cbn [PKI.ask]. unfold process. cbn [type queryRequestId]. rewrite Hk, Ha.
  by rewrite IH.
Qed.

(** X6.  The keys published for an identity are handed out one per QUERY
    request, in the order of publication and each once; when none is left a
    QUERY request fails.  The address recorded for the identity stays. *)
Theorem prekeys_are_handed_out_once name queue address times (dir : Directory) :
  prekeys dir !! name = Some queue → addresses dir !! name = Some address →
  fst (ask REQUEST_QUERY name times dir)
  = ((λ key, QueryResponse (mkQueryResponse 1 (fst address) (snd address) key))
       <$> take times queue)
    ++ replicate (times - length queue) failure
  ∧ prekeys (snd (ask REQUEST_QUERY name times dir)) !! name = Some (drop times queue)
  ∧ addresses (snd (ask REQUEST_QUERY name times dir)) = addresses dir.
Proof.
  revert queue dir. induction times as [|times IH]; intros queue dir Hk Ha.
  - cbn. by rewrite drop_0.
  - destruct queue as [|front queue].
    + rewrite (ask_query_empty name address _ dir Hk Ha). cbn [fst snd take fmap].
      rewrite Nat.sub_0_r. done.
    + cbn [PKI.ask]. unfold process. cbn [type queryRequestId]. rewrite Hk, Ha.
      set (dir1 := mkDirectory (<[name := queue]> (prekeys dir)) (addresses dir)).
      destruct (IH queue dir1) as (Hr & Hq & Had).
      { cbn. apply lookup_insert_eq. }
      { done. }
      destruct (PKI.ask unset REQUEST_QUERY name times dir1) as [resps dir'].
      cbn [fst snd] in *. rewrite Hr. done.
Qed.

End Server.

Lemma prekeys_are_handed_out_once_witness :
  fst (ask 0 REQUEST_QUERY [97] 3
         (snd (process 0 (mkRequest REQUEST_PUBLISH (mkPublish [97] 8080 [[1]; [2]]) [])
                       (16777343, 0) empty_directory)))
  = [QueryResponse (mkQueryResponse 1 2130706433 8080 [1]);
     QueryResponse (mkQueryResponse 1 2130706433 8080 [2]);
     QueryResponse (mkQueryResponse 0 0 0 [])].
Proof.
  refine (proj1 (prekeys_are_handed_out_once 0 [97] [[1]; [2]] (2130706433, 8080) 3 _ _ _));
    vm_compute; reflexivity.
Defined.

End PKIProofs.

(** ** Gossip broadcast: the sample and its peers *)

Module GossipRunProofs.
Import Gossip GossipRun GossipProofs.

Lemma length_sorted_values {V} (m : gmap N V) : length (sorted_values m) = size m.
Proof.
  unfold sorted_values.
  assert (Hall : ∀ l, Forall (λ k, is_Some (m !! k)) l →
                      length (omap (λ k, m !! k) l) = length l).
  { induction 1 as [|k l [v Hk] _ IH]; [done|]. cbn. rewrite Hk. cbn. by f_equal. }
  rewrite Hall.
  - unfold sorted_keys. by rewrite length_sorted_elements, size_dom.
  - apply Forall_forall. intros k Hk. by apply elem_of_sorted_keys.
Qed.

Section Run.
Context {MLSMessage : Type}.
Variable ref : MLSMessage → MessageRef.
Variable marshal_gossip : MLSMessage → bytes.
Variable marshal_subscribe : bytes → bytes.
Variable sample : list bytes → nat → list bytes.

#[local] Abbreviation State := (State MLSMessage).
#[local] Abbreviation call := (call ref marshal_gossip marshal_subscribe sample).
#[local] Abbreviation run := (run ref marshal_gossip marshal_subscribe sample).
#[local] Abbreviation receiveMessage := (receiveMessage ref marshal_gossip).
#[local] Abbreviation dispatchMessage := (dispatchMessage ref marshal_gossip).
#[local] Abbreviation newEpoch := (newEpoch marshal_subscribe sample).
#[local] Abbreviation updateSample := (updateSample marshal_subscribe sample).

Lemma computeSample_lists_sample (st : State) : lists_sample (computeSample st).
Proof.
  split; simpl; [apply NoDup_sorted_ids | apply list_to_set_sorted_ids].
Qed.

(** The loop over [removed] leaves the object alone unless it sets the flag. *)
Lemma dropRemoved_untouched (removed : list bytes) (st : State) :
  snd (fold_left dropRemoved removed (st, false)) = false →
  fst (fold_left dropRemoved removed (st, false)) = st.
Proof.
  assert (Htrue : ∀ l (s : State), snd (fold_left dropRemoved l (s, true)) = true).
  { induction l as [|a l IH]; intros s; [done|]. simpl.
    unfold dropRemoved at 2. simpl. destruct (bool_decide _); apply IH. }
  revert st. induction removed as [|a removed IH]; intros st; [done|]. simpl.
  unfold dropRemoved at 2 4. simpl. case_bool_decide as Hin.
  - rewrite Htrue. discriminate.
  - apply IH.
Qed.

Lemma newEpoch_lists_sample state removed (st : State) :
  lists_sample st → lists_sample (newEpoch state removed st).
Proof.
  intros Hst. unfold Gossip.newEpoch.
  set (st0 := mkState (m_selfId st) (m_computedSample st) (m_idsSample st) ∅ (events st)).
  pose proof (dropRemoved_untouched removed st0) as Hdrop.
  destruct (fold_left dropRemoved removed (st0, false)) as [st1 updated].
  simpl in Hdrop.
  assert (Hupd : Gossip.updateSample marshal_subscribe sample state st1
                 = (fst (updateSample state st1), snd (updateSample state st1)))
    by (by destruct (updateSample state st1)).
  destruct (updateSample state st1) as [st2 sampled] eqn:Hus.
  destruct sampled; simpl; [apply computeSample_lists_sample|].
  destruct updated; simpl; [apply computeSample_lists_sample|].
  rewrite Hdrop in Hus by done.
  unfold Gossip.updateSample in Hus.
  destruct (_ && _) in Hus; [discriminate|].
  injection Hus as <-. done.
Qed.

Lemma receiveMessage_lists_sample msg (st : State) :
  lists_sample st → lists_sample (receiveMessage msg st).
Proof.
  intros [Hnd Hset]. destruct msg as [subscriberId|bcastMessage]; simpl.
  - case_bool_decide as Hin; [done|]. split; simpl.
    + apply NoDup_app. split; [done|]. split; [|apply NoDup_singleton].
      intros x Hx Hx'. apply list_elem_of_singleton in Hx' as ->.
      apply Hin. rewrite <- Hset. by apply elem_of_list_to_set.
    + rewrite list_to_set_app_L, Hset. simpl.
      rewrite (right_id_L ∅ (∪)). apply (comm_L (∪)).
  - by case_bool_decide.
Qed.

(** X7.  From construction on, whatever the calls made, the list of peers
    that gossip forwards to ([m_computedSample]) holds exactly the
    identities of the sample set ([m_idsSample]), each once. *)
Theorem computed_sample_lists_the_sample_set (selfId : bytes)
    (calls : list (Call MLSMessage)) :
  lists_sample (run calls (create selfId)).
Proof.
  assert (Hrun : ∀ calls (st : State), lists_sample st → lists_sample (run calls st)).
  { clear calls. induction calls as [|c calls IH]; intros st Hst; [done|].
    apply IH. destruct c as [state|state removed|msg|msg]; simpl.
    - apply computeSample_lists_sample.
    - by apply newEpoch_lists_sample.
    - by apply receiveMessage_lists_sample.
    - done. }
  apply Hrun. split; [apply NoDup_nil_2 | done].
Qed.

(** Once a peer is in the computed sample, every forwarding within the
    epoch includes it. *)
Lemma receive_forwards_to (id : bytes) (msgs : list (GossipBcastMessage MLSMessage))
    (st : State) :
  id ∈ m_computedSample st →
  ∃ added,
    events (fold_left (λ st msg, receiveMessage msg st) msgs st) = events st ++ added
    ∧ Forall (λ recipients, id ∈ recipients) (forwarded_to added).
Proof.
  revert st. induction msgs as [|msg msgs IH]; intros st Hin.
  { exists []. by rewrite app_nil_r. }
  simpl.
  assert (Hstep : ∃ step,
             events (receiveMessage msg st) = events st ++ step
             ∧ Forall (λ recipients, id ∈ recipients) (forwarded_to step)
             ∧ id ∈ m_computedSample (receiveMessage msg st)).
  { destruct msg as [subscriberId|m]; simpl.
    - case_bool_decide.
      + exists []. by rewrite app_nil_r.
      + eexists. split; [done|]. split.
        * unfold forwarded_to.
          replace (omap _ _) with (@nil (list bytes)); [done|].
          by induction (sorted_values (m_received st)).
        * simpl. apply elem_of_app. by left.
    - case_bool_decide.
      + exists []. by rewrite app_nil_r.
      + eexists. split; [done|]. split; [|done].
        unfold forwarded_to. simpl. by constructor. }
  destruct Hstep as (step & Hev & Hfw & Hin').
  destruct (IH _ Hin') as (added & Hev' & Hfw').
  exists (step ++ added). split.
  - by rewrite Hev', Hev, app_assoc.
  - unfold forwarded_to in *. rewrite omap_app. by apply Forall_app.
Qed.

(** X8.  A SUBSCRIBE from a peer outside the sample set sends that peer
    every message received in the epoch, one per reference and in the order
    of the references, and from then on every message that the member
    forwards within the epoch goes to that peer as well. *)
Theorem subscriber_is_sent_the_epoch (subscriberId : bytes) (st : State)
    (msgs : list (GossipBcastMessage MLSMessage)) :
  subscriberId ∉ m_idsSample st →
  let st1 := receiveMessage (Subscribe subscriberId) st in
  events st1 = events st ++ (Send subscriberId <$> sorted_values (m_received st))
  ∧ length (sorted_values (m_received st)) = size (m_received st)
  ∧ m_received st1 = m_received st
  ∧ ∃ added,
      events (fold_left (λ st msg, receiveMessage msg st) msgs st1) = events st1 ++ added
      ∧ Forall (λ recipients, subscriberId ∈ recipients) (forwarded_to added).
Proof.
  intros Hout st1. subst st1. simpl. rewrite bool_decide_eq_false_2 by done.
  split; [done|]. split; [apply length_sorted_values|]. split; [done|].
  apply receive_forwards_to. simpl. apply elem_of_app. right. by apply list_elem_of_singleton.
Qed.

(** X9.  [newEpoch] with a sample set that is large enough (or holds as
    many identities as there are other members) and that none of the removed
    identities belongs to only clears the received set: nothing is sent and
    the sample stays as it is. *)
Theorem newEpoch_keeps_a_full_sample (state : ExtendedMLSState) (removed : list bytes)
    (st : State) :
  let members := MLSState.getMembersIdentity state true in
  (expectedMin (length members) ≤ size (m_idsSample st)
   ∨ length members ≤ size (m_idsSample st))%nat →
  Forall (λ id, id ∉ m_idsSample st) removed →
  newEpoch state removed st
  = mkState (m_selfId st) (m_computedSample st) (m_idsSample st) ∅ (events st).
Proof.
  intros members Hfull Hrem. unfold Gossip.newEpoch.
  set (st0 := mkState (m_selfId st) (m_computedSample st) (m_idsSample st) ∅ (events st)).
  assert (Hfold : fold_left dropRemoved removed (st0, false) = (st0, false)).
  { assert (Hids : m_idsSample st0 = m_idsSample st) by done.
    clearbody st0. induction Hrem as [|id removed Hid _ IH]; [done|]. simpl.
    unfold dropRemoved at 2. simpl. rewrite Hids.
    by rewrite bool_decide_eq_false_2. }
  rewrite Hfold. unfold Gossip.updateSample. fold members.
  replace ((size (m_idsSample st0) <? expectedMin (length members))%nat
           && (size (m_idsSample st0) <? length members)%nat) with false; [done|].
  symmetry. apply andb_false_iff. simpl.
  destruct Hfull; [left | right]; apply Nat.ltb_ge; lia.
Qed.

(** X10.  [dispatchMessage] forwards and delivers its message whether or not
    the reference is in the received set, where bytes recorded earlier are
    kept; afterwards a GOSSIP message with that reference changes nothing. *)
Theorem dispatchMessage_is_not_deduplicated (m : MLSMessage) (st : State) :
  let st' := dispatchMessage m st in
  events st'
  = events st ++ [BroadcastSample (m_computedSample st) (marshal_gossip m); Deliver m]
  ∧ (∀ recorded, m_received st !! ref m = Some recorded →
       m_received st' = m_received st)
  ∧ (∀ m', ref m' = ref m → receiveMessage (Gossip m') st' = st').
Proof.
  intros st'. subst st'. split; [done|]. split.
  - intros recorded Hrec. simpl. unfold CAC.insert_new. by rewrite Hrec.
  - intros m' Href. simpl. rewrite Href. rewrite bool_decide_eq_true_2; [done|].
    unfold CAC.insert_new. destruct (m_received st !! ref m) eqn:Hrec.
    + by rewrite Hrec.
    + by rewrite lookup_insert_eq.
Qed.

End Run.

Import GossipScenario.

Lemma subscriber_is_sent_the_epoch_witness :
  ([7] ∉ m_idsSample subscribed)
  ∧ ∃ added,
      events (fold_left
                (λ st msg, Gossip.receiveMessage (λ m : N, m) (λ m, [m]) msg st)
                [Gossip 5; Subscribe [8]; Gossip 6]
                (Gossip.receiveMessage (λ m : N, m) (λ m, [m]) (Subscribe [7]) subscribed))
      = events (Gossip.receiveMessage (λ m : N, m) (λ m, [m]) (Subscribe [7]) subscribed)
        ++ added
      ∧ Forall (λ recipients, [7] ∈ recipients) (forwarded_to added).
Proof.
  assert (Hout : [7] ∉ m_idsSample subscribed) by (vm_compute; set_solver).
  split; [exact Hout|].
  exact (proj2 (proj2 (proj2
    (subscriber_is_sent_the_epoch (λ m : N, m) (λ m, [m]) [7] subscribed
       [Gossip 5; Subscribe [8]; Gossip 6] Hout)))).
Defined.

Lemma newEpoch_keeps_a_full_sample_witness :
  MLSState.getMembersIdentity small_group true = [[1]; [2]]
  ∧ sorted_ids (m_idsSample after_small) = [[1]; [2]]
  ∧ new_epoch small_group [[3]] after_small
    = mkState [0] [[1]; [2]] (m_idsSample after_small) ∅ (events after_small).
Proof.
  split; [by vm_compute|]. split; [by vm_compute|].
  etrans; [apply (newEpoch_keeps_a_full_sample subscribe_message first_candidates
                    small_group [[3]] after_small)|].
  - right. vm_compute. lia.
  - constructor; [|constructor]. vm_compute. set_solver.
  - by vm_compute.
Defined.

End GossipRunProofs.

(** ** CAC broadcast: quorums, the message queue, the first signature *)

Module CACRunProofs.
Import CAC CACRun CACProofs.

Section Run.
Context `{MLSLibrary}.
Context {MessageT : Type}.
Variable ref : MessageT → MessageRef.
Variable default_message : MessageT.
Variable choice : list MessageT → MessageT.

#[local] Abbreviation State := (State MessageT).
#[local] Abbreviation receiveMessage := (receiveMessage ref default_message choice).
#[local] Abbreviation _receiveMessage := (_receiveMessage ref default_message choice).
#[local] Abbreviation validateMessage := (validateMessage ref default_message choice).
#[local] Abbreviation broadcast := (broadcast ref).
#[local] Abbreviation run := (run ref default_message choice).

(** X11.  With [k = 1] and a group of at least one and fewer than [2^31]
    members, [newEpoch] sets parameters with [n > 5t], so the guard of the two
    direct paths of [receivedWitness] holds; [1 <= qw <= qr <= n]; a witness
    quorum and a ready quorum, and two ready quorums, share at least [3t + 1]
    members; and the threshold [(n + t) / 2 + 1] of the READY on witnesses is
    at most [qr]. *)
Theorem newEpoch_quorums_overlap (state : ExtendedMLSState) (st0 : State) :
  k st0 = 1 →
  0 < N.of_nat (length (MLSState.getMembersIdentity state false)) < 2 ^ 31 →
  let st := newEpoch state st0 in
  (mul32 5 (t st) <? n st) = true
  ∧ 1 ≤ qw st ∧ qw st ≤ qr st ∧ qr st ≤ n st
  ∧ qw st + qr st = n st + (3 * t st + 1)
  ∧ n st + (3 * t st + 1) ≤ 2 * qr st
  ∧ add32 (add32 (n st) (t st) / 2) 1 ≤ qr st.
Proof.
  intros Hk Hn st.
  destruct (newEpoch_parameters state st0 Hk) as (_ & Hn' & Ht & Hqw & Hqr); [lia|].
  fold st in Hn', Ht, Hqw, Hqr.
  assert (Hlt : n st < 2 ^ 31) by (rewrite Hn'; lia).
  assert (Hpos : 0 < n st) by (rewrite Hn'; lia).
  assert (Ht5 : 5 * t st ≤ n st - 1) by (rewrite Ht; apply N.Div0.mul_div_le).
  assert (Hhalf : 2 * ((n st + t st) / 2) ≤ n st + t st) by apply N.Div0.mul_div_le.
  rewrite mul32_small by lia.
  rewrite (add32_small (n st)) by lia.
  rewrite add32_small by lia.
  clear Ht. clearbody st.
  split; [apply N.ltb_lt; lia|].
  assert (Hhalf' : (n st + t st) / 2 + 1 ≤ n st - t st).
  { assert ((n st + t st) / 2 < n st - t st); [|lia].
    apply N.Div0.div_lt_upper_bound. lia. }
  repeat split; lia.
Qed.

(** [countSignature] writes [m_signaturesCount] alone. *)
Lemma countSignature_only sig (st : State) :
  ∃ counts, countSignature sig st = set_m_signaturesCount counts st.
Proof.
  unfold countSignature.
  destruct (CACSignature.isWitness sig); [by eexists|].
  destruct (CACSignature.isReady sig); [by eexists|].
  exists (m_signaturesCount st). by destruct st.
Qed.

(** *** The message queue and its lock *)

Lemma countSignature_queue sig (st : State) :
  m_messageQueueLock (countSignature sig st) = m_messageQueueLock st
  ∧ m_messageQueue (countSignature sig st) = m_messageQueue st
  ∧ events (countSignature sig st) = events st.
Proof.
  unfold countSignature.
  destruct (CACSignature.isWitness sig); [done|].
  by destruct (CACSignature.isReady sig).
Qed.

Lemma processNewSig_queue sig (st : State) :
  m_messageQueueLock (processNewSig sig st) = m_messageQueueLock st
  ∧ m_messageQueue (processNewSig sig st) = m_messageQueue st
  ∧ events (processNewSig sig st) = events st.
Proof.
  unfold processNewSig. destruct (subscript 0 _ _) as [count sequences].
  match goal with
  | |- context [countSignature sig ?s] =>
      destruct (countSignature_queue sig s) as (-> & -> & ->)
  end.
  done.
Qed.

Lemma acceptSig_queue (sigs : list AuthenticatedContent) (acc acc' : State * _ * bool) :
  fold_left acceptSig sigs acc = acc' →
  m_messageQueueLock (fst (fst acc')) = m_messageQueueLock (fst (fst acc))
  ∧ m_messageQueue (fst (fst acc')) = m_messageQueue (fst (fst acc))
  ∧ events (fst (fst acc')) = events (fst (fst acc)).
Proof.
  revert acc. induction sigs as [|sig sigs IH]; intros acc Hfold.
  { simpl in Hfold. by subst acc'. }
  simpl in Hfold. apply IH in Hfold as (Hl & Hq & He).
  rewrite Hl, Hq, He. clear.
  destruct acc as [[st outOfOrder] thrown]. unfold acceptSig. simpl.
  destruct thrown; [done|].
  case_bool_decide; [done|].
  destruct (CACSignature.verifyAndConvert (m_state st) sig) as [[verifiedSig|]|];
    [|done|done].
  unfold inOrder.
  destruct (subscript 0 (CACSignature.sender verifiedSig) (m_sequences st))
    as [count sequences].
  destruct (_ <=? _); [|done]. simpl.
  apply (processNewSig_queue verifiedSig (set_m_sequences sequences st)).
Qed.

(** With the lock taken [receiveMessage] only appends to the queue. *)
Lemma receiveMessage_locked message (st : State) :
  m_messageQueueLock st = true →
  receiveMessage message st = (set_m_messageQueue (m_messageQueue st ++ [message]) st, false).
Proof. intros Hl. unfold CAC.receiveMessage. simpl. by rewrite Hl. Qed.

Lemma run_locked (calls : list (Call MessageT)) (st : State) :
  m_messageQueueLock st = true →
  m_messageQueueLock (run calls st) = true
  ∧ events (run calls st) = events st
  ∧ m_messageQueue (run calls st) = m_messageQueue st ++ received calls.
Proof.
  revert st. induction calls as [|c calls IH]; intros st Hl.
  { by rewrite app_nil_r. }
  assert (Hstep : run (c :: calls) st
                  = run calls (CACRun.call ref default_message choice st c)) by done.
  rewrite Hstep. clear Hstep.
  destruct c as [state|message]; cbn [CACRun.call received omap].
  - destruct (IH (newEpoch state st)) as (Hl' & He & Hq); [done|].
    by rewrite Hl', He, Hq.
  - rewrite (receiveMessage_locked message st Hl). cbn [fst].
    destruct (IH (set_m_messageQueue (m_messageQueue st ++ [message]) st))
      as (Hl' & He & Hq); [done|].
    rewrite Hl', He, Hq. simpl. by rewrite <- app_assoc.
Qed.

(** X12.  When an exception leaves [receiveMessage] (a signature of the
    message passes the checks of [verifyAndConvert] and its body does not
    decode), no callback has been called and the lock of the queue stays
    taken.  From then on, whatever the epochs started and the messages
    received, [receiveMessage] only stores the message in the queue: the lock
    is never released and no callback is called again. *)
Theorem lock_stays_taken_after_an_exception (message : CACMessage MessageT)
    (st : State) (later : list (Call MessageT)) :
  m_messageQueueLock st = false →
  m_messageQueue st = [] →
  snd (receiveMessage message st) = true →
  let st' := run later (fst (receiveMessage message st)) in
  m_messageQueueLock st' = true
  ∧ events st' = events st
  ∧ m_messageQueue st' = received later.
Proof.
  intros Hl Hq Hthrown st'. subst st'.
  unfold CAC.receiveMessage in *. simpl in *. rewrite Hl, Hq in *. simpl in *.
  set (st0 := set_m_messageQueue []
                (set_m_messageQueueLock true (set_m_messageQueue [message] st))) in *.
  unfold CAC._receiveMessage in *.
  set (st1 := match optBroadcastMessage message with
              | Some payload =>
                  set_m_messages (insert_new (ref payload) payload (m_messages st0)) st0
              | None => st0
              end) in *.
  assert (Hst1 : m_messageQueueLock st1 = true ∧ m_messageQueue st1 = []
                 ∧ events st1 = events st)
    by (subst st1; by destruct (optBroadcastMessage message)).
  pose proof (acceptSig_queue (sigs message) (st1, ∅, false) _ eq_refl) as Hfold.
  destruct (fold_left acceptSig (sigs message) (st1, ∅, false))
    as [[st2 outOfOrder] thrown].
  simpl in Hfold. destruct Hfold as (Hl2 & Hq2 & He2).
  destruct Hst1 as (Hl1 & Hq1 & He1).
  destruct thrown; simpl in *.
  - destruct (run_locked later st2) as (Hl' & He' & Hq'); [congruence|].
    rewrite Hl', He', Hq', Hq2, Hq1, He2, He1. done.
  - exfalso. revert Hthrown.
    destruct (isWitness message); simpl; [discriminate|].
    destruct (isReady message); simpl; discriminate.
Qed.


End Run.

Import ReferenceLibrary CACScenario CACRunScenario.

Lemma newEpoch_quorums_overlap_witness :
  n six_members = 6 ∧ t six_members = 1 ∧ qw six_members = 5 ∧ qr six_members = 5
  ∧ (mul32 5 (t six_members) <? n six_members) = true
  ∧ qw six_members + qr six_members = n six_members + (3 * t six_members + 1).
Proof.
  do 4 (split; [vm_compute; reflexivity|]).
  assert (Hsize : 0 < N.of_nat (length (MLSState.getMembersIdentity (group 6 0 0) false))
                  < 2 ^ 31) by (vm_compute; split; reflexivity).
  destruct (newEpoch_quorums_overlap (group 6 0 0)
              (CAC.mkState (group 6 0 0) 1 0 0 0 0 0 false false [] ∅ ∅ ∅ ∅ ∅ ∅ ∅ ∅ []
               : CAC.State N) eq_refl Hsize)
    as (Hguard & _ & _ & _ & Hsum & _).
  split; [exact Hguard | exact Hsum].
Defined.

Lemma lock_stays_taken_after_an_exception_witness :
  snd (receive malformed_witness three_members) = true
  ∧ m_messageQueueLock
      (run ref_of default_payload first_choice later_calls
         (fst (receive malformed_witness three_members))) = true
  ∧ events (run ref_of default_payload first_choice later_calls
              (fst (receive malformed_witness three_members))) = []
  ∧ m_messageQueue (run ref_of default_payload first_choice later_calls
                      (fst (receive malformed_witness three_members)))
    = received later_calls.
Proof.
  assert (Hthrown : snd (receive malformed_witness three_members) = true)
    by (vm_compute; reflexivity).
  assert (Hlock : m_messageQueueLock three_members = false) by (vm_compute; reflexivity).
  assert (Hqueue : m_messageQueue three_members = []) by (vm_compute; reflexivity).
  split; [exact Hthrown|].
  exact (lock_stays_taken_after_an_exception ref_of default_payload first_choice
           malformed_witness three_members later_calls Hlock Hqueue Hthrown).
Defined.


End CACRunProofs.

(** ** Restrained consensus: subsets, completion, termination *)

Module RCRunProofs.
Import RC RCRun.

(** *** [powerSet] *)

Lemma elem_of_powerSet {T} (l s : list T) : s ∈ powerSet l ↔ reverse s `sublist_of` l.
Proof.
  revert s. induction l as [|x l IH]; intros s; simpl.
  - rewrite list_elem_of_singleton, sublist_nil_r. split.
    + by intros ->.
    + intros Hr. apply (f_equal reverse) in Hr. by rewrite reverse_involutive in Hr.
  - rewrite elem_of_app, list_elem_of_fmap, sublist_cons_r, IH. split.
    + intros [Hs|(s' & -> & Hs')]; [by left|]. right.
      exists (reverse s'). rewrite reverse_app. split; [done|]. by apply IH.
    + intros [Hs|(k & Hk & Hsub)]; [by left|]. right.
      exists (reverse k). split.
      * apply (f_equal reverse) in Hk. rewrite reverse_involutive in Hk.
        by rewrite Hk, reverse_cons.
      * apply IH. by rewrite reverse_involutive.
Qed.

Lemma length_powerSet {T} (l : list T) : length (powerSet l) = (2 ^ length l)%nat.
Proof.
  induction l as [|x l IH]; [done|].
  simpl powerSet. rewrite length_app, length_fmap, IH. simpl. lia.
Qed.

(** The last subset is the whole input, reversed; the others are shorter. *)
Lemma powerSet_last {T} (l : list T) :
  ∃ front, powerSet l = front ++ [reverse l]
           ∧ Forall (λ s, length s < length l)%nat front.
Proof.
  induction l as [|x l (front & Hp & Hshort)].
  { by exists []. }
  exists (front ++ [reverse l] ++ ((λ s, s ++ [x]) <$> front)). split.
  - simpl. rewrite Hp, fmap_app, reverse_cons. simpl. by rewrite <- !app_assoc.
  - rewrite !Forall_app. split; [|split].
    + eapply Forall_impl; [exact Hshort|]. intros s Hs. cbn beta in Hs. cbn. lia.
    + constructor; [|done]. rewrite length_reverse. cbn. lia.
    + apply Forall_fmap. eapply Forall_impl; [exact Hshort|].
      intros s Hs. cbn beta in Hs. cbn. rewrite length_app. cbn. lia.
Qed.

(** X14.  [powerSet] lists the sub-vectors of its input, each with its
    elements in reverse order: [2^n] of them for an input of [n] elements,
    the empty one first and the whole input last. *)
Theorem powerSet_lists_the_subsets {T} (l : list T) :
  length (powerSet l) = (2 ^ length l)%nat
  ∧ (∀ s, s ∈ powerSet l ↔ reverse s `sublist_of` l)
  ∧ head (powerSet l) = Some []
  ∧ last (powerSet l) = Some (reverse l).
Proof.
  split; [apply length_powerSet|]. split; [intros s; apply elem_of_powerSet|]. split.
  - induction l as [|x l IH]; [done|]. simpl.
    destruct (powerSet l); [discriminate | by simplify_eq/=].
  - destruct (powerSet_last l) as (front & -> & _). apply last_snoc.
Qed.

Section Run.
Context `{MLSLibrary}.
Variable marshal_pairs : list (LeafIndex * MessageRef) → bytes.
Variable unmarshal_pairs : bytes → option (list (LeafIndex * MessageRef)).

#[local] Abbreviation propose := (propose marshal_pairs).
#[local] Abbreviation receiveMessage := (receiveMessage unmarshal_pairs).
#[local] Abbreviation handleRestrainedCons := (handleRestrainedCons unmarshal_pairs).
#[local] Abbreviation run := (run marshal_pairs unmarshal_pairs).
#[local] Abbreviation call := (call marshal_pairs unmarshal_pairs).

(** *** The search for the biggest subset *)

Lemma biggestStep_bound (bound : nat) (others : list (list (LeafIndex * MessageRef))) acc :
  (length (fst acc) ≤ bound)%nat →
  Forall (λ s, length s ≤ bound)%nat others →
  (length (fst (fold_left biggestStep others acc)) ≤ bound)%nat.
Proof.
  revert acc. induction others as [|elt others IH]; intros acc Hacc Hall; [done|].
  inversion_clear Hall as [|? ? Helt Hothers]. simpl. apply IH; [|done].
  unfold biggestStep. destruct (_ <? _)%nat; [done|]. by destruct (_ =? _)%nat.
Qed.

Lemma biggest_of_powerSet (conflictSet : list (LeafIndex * MessageRef)) first others :
  powerSet conflictSet = first :: others →
  fold_left biggestStep others (first, true) = (reverse conflictSet, true).
Proof.
  intros Hp. destruct (powerSet_last conflictSet) as (front & Hlast & Hshort).
  rewrite Hp in Hlast. destruct front as [|f front]; simpl in Hlast.
  - by injection Hlast as -> ->.
  - injection Hlast as -> ->. inversion_clear Hshort as [|? ? Hf Hfront].
    rewrite fold_left_app. simpl.
    assert (Hb : (length (fst (fold_left biggestStep front (f, true)))
                  ≤ length conflictSet - 1)%nat).
    { apply biggestStep_bound; [simpl; lia|].
      eapply Forall_impl; [exact Hfront|]. intros s Hs. simpl in Hs. lia. }
    set (acc := fold_left biggestStep front (f, true)) in *.
    unfold biggestStep. rewrite length_reverse.
    replace (_ <? _)%nat with true; [done|].
    symmetry. apply Nat.ltb_lt. lia.
Qed.

(** X15.  While no subset has been dropped from the power set of the
    conflict set, [checkCompletion] considers the whole conflict set alone:
    it decides on it exactly when as many members have signed it as it has
    pairs, and otherwise calls nothing; it does not end with bottom. *)
Theorem checkCompletion_decides_on_the_whole_conflict_set
    (conflictSet : list (LeafIndex * MessageRef)) (st : State) :
  m_powerSet st = powerSet conflictSet →
  let key : gset (LeafIndex * MessageRef) := list_to_set conflictSet in
  let sigs := default ∅ (m_signed st !! key) in
  let st' := checkCompletion st in
  if (size sigs =? length conflictSet)%nat then
    m_hasFinished st' = true
    ∧ events st'
      = events st
        ++ match m_timeout st with Some id => [UnregisterTimeout id] | None => [] end
        ++ [Decide (snd <$> reverse conflictSet) (sorted_values sigs) (m_retracted st)]
  else st' = set_m_signed (<[key := sigs]> (m_signed st)) st.
Proof.
  intros Hp key sigs st'. subst st'. unfold checkCompletion.
  destruct (m_powerSet st) as [|first others] eqn:Hps.
  { pose proof (length_powerSet conflictSet) as Hlen. rewrite <- Hp in Hlen.
    simpl in Hlen. pose proof (Nat.pow_nonzero 2 (length conflictSet)). lia. }
  rewrite (biggest_of_powerSet conflictSet first others) by done. cbn [negb].
  replace (list_to_set (reverse conflictSet) : gset (LeafIndex * MessageRef)) with key.
  2:{ subst key. apply set_eq. intros x.
      by rewrite !elem_of_list_to_set, elem_of_reverse. }
  fold sigs. rewrite length_reverse.
  destruct (size sigs =? length conflictSet)%nat; [|done].
  unfold resetTimeout, log. simpl. destruct (m_timeout st); simpl; [|done].
  split; [done|]. by rewrite <- app_assoc.
Qed.

(** *** What the functions write *)

Lemma resetTimeout_spec (st : State) :
  m_hasFinished (resetTimeout st) = m_hasFinished st
  ∧ m_retracted (resetTimeout st) = m_retracted st
  ∧ m_state (resetTimeout st) = m_state st
  ∧ ∃ added, events (resetTimeout st) = events st ++ added ∧ terminals added = 0%nat.
Proof.
  unfold resetTimeout. destruct (m_timeout st); simpl.
  - repeat split; try done. by eexists.
  - repeat split; try done. exists []. by rewrite app_nil_r.
Qed.

Lemma ends_once_refl (st : State) : ends_once st st.
Proof.
  split; [done|]. exists []. rewrite app_nil_r.
  split; [done|]. split; [done|]. split; [cbn; lia | discriminate].
Qed.

Lemma ends_once_trans (st1 st2 st3 : State) :
  ends_once st1 st2 → ends_once st2 st3 → ends_once st1 st3.
Proof.
  intros (Hs1 & a1 & He1 & Hf1 & Hle1 & Hfin1) (Hs2 & a2 & He2 & Hf2 & Hle2 & Hfin2).
  split; [congruence|]. exists (a1 ++ a2).
  assert (Ht : terminals (a1 ++ a2) = (terminals a1 + terminals a2)%nat).
  { unfold terminals. by rewrite filter_app, length_app. }
  rewrite Ht. split; [by rewrite He2, He1, app_assoc|]. split; [|split].
  - intros Hfin. destruct (Hf1 Hfin) as [Hfin' ->]. destruct (Hf2 Hfin') as [? ->]. done.
  - destruct (decide (terminals a1 = 1%nat)) as [Hone|Hnone]; [|lia].
    destruct (Hf2 (Hfin1 Hone)) as [_ ->]. lia.
  - intros Hsum. destruct (decide (terminals a1 = 1%nat)) as [Hone|Hnone].
    + by destruct (Hf2 (Hfin1 Hone)).
    + apply Hfin2. lia.
Qed.

(** A step that calls neither callback and leaves [m_hasFinished]. *)
Lemma ends_once_quiet (st st' : State) (added : list Event) :
  m_state st' = m_state st →
  m_hasFinished st' = m_hasFinished st →
  events st' = events st ++ added →
  terminals added = 0%nat →
  ends_once st st'.
Proof.
  intros Hs Hfin Hev Hnone. split; [done|]. exists added. rewrite Hnone, Hfin.
  split; [done|]. split; [done|]. split; [lia | discriminate].
Qed.

Lemma bottom_ends_once (st : State) : ends_once st (bottom st).
Proof.
  unfold bottom. destruct (m_hasFinished st) eqn:Hfin; [apply ends_once_refl|].
  destruct (resetTimeout_spec (set_m_hasFinished true st)) as (Hf & _ & Hs & added & He & Hn).
  split; [by simpl; rewrite Hs|].
  exists (added ++ [Bottom]). unfold log. simpl. rewrite He, Hfin. simpl.
  assert (Ht : terminals (added ++ [Bottom]) = 1%nat).
  { unfold terminals in *. rewrite filter_app, length_app, Hn. done. }
  rewrite Ht, Hf. split; [by rewrite <- app_assoc|].
  split; [discriminate|]. split; [lia | done].
Qed.

Lemma checkCompletion_ends_once (st : State) :
  m_hasFinished st = false → ends_once st (checkCompletion st).
Proof.
  intros Hfin. unfold checkCompletion.
  destruct (m_powerSet st) as [|first others]; [apply ends_once_refl|].
  destruct (fold_left biggestStep others (first, true)) as [biggest uniqueBiggest].
  destruct uniqueBiggest; simpl; [|apply bottom_ends_once].
  destruct (_ =? _)%nat.
  - match goal with
    | |- context [resetTimeout ?s] =>
        destruct (resetTimeout_spec s) as (Hf & _ & Hs & added & He & Hn)
    end.
    split; [by simpl; rewrite Hs|].
    eexists (added ++ [Decide _ _ _]). unfold log. simpl. rewrite He, Hfin, Hf. simpl.
    split; [by rewrite <- app_assoc|].
    assert (Ht : ∀ e, terminal e = true → terminals (added ++ [e]) = 1%nat).
    { intros e Hterm. unfold terminals in *. rewrite filter_app, length_app, Hn.
      rewrite filter_cons_True by done. done. }
    rewrite Ht by done. split; [discriminate|]. split; [lia | done].
  - by apply (ends_once_quiet _ _ []); [..|by rewrite app_nil_r|].
Qed.

Lemma recordSigned_fold (sender : LeafIndex)
    (signedSet : gmap (gset (LeafIndex * MessageRef)) AuthenticatedContent) (st : State) :
  ∃ signed,
    map_fold (λ signedElt sig st, recordSigned signedElt sender sig st) st signedSet
    = set_m_signed signed st.
Proof.
  apply (map_fold_weak_ind (λ r _, ∃ signed, r = set_m_signed signed st)).
  - exists (m_signed st). by destruct st.
  - intros elt sig m r _ [signed ->]. by eexists.
Qed.

Lemma handleRestrainedCons_ends_once content (st : State) :
  m_hasFinished st = false → ends_once st (fst (handleRestrainedCons content st)).
Proof.
  intros Hfin. unfold RC.handleRestrainedCons.
  destruct (convertProofs (m_state st) (proofs content)) as [[proofs|]|]; cbn [fst];
    [|apply bottom_ends_once|apply ends_once_refl].
  case_bool_decide; cbn [fst]; [apply bottom_ends_once|].
  destruct (sigSet content) as [|first rest]; cbn [fst]; [apply bottom_ends_once|].
  destruct (negb (from_member first)); cbn [fst]; [apply bottom_ends_once|].
  destruct (checkSigSet unmarshal_pairs (m_state st) first (leaf_of first) (first :: rest) ∅)
    as [signedSet|]; cbn [fst]; [|apply bottom_ends_once].
  destruct (m_hasDelivered st); cbn [fst].
  - destruct (recordSigned_fold (leaf_of first) signedSet st) as [signed ->].
    eapply ends_once_trans; [|apply checkCompletion_ends_once; done].
    by apply (ends_once_quiet _ _ []); [..|by rewrite app_nil_r|].
  - by eapply ends_once_quiet.
Qed.

Lemma handleRetract_ends_once retract (st : State) :
  m_hasFinished st = false → ends_once st (handleRetract retract st).
Proof.
  intros Hfin. unfold handleRetract.
  destruct (negb (from_member retract)); [apply ends_once_refl|].
  destruct (negb (ac_epoch retract =? epoch (m_state st))); [apply ends_once_refl|].
  destruct (negb (MLSOps.verify (m_state st) retract)); [apply ends_once_refl|].
  case_bool_decide; [apply ends_once_refl|].
  eapply ends_once_trans; [|apply checkCompletion_ends_once; done].
  by apply (ends_once_quiet _ _ []); [..|by rewrite app_nil_r|].
Qed.

Lemma signSubset_fold (st0 : State) (subsets : list (list (LeafIndex * MessageRef)))
    (acc : list AuthenticatedContent * State) :
  ∃ signed,
    snd (fold_left (signSubset marshal_pairs st0) subsets acc)
    = set_m_signed signed (snd acc).
Proof.
  revert acc. induction subsets as [|elt subsets IH]; intros acc; simpl.
  - exists (m_signed (snd acc)). by destruct (snd acc).
  - unfold signSubset at 2. case_bool_decide; [|apply IH].
    destruct (IH (fst acc ++ [MLSOps.sign (m_state st0) (marshal_pairs elt)],
                  recordSigned (list_to_set elt) (index (m_state st0))
                    (MLSOps.sign (m_state st0) (marshal_pairs elt)) (snd acc)))
      as [signed ->].
    by eexists.
Qed.

Lemma dropRetracted_fold (retracted : list AuthenticatedContent) (st : State) :
  ∃ subsets,
    fold_left (λ st retract, dropRetracted (leaf_of retract) st) retracted st
    = set_m_powerSet subsets st.
Proof.
  revert st. induction retracted as [|retract retracted IH]; intros st; simpl.
  - exists (m_powerSet st). by destruct st.
  - destruct (IH (dropRetracted (leaf_of retract) st)) as [subsets ->]. by eexists.
Qed.

(** What [propose] leaves when it runs. *)
Lemma propose_runs conflictSet sigs timeoutId (st : State) :
  m_retract st = false → m_hasDelivered st = false →
  let st' := propose conflictSet sigs timeoutId st in
  m_state st' = m_state st
  ∧ m_hasFinished st' = m_hasFinished st
  ∧ m_hasDelivered st' = true
  ∧ ∃ added, events st' = events st ++ added ∧ terminals added = 0%nat.
Proof.
  intros Hr Hd. unfold RC.propose. rewrite Hr, Hd. cbn [negb andb].
  match goal with
  | |- context [fold_left (signSubset marshal_pairs ?s0) ?l ?acc] =>
      destruct (signSubset_fold s0 l acc) as [signed Hsigned];
      destruct (fold_left (signSubset marshal_pairs s0) l acc) as [sigSet st1]
  end.
  simpl in Hsigned. subst st1.
  match goal with
  | |- context [fold_left ?f (m_retracted ?s) ?s] =>
      destruct (dropRetracted_fold (m_retracted s) s) as [subsets ->]
  end.
  cbn. repeat split; try done. eexists. split; [by rewrite <- app_assoc|done].
Qed.

Lemma call_ends_once (c : Call) (st : State) : ends_once st (call st c).
Proof.
  destruct c as [conflictSet sigs timeoutId|message|]; simpl.
  - destruct (m_retract st) eqn:Hr; [unfold RC.propose; rewrite Hr; apply ends_once_refl|].
    destruct (m_hasDelivered st) eqn:Hd;
      [unfold RC.propose; rewrite Hr, Hd; apply ends_once_refl|].
    destruct (propose_runs conflictSet sigs timeoutId st Hr Hd)
      as (Hs & Hfin & _ & added & Hev & Hnone).
    by eapply ends_once_quiet.
  - unfold RC.receiveMessage.
    destruct (m_hasFinished st) eqn:Hfin; [apply ends_once_refl|].
    destruct message as [content|retract]; simpl.
    + by apply handleRestrainedCons_ends_once.
    + by apply handleRetract_ends_once.
  - unfold timeout. eapply ends_once_trans; [|apply bottom_ends_once].
    by apply (ends_once_quiet _ _ []); [..|by rewrite app_nil_r|].
Qed.

(** X16.  Within an epoch, whatever the proposals made, the messages
    received and the expiries of the timer, the instance calls at most one of
    the decide and bottom callbacks, and none once it has finished; having
    called one it has finished and stays so. *)
Theorem instance_ends_at_most_once (calls : list Call) (st : State) :
  ∃ added,
    events (run calls st) = events st ++ added
    ∧ (terminals added ≤ 1)%nat
    ∧ (m_hasFinished st = true → terminals added = 0%nat)
    ∧ (terminals added = 1%nat ∨ m_hasFinished st = true →
         m_hasFinished (run calls st) = true).
Proof.
  assert (Hrun : ends_once st (run calls st)).
  { revert st. induction calls as [|c calls IH]; intros st; [apply ends_once_refl|].
    eapply ends_once_trans; [apply (call_ends_once c)|apply IH]. }
  destruct Hrun as (_ & added & Hev & Hfin & Hle & Hone).
  exists added. split; [done|]. split; [done|]. split; [intros Hf; by apply Hfin|].
  intros [Ht|Hf]; [by apply Hone | by apply Hfin].
Qed.

(** X17.  A member proposes once in an epoch: a second [propose], whatever
    its arguments, changes nothing and calls nothing; neither does a
    [propose] made after the member sent RETRACT. *)
Theorem propose_runs_once conflictSet sigs timeoutId conflictSet' sigs' timeoutId'
    (st : State) :
  propose conflictSet' sigs' timeoutId' (propose conflictSet sigs timeoutId st)
  = propose conflictSet sigs timeoutId st
  ∧ (m_retract st = true → propose conflictSet sigs timeoutId st = st).
Proof.
  split; [|by intros Hr; unfold RC.propose; rewrite Hr].
  destruct (m_retract st) eqn:Hr.
  { unfold RC.propose at 2 3. rewrite Hr. cbn [negb andb].
    unfold RC.propose. by rewrite Hr. }
  destruct (m_hasDelivered st) eqn:Hd.
  { unfold RC.propose at 2 3. rewrite Hr, Hd. cbn [negb andb].
    unfold RC.propose. by rewrite Hr, Hd. }
  destruct (propose_runs conflictSet sigs timeoutId st Hr Hd) as (_ & _ & Hd' & _).
  unfold RC.propose at 1. rewrite Hd'. by rewrite andb_false_r.
Qed.

Lemma checkCompletion_keeps (st : State) :
  m_state (checkCompletion st) = m_state st
  ∧ m_retracted (checkCompletion st) = m_retracted st.
Proof.
  unfold checkCompletion.
  destruct (m_powerSet st) as [|first others]; [done|].
  destruct (fold_left biggestStep others (first, true)) as [biggest uniqueBiggest].
  destruct uniqueBiggest; simpl.
  - destruct (_ =? _)%nat; [|done].
    match goal with
    | |- context [resetTimeout ?s] =>
        destruct (resetTimeout_spec s) as (_ & Hr & Hs & _)
    end.
    unfold log. simpl. by rewrite Hr, Hs.
  - unfold bottom. destruct (m_hasFinished st); [done|].
    destruct (resetTimeout_spec (set_m_hasFinished true st)) as (_ & Hr & Hs & _).
    unfold log. simpl. by rewrite Hr, Hs.
Qed.

(** X18.  [handleRetract] records a content that verifies, comes from a
    member and carries the current epoch as the retraction of its sender,
    whatever the data signed, and drops every subset that holds a pair of
    that member.  After it a retraction from the same sender, and so a
    replayed one, changes nothing. *)
Theorem handleRetract_records_a_sender_once (retract : AuthenticatedContent) (st : State) :
  from_member retract = true →
  ac_epoch retract = epoch (m_state st) →
  MLSOps.verify (m_state st) retract = true →
  Forall (λ retracted, ac_sender retracted ≠ ac_sender retract) (m_retracted st) →
  let st' := handleRetract retract st in
  st' = checkCompletion (dropRetracted (leaf_of retract)
                           (set_m_retracted (m_retracted st ++ [retract]) st))
  ∧ m_retracted st' = m_retracted st ++ [retract]
  ∧ ∀ again, ac_sender again = ac_sender retract → handleRetract again st' = st'.
Proof.
  intros Hm He Hv Hnew st'.
  assert (Hnone : ¬ Exists (λ retracted, ac_sender retracted = ac_sender retract)
                    (m_retracted st)).
  { intros Hex. apply Exists_exists in Hex as (x & Hx & Heq).
    rewrite Forall_forall in Hnew. by apply (Hnew x Hx). }
  assert (Hrun : st' = checkCompletion (dropRetracted (leaf_of retract)
                          (set_m_retracted (m_retracted st ++ [retract]) st))).
  { subst st'. unfold handleRetract. rewrite Hm, He, N.eqb_refl, Hv. cbn [negb].
    by rewrite bool_decide_eq_false_2. }
  assert (Hretracted : m_retracted st' = m_retracted st ++ [retract]).
  { rewrite Hrun.
    match goal with
    | |- context [checkCompletion ?s] => destruct (checkCompletion_keeps s) as [_ ->]
    end.
    done. }
  split; [done|]. split; [done|].
  intros again Hsender. unfold handleRetract.
  destruct (negb (from_member again)); [done|].
  destruct (negb (ac_epoch again =? epoch (m_state st'))); [done|].
  destruct (negb (MLSOps.verify (m_state st') again)); [done|].
  rewrite bool_decide_eq_true_2; [done|].
  rewrite Hretracted, Hsender. apply Exists_app. right. by constructor.
Qed.

End Run.

Import ReferenceLibrary RCScenario.

Lemma checkCompletion_decides_on_the_whole_conflict_set_witness :
  m_powerSet proposed = [[]; [(1, 1001)]; [(0, 1000)]; [(1, 1001); (0, 1000)]]
  ∧ size (default ∅ (m_signed proposed !! (list_to_set conflict : gset (N * N)))) = 1%nat
  ∧ events (checkCompletion proposed) = events proposed
  ∧ m_hasFinished (checkCompletion proposed) = false.
Proof.
  split; [vm_compute; reflexivity|]. split; [vm_compute; reflexivity|].
  assert (Hp : m_powerSet proposed = powerSet conflict) by (vm_compute; reflexivity).
  pose proof (checkCompletion_decides_on_the_whole_conflict_set conflict proposed Hp)
    as Hrun.
  cbv zeta in Hrun.
  assert (Hsize : (size (default ∅ (m_signed proposed
                                      !! (list_to_set conflict : gset (N * N))))
                   =? length conflict)%nat = false) by (vm_compute; reflexivity).
  rewrite Hsize in Hrun. rewrite Hrun. split; vm_compute; reflexivity.
Defined.

(** A content signed by member 1 whose data is not the string RETRACT. *)
Lemma handleRetract_records_a_sender_once_witness :
  ac_content (MLSOps.sign (group 3 1 0) [1; 2; 3]) = ApplicationData [1; 2; 3]
  ∧ m_retracted (handleRetract (MLSOps.sign (group 3 1 0) [1; 2; 3]) proposed)
    = [MLSOps.sign (group 3 1 0) [1; 2; 3]]
  ∧ m_powerSet (handleRetract (MLSOps.sign (group 3 1 0) [1; 2; 3]) proposed)
    = [[]; [(0, 1000)]].
Proof.
  split; [vm_compute; reflexivity|].
  assert (Hm : from_member (MLSOps.sign (group 3 1 0) [1; 2; 3]) = true)
    by (vm_compute; reflexivity).
  assert (He : ac_epoch (MLSOps.sign (group 3 1 0) [1; 2; 3]) = epoch (m_state proposed))
    by (vm_compute; reflexivity).
  assert (Hv : MLSOps.verify (m_state proposed) (MLSOps.sign (group 3 1 0) [1; 2; 3]) = true)
    by (vm_compute; reflexivity).
  assert (Hnew : Forall (λ retracted,
                           ac_sender retracted
                           ≠ ac_sender (MLSOps.sign (group 3 1 0) [1; 2; 3]))
                        (m_retracted proposed))
    by (vm_compute; constructor).
  destruct (handleRetract_records_a_sender_once
              (MLSOps.sign (group 3 1 0) [1; 2; 3]) proposed Hm He Hv Hnew)
    as (_ & Hretracted & _).
  split; [exact Hretracted | vm_compute; reflexivity].
Defined.

End RCRunProofs.

(** ** Full consensus: leaders, quorums, views *)

Module FullConsensusProofs.
Import FullConsensus.

(** *** The leader of a view *)

Lemma mod_add_cancel (c i j n : N) :
  i < n → j < n → (c + i) mod n = (c + j) mod n → i = j.
Proof.
  intros Hi Hj Heq.
  assert (Hn : n ≠ 0) by lia.
  pose proof (N.div_mod (c + i) n Hn) as Hdi.
  pose proof (N.div_mod (c + j) n Hn) as Hdj.
  pose proof (N.mod_lt (c + j) n Hn) as Hlt.
  rewrite Heq in Hdi.
  set (qi := (c + i) / n) in *. set (qj := (c + j) / n) in *.
  set (r := (c + j) mod n) in *.
  assert (qi = qj) by nia. subst. lia.
Qed.

Lemma lookup_nth {A} (l : list A) (i : nat) (d : A) :
  (i < length l)%nat → l !! i = Some (nth i l d).
Proof.
  intros Hlt. destruct (lookup_lt_is_Some_2 l i Hlt) as [x Hx].
  by rewrite (nth_lookup_Some _ _ d _ Hx).
Qed.

Section Leader.
Variable state : ExtendedMLSState.

#[local] Abbreviation members := (MLSState.getMembersIndexes state).
#[local] Abbreviation sorted := (merge_sort N.le (MLSState.getMembersIndexes state)).

Lemma sorted_members : sorted ≡ₚ members.
Proof. apply merge_sort_Permutation. Qed.

Lemma elem_of_sorted_members (x : LeafIndex) : x ∈ sorted ↔ x ∈ members.
Proof. by rewrite sorted_members. Qed.

Lemma leaderOf_small (view : N) :
  (0 < length members)%nat →
  N.of_nat (length members) < 2 ^ 32 →
  view + epoch state < 2 ^ 64 →
  leaderOf state view
  = nth (N.to_nat ((view + epoch state) mod N.of_nat (length members))) sorted 0.
Proof.
  intros Hpos Hsize Hsum. unfold leaderOf.
  rewrite (Permutation_length sorted_members).
  rewrite (N.mod_small (view + epoch state)) by done.
  rewrite (N.mod_small (_ mod _) (2 ^ 32)); [done|].
  etrans; [apply N.mod_lt; lia | done].
Qed.

(** X19.  Within an epoch the leader of a view is a member of the group,
    the leaders repeat with the number of members as period, and every member
    leads exactly one of as many consecutive views as there are members. *)
Theorem every_member_leads_in_turn (view : N) :
  NoDup members →
  (0 < length members)%nat →
  N.of_nat (length members) < 2 ^ 32 →
  view + epoch state + N.of_nat (length members) < 2 ^ 64 →
  leaderOf state view ∈ members
  ∧ leaderOf state (view + N.of_nat (length members)) = leaderOf state view
  ∧ (λ i, leaderOf state (view + N.of_nat i)) <$> seq 0 (length members) ≡ₚ members.
Proof.
  intros Hnodup Hpos Hsize Hsum.
  set (n := length members) in *.
  assert (Hlen : length sorted = n) by apply (Permutation_length sorted_members).
  assert (Hnd : NoDup sorted) by (by rewrite sorted_members).
  assert (Hsmall : ∀ i, (i ≤ n)%nat →
            leaderOf state (view + N.of_nat i)
            = nth (N.to_nat ((view + epoch state + N.of_nat i) mod N.of_nat n)) sorted 0).
  { intros i Hi. rewrite leaderOf_small by (done || lia).
    do 3 f_equal. lia. }
  assert (Hrange : ∀ x, (N.to_nat (x mod N.of_nat n) < length sorted)%nat).
  { intros x. rewrite Hlen. pose proof (N.mod_lt x (N.of_nat n)). lia. }
  assert (Hin : ∀ i, (i ≤ n)%nat → leaderOf state (view + N.of_nat i) ∈ members).
  { intros i Hi. rewrite Hsmall by done. apply elem_of_sorted_members.
    apply list_elem_of_lookup. eexists. apply lookup_nth. apply Hrange. }
  split; [|split].
  - specialize (Hin 0%nat). rewrite N.add_0_r in Hin. apply Hin. lia.
  - rewrite (Hsmall n) by done. specialize (Hsmall 0%nat).
    rewrite !N.add_0_r in Hsmall. rewrite Hsmall by lia.
    do 2 f_equal. rewrite <- (N.mul_1_l (N.of_nat n)) at 1.
    apply N.Div0.mod_add.
  - apply submseteq_length_Permutation; [|by rewrite length_fmap, length_seq].
    apply NoDup_submseteq.
    + apply NoDup_fmap_2_strong; [|apply NoDup_seq].
      intros i j Hi Hj Heq. apply elem_of_seq in Hi, Hj.
      rewrite !Hsmall in Heq by lia.
      assert (Hpos' : N.to_nat ((view + epoch state + N.of_nat i) mod N.of_nat n)
                      = N.to_nat ((view + epoch state + N.of_nat j) mod N.of_nat n)).
      { eapply NoDup_lookup; [exact Hnd | |].
        - apply lookup_nth. apply Hrange.
        - rewrite Heq. apply lookup_nth. apply Hrange. }
      apply N2Nat.inj in Hpos'.
      apply mod_add_cancel in Hpos'; lia.
    + intros x Hx. apply list_elem_of_fmap in Hx as (i & -> & Hi).
      apply elem_of_seq in Hi. apply Hin. lia.
Qed.

End Leader.

Section Instance.
Context `{MLSLibrary}.
Context {T : Type}.
Variable ref : T → MessageRef.
Variable default_value : T.
Variable marshal_content : FC.ConsensusMessageContent → bytes.
Variable unmarshal_content : bytes → option FC.ConsensusMessageContent.
Variable marshal_view : N → bytes.
Variable unmarshal_view : bytes → option N.

#[local] Abbreviation State := (State T).
#[local] Abbreviation receiveMessage :=
  (receiveMessage ref default_value marshal_content unmarshal_content unmarshal_view).
#[local] Abbreviation newView :=
  (newView ref default_value marshal_content unmarshal_content unmarshal_view).
#[local] Abbreviation handlePropose := (handlePropose ref marshal_content).
#[local] Abbreviation proposeCurrentValue := (proposeCurrentValue ref marshal_content).
#[local] Abbreviation propose := (propose ref marshal_content).
#[local] Abbreviation handlePrePrepare := (handlePrePrepare ref marshal_content).
#[local] Abbreviation handlePrepare := (handlePrepare marshal_content).
#[local] Abbreviation handleCommit := (handleCommit default_value).
#[local] Abbreviation getContentIfReady := (getContentIfReady unmarshal_content).
#[local] Abbreviation handleForwardTimeout := (handleForwardTimeout marshal_view).
#[local] Abbreviation expire := (expire marshal_view).
#[local] Abbreviation call :=
  (call ref default_value marshal_content unmarshal_content marshal_view unmarshal_view).
#[local] Abbreviation run :=
  (run ref default_value marshal_content unmarshal_content marshal_view unmarshal_view).

(** *** One COMMIT in a view *)

Lemma quiet_refl (st : State) : quiet st st.
Proof. split; [done|]. split; [done|]. exists []. by rewrite app_nil_r. Qed.

Lemma commitsSent_app (l k : list (Event T)) :
  commitsSent (l ++ k) = commitsSent l ++ commitsSent k.
Proof. apply omap_app. Qed.

Lemma quiet_trans (st1 st2 st3 : State) : quiet st1 st2 → quiet st2 st3 → quiet st1 st3.
Proof.
  intros (Hv1 & Hf1 & a1 & He1 & Hc1) (Hv2 & Hf2 & a2 & He2 & Hc2).
  split; [congruence|]. split; [congruence|]. exists (a1 ++ a2).
  split; [by rewrite He2, He1, app_assoc|]. by rewrite commitsSent_app, Hc1, Hc2.
Qed.

Lemma quiet_commits_once (st st' : State) : quiet st st' → commits_once st st'.
Proof.
  intros (Hv & Hf & added & He & Hc). split; [done|]. exists added.
  rewrite Hc, Hf. split; [done|]. split; [done|]. split; [simpl; lia | done].
Qed.

Lemma commits_once_trans (st1 st2 st3 : State) :
  commits_once st1 st2 → commits_once st2 st3 → commits_once st1 st3.
Proof.
  intros (Hv1 & a1 & He1 & Hf1 & Hle1 & Hs1) (Hv2 & a2 & He2 & Hf2 & Hle2 & Hs2).
  split; [congruence|]. exists (a1 ++ a2). rewrite commitsSent_app.
  split; [by rewrite He2, He1, app_assoc|]. split; [|split].
  - intros Hf. destruct (Hf1 Hf) as [Hf' ->]. destruct (Hf2 Hf') as [? ->]. done.
  - destruct (commitsSent a1) as [|c1 l1] eqn:Hc1; [done|].
    destruct (Hf2 (Hs1 ltac:(done))) as [_ ->]. by rewrite app_nil_r.
  - intros Hsent. destruct (commitsSent a1) as [|c1 l1] eqn:Hc1.
    + by apply Hs2.
    + by destruct (Hf2 (Hs1 ltac:(done))).
Qed.

(** A state that differs from [st] in fields other than the view and the
    flag, with [added] appended to the calls. *)
Ltac quiet_step :=
  split; [reflexivity|]; split; [reflexivity|];
  first [ exists []; split; [cbn; rewrite app_nil_r; reflexivity | reflexivity]
        | eexists; split; [cbn; rewrite <- ?app_assoc; reflexivity | reflexivity] ].

Lemma registerTimeout_quiet delay callback (st : State) :
  quiet st (snd (registerTimeout delay callback st)).
Proof. quiet_step. Qed.

Lemma resetTimers_quiet (st : State) : quiet st (resetTimers st).
Proof.
  unfold resetTimers.
  destruct (m_timeout st); cbn; destruct (m_forwardTimeout st); cbn;
    first [apply quiet_refl | quiet_step].
Qed.

Lemma handlePropose_quiet proposed (st : State) : quiet st (handlePropose proposed st).
Proof. unfold FullConsensus.handlePropose. cbn. destruct (_ && _); quiet_step. Qed.

Lemma proposeCurrentValue_quiet (st st0 : State) :
  quiet st (state_after st0 (proposeCurrentValue st)).
Proof.
  unfold FullConsensus.proposeCurrentValue.
  destruct (m_proposedMessage st) as [proposed|]; [|apply quiet_refl].
  destruct (_ =? _); cbn [state_after]; [apply handlePropose_quiet | quiet_step].
Qed.

Lemma propose_quiet proposedMessage (st : State) :
  quiet st (state_after st (propose proposedMessage st)).
Proof.
  unfold FullConsensus.propose.
  destruct (m_proposedMessage st); [apply quiet_refl|]. cbn [negb].
  destruct (negb _); [|quiet_step].
  eapply quiet_trans; [|apply proposeCurrentValue_quiet]. quiet_step.
Qed.

Lemma handlePrePrepare_quiet sender content proposed (st : State) :
  quiet st (handlePrePrepare sender content proposed st).
Proof.
  unfold FullConsensus.handlePrePrepare.
  destruct (_ || _); [apply quiet_refl|]. cbv zeta.
  set (st1 := set_m_messages (<[ref proposed := proposed]> (m_messages st)) st).
  assert (Hreset : quiet st (resetTimers st1)).
  { eapply quiet_trans; [|apply resetTimers_quiet]. quiet_step. }
  eapply quiet_trans; [exact Hreset|].
  destruct (negb _); [|apply quiet_refl]. quiet_step.
Qed.

Lemma handleCommit_quiet sender content (st : State) :
  quiet st (handleCommit sender content st).
Proof.
  unfold FullConsensus.handleCommit. cbn.
  destruct (_ <=? _); [|quiet_step].
  destruct (subscript _ _ _) as [value messages]. quiet_step.
Qed.

Lemma pushFuture_quiet view message (st : State) : quiet st (pushFuture view message st).
Proof. quiet_step. Qed.

Lemma handlePrepare_commits_once sender content (st : State) :
  commits_once st (handlePrepare sender content st).
Proof.
  unfold FullConsensus.handlePrepare. cbn.
  destruct (_ <=? _); cbn [andb]; [|apply quiet_commits_once; quiet_step].
  destruct (m_hasSentCommit st) eqn:Hflag; cbn [negb];
    [apply quiet_commits_once; split; [done|]; split; [by rewrite Hflag|];
     exists []; by rewrite app_nil_r|].
  match goal with
  | |- context [resetTimers ?s] =>
      destruct (resetTimers_quiet s) as (Hv & Hf & added & He & Hc)
  end.
  split; [by cbn; rewrite Hv|].
  eexists (added ++ [Broadcast (CommitMessage _)]). cbn. rewrite He, Hflag, Hf. cbn.
  rewrite commitsSent_app, Hc. cbn.
  split; [by rewrite <- app_assoc|]. split; [done|]. split; [lia | done].
Qed.

Lemma getContentIfReady_quiet authContent message (st : State) content st' :
  getContentIfReady authContent message st = Done content st' → quiet st st'.
Proof.
  unfold FullConsensus.getContentIfReady.
  destruct (negb _); [intros [= _ <-]; apply quiet_refl|].
  destruct (verifyAndExtract _ _ _) as [[extracted|]|];
    [|intros [= _ <-]; apply quiet_refl|discriminate].
  destruct (_ =? _); [intros [= _ <-]; apply quiet_refl|].
  destruct (_ <? _); intros [= _ <-]; [apply pushFuture_quiet | apply quiet_refl].
Qed.

Lemma getContentIfReady_raised authContent message (st st' : State) :
  getContentIfReady authContent message st = Raised st' → st' = st.
Proof.
  unfold FullConsensus.getContentIfReady.
  destruct (negb _); [discriminate|].
  destruct (verifyAndExtract _ _ _) as [[extracted|]|]; [|discriminate|by intros [= <-]].
  destruct (_ =? _); [discriminate|]. destruct (_ <? _); discriminate.
Qed.

Lemma getContentIfReady_fuel authContent message (st : State) :
  getContentIfReady authContent message st ≠ OutOfFuel.
Proof.
  unfold FullConsensus.getContentIfReady.
  destruct (negb _); [discriminate|].
  destruct (verifyAndExtract _ _ _) as [[extracted|]|]; try discriminate.
  destruct (_ =? _); [discriminate|]. destruct (_ <? _); discriminate.
Qed.

(** A handler run on the content that [getContentIfReady] returns. *)
Lemma handled_commits_once authContent message
    (handle : LeafIndex → FC.ConsensusMessageContent → State → State) (st : State) :
  (∀ sender content s, commits_once s (handle sender content s)) →
  commits_once st
    (state_after st
       (bind (getContentIfReady authContent message st)
             (λ content st,
                match content with
                | Some (sender, content) => Done () (handle sender content st)
                | None => Done () st
                end))).
Proof.
  intros Hhandle.
  destruct (getContentIfReady authContent message st) as [content st'|st'|] eqn:Hget;
    cbn [bind state_after].
  - apply getContentIfReady_quiet in Hget.
    destruct content as [[sender content]|]; cbn [state_after].
    + eapply commits_once_trans; [by apply quiet_commits_once|apply Hhandle].
    + by apply quiet_commits_once.
  - apply getContentIfReady_raised in Hget as ->. apply quiet_commits_once, quiet_refl.
  - apply quiet_commits_once, quiet_refl.
Qed.

Lemma call_commits_once (fuel : nat) (c : Call T) (st : State) :
  isViewChange c = false → commits_once st (call (S fuel) st c).
Proof.
  intros Hc. destruct c as [proposedMessage|message|callback]; unfold FullConsensus.call.
  - apply quiet_commits_once, propose_quiet.
  - cbn [FullConsensus.receiveMessage].
    destruct message as [view content|signed proposed|signed|signed|viewChange];
      [| | | |discriminate]; unfold receiveMessage_with.
    + apply quiet_commits_once.
      destruct (_ =? _); cbn [state_after]; [apply handlePropose_quiet|].
      destruct (_ <? _); cbn [state_after]; [apply pushFuture_quiet | apply quiet_refl].
    + apply (handled_commits_once signed _
               (λ sender content, handlePrePrepare sender content proposed)).
      intros. apply quiet_commits_once, handlePrePrepare_quiet.
    + apply (handled_commits_once signed _ handlePrepare).
      intros. apply handlePrepare_commits_once.
    + apply (handled_commits_once signed _ handleCommit).
      intros. apply quiet_commits_once, handleCommit_quiet.
  - apply quiet_commits_once. destruct callback; cbn [FullConsensus.expire state_after].
    + unfold handleProposeTimeout. cbn.
      destruct (m_prePreparedMessage st); [quiet_step|].
      destruct (m_proposedMessage st); quiet_step.
    + quiet_step.
Qed.

(** X20.  While the view stays (no VIEW_CHANGE is received), whatever the
    proposals made, the messages received and the timers that expire, the
    member broadcasts at most one COMMIT message, and none if it had sent one
    in this view. *)
Theorem commit_is_sent_once_in_a_view (fuel : nat) (calls : list (Call T)) (st : State) :
  Forall (λ c, isViewChange c = false) calls →
  let st' := run (S fuel) calls st in
  m_currentView st' = m_currentView st
  ∧ ∃ added,
      events st' = events st ++ added
      ∧ (length (commitsSent added) ≤ 1)%nat
      ∧ (m_hasSentCommit st = true → commitsSent added = [])
      ∧ (commitsSent added ≠ [] → m_hasSentCommit st' = true).
Proof.
  intros Hcalls st'. subst st'.
  assert (Hrun : commits_once st (run (S fuel) calls st)).
  { revert st. induction Hcalls as [|c calls Hc _ IH]; intros st.
    - apply quiet_commits_once, quiet_refl.
    - eapply commits_once_trans; [apply (call_commits_once fuel c st Hc) | apply IH]. }
  destruct Hrun as (Hv & added & He & Hf & Hle & Hs).
  split; [done|]. exists added. split; [done|]. split; [done|].
  split; [intros Hflag; by apply Hf | done].
Qed.

(** *** VIEW_CHANGE messages received ahead of their view *)

Lemma resetTimers_futureMessages (queues : gmap N (list (ConsensusMessage T))) (st : State) :
  resetTimers (set_m_futureMessages queues st)
  = set_m_futureMessages queues (resetTimers st).
Proof.
  unfold resetTimers. cbn.
  destruct (m_timeout st); cbn; by destruct (m_forwardTimeout st).
Qed.

Lemma resetTimers_keeps (st : State) :
  m_futureMessages (resetTimers st) = m_futureMessages st
  ∧ m_state (resetTimers st) = m_state st
  ∧ m_currentView (resetTimers st) = m_currentView st.
Proof.
  unfold resetTimers.
  destruct (m_timeout st); cbn; by destruct (m_forwardTimeout st).
Qed.

(** A VIEW_CHANGE for the current view is ignored. *)
Lemma receiveMessage_current_view_change (fuel : nat) viewChange (st : State) :
  m_currentView st < 2 ^ 32 →
  verifyAndExtract unmarshal_view (m_state st) viewChange
  = Returned (Some (m_currentView st)) →
  receiveMessage (S fuel) (ViewChange viewChange) st = Done () st.
Proof.
  intros Hview Hextract. cbn [FullConsensus.receiveMessage receiveMessage_with].
  destruct (negb _); [done|]. rewrite Hextract.
  replace (m_currentView st =? CAC.add32 (m_currentView st) 1) with false.
  2:{ symmetry. apply N.eqb_neq. unfold CAC.add32.
      destruct (decide (m_currentView st + 1 < 2 ^ 32)) as [Hsmall|Hlarge].
      - rewrite N.mod_small by done. lia.
      - replace (m_currentView st + 1) with (2 ^ 32) by lia.
        rewrite N.Div0.mod_same. lia. }
  by rewrite N.ltb_irrefl.
Qed.

Lemma drain_view_changes (fuel : nat) (view : N)
    (queue : list (ConsensusMessage T)) (steps : nat) (st : State) :
  view < 2 ^ 32 →
  m_currentView st = view →
  m_futureMessages st !! view = Some queue →
  Forall (λ message,
            ∃ viewChange,
              message = ViewChange viewChange
              ∧ verifyAndExtract unmarshal_view (m_state st) viewChange
                = Returned (Some view)) queue →
  (length queue < steps)%nat →
  drain (receiveMessage (S fuel)) steps view st
  = Done () (set_m_futureMessages (<[view := []]> (m_futureMessages st)) st).
Proof.
  intros Hsmall. revert steps st.
  induction queue as [|message queue IH]; intros steps st Hview Hqueue Hall Hsteps;
    (destruct steps as [|steps]; [simpl in Hsteps; lia|]);
    cbn [drain]; unfold subscript; rewrite Hqueue.
  - by rewrite insert_id.
  - inversion_clear Hall as [|? ? (viewChange & -> & Hextract) Hrest].
    set (st' := set_m_futureMessages (<[view := queue]> (m_futureMessages st))
                  (set_m_futureMessages (m_futureMessages st) st)).
    rewrite (receiveMessage_current_view_change fuel viewChange st')
      by (cbn; by rewrite ?Hview).
    cbn [bind]. rewrite (IH steps st'); [|done|by cbn; rewrite lookup_insert_eq|done|
                                         simpl in Hsteps; lia].
    cbn. by rewrite insert_insert_eq.
Qed.

(** X21.  VIEW_CHANGE messages for a view beyond the next one are kept in
    the queue of that view and, when [newView] starts the view, taken from
    the queue and ignored: none of them is counted, and the view starts as
    if its queue had been empty. *)
Theorem queued_view_changes_are_dropped (fuel : nat) (view : N) (st : State)
    (queue : list (ConsensusMessage T)) :
  view < 2 ^ 32 →
  m_futureMessages st !! view = Some queue →
  Forall (λ message,
            ∃ viewChange,
              message = ViewChange viewChange
              ∧ verifyAndExtract unmarshal_view (m_state st) viewChange
                = Returned (Some view)) queue →
  (length queue < fuel)%nat →
  newView fuel view st
  = newView fuel view (set_m_futureMessages (<[view := []]> (m_futureMessages st)) st).
Proof.
  intros Hsmall Hqueue Hall Hfuel.
  destruct fuel as [|fuel]; [lia|].
  unfold FullConsensus.newView, newView_with. cbv zeta.
  match goal with
  | |- bind (drain _ _ _ (resetTimers ?s)) _ = bind (drain _ _ _ (resetTimers ?s')) _ =>
      set (st0 := s);
      change s' with (set_m_futureMessages (<[view := []]> (m_futureMessages st)) st0)
  end.
  rewrite resetTimers_futureMessages.
  set (st1 := resetTimers st0).
  assert (Hst1 : m_futureMessages st1 = m_futureMessages st ∧ m_state st1 = m_state st
                 ∧ m_currentView st1 = view).
  { subst st1. by destruct (resetTimers_keeps st0) as (-> & -> & ->). }
  destruct Hst1 as (Hfm & Hstate & Hview).
  rewrite (drain_view_changes fuel view queue (S fuel) st1);
    [|done|done|by rewrite Hfm|by rewrite Hstate|lia].
  rewrite (drain_view_changes fuel view [] (S fuel)
             (set_m_futureMessages (<[view := []]> (m_futureMessages st)) st1));
    [|done|done|by cbn; rewrite lookup_insert_eq|done|simpl; lia].
  cbn [bind]. rewrite Hfm.
  replace (set_m_futureMessages
             (<[view := []]>
                (m_futureMessages
                   (set_m_futureMessages (<[view := []]> (m_futureMessages st)) st1)))
             (set_m_futureMessages (<[view := []]> (m_futureMessages st)) st1))
    with (set_m_futureMessages (<[view := []]> (m_futureMessages st)) st1); [done|].
  cbn. by rewrite insert_insert_eq.
Qed.

End Instance.

(** *** Quorums *)

Lemma size_intersection_bound (members A B : gset LeafIndex) :
  A ⊆ members → B ⊆ members →
  (size A + size B ≤ size members + size (A ∩ B))%nat.
Proof.
  intros HA HB.
  assert (Hunion : (size (A ∪ B) ≤ size members)%nat)
    by (apply subseteq_size; set_solver).
  rewrite size_union_alt in Hunion.
  assert (Hsplit : size B = (size (B ∖ A) + size (A ∩ B))%nat).
  { rewrite <- size_union by set_solver. f_equal. apply set_eq. intros x.
    rewrite elem_of_union, elem_of_difference, elem_of_intersection.
    destruct (decide (x ∈ A)); naive_solver. }
  lia.
Qed.

Lemma size_list_to_set_le (l : list LeafIndex) :
  (size (list_to_set l : gset LeafIndex) ≤ length l)%nat.
Proof.
  induction l as [|x l IH]; [done|]. simpl.
  rewrite size_union_alt, size_singleton.
  assert (size (list_to_set l ∖ {[x]} : gset LeafIndex)
          ≤ size (list_to_set l : gset LeafIndex))%nat
    by (apply subseteq_size; set_solver).
  lia.
Qed.

Lemma length_members (state : ExtendedMLSState) :
  length (MLSState.getMembersIdentity state false)
  = length (MLSState.getMembersIndexes state).
Proof.
  unfold MLSState.getMembersIdentity, MLSState.getMembersIndexes.
  rewrite !length_fmap. f_equal.
  induction (leaves state) as [|leaf l IH]; [done|].
  rewrite filter_cons_True by done. by f_equal.
Qed.

(** X22.  With [f = (n - 1) / 3] for [n] members, as [newEpoch] sets it,
    the quorum [2f + 1] is at most [n], and two sets of members of quorum
    size share at least [f + 1 - (n - 1) mod 3] members: more than [f] when
    [n = 3f + 1], and possibly only [f], or [f - 1], members otherwise. *)
Theorem commit_quorums_overlap {T : Type} (state : ExtendedMLSState) (A B : gset LeafIndex) :
  let members : gset LeafIndex := list_to_set (MLSState.getMembersIndexes state) in
  let n := N.of_nat (length (MLSState.getMembersIdentity state false)) in
  let st := FC.start (T := T) state in
  0 < n < 2 ^ 32 →
  A ⊆ members → B ⊆ members →
  FC.quorum st ≤ N.of_nat (size A) → FC.quorum st ≤ N.of_nat (size B) →
  FC.f st = (n - 1) / 3
  ∧ FC.quorum st = 2 * FC.f st + 1
  ∧ FC.quorum st ≤ n
  ∧ FC.f st + 1 ≤ N.of_nat (size (A ∩ B)) + (n - 1) mod 3.
Proof.
  intros members n st Hn HA HB.
  assert (Hmembers : (size members ≤ N.to_nat n)%nat).
  { subst members n. rewrite Nat2N.id, length_members. apply size_list_to_set_le. }
  pose proof (size_intersection_bound members A B HA HB) as Hshare.
  assert (Hf : FC.f st = (n - 1) / 3).
  { subst st. unfold FC.start. cbn. fold n.
    rewrite (N.mod_small n) by lia. by rewrite CACProofs.sub32_small by lia. }
  pose proof (N.div_mod (n - 1) 3 ltac:(done)) as Hdiv.
  pose proof (N.mod_lt (n - 1) 3 ltac:(done)) as Hmod.
  set (f := (n - 1) / 3) in *. set (r := (n - 1) mod 3) in *.
  assert (Hq : FC.quorum st = 2 * FC.f st + 1).
  { unfold FC.quorum. rewrite Hf.
    rewrite CACProofs.mul32_small by lia. by rewrite CACProofs.add32_small by lia. }
  rewrite Hq, Hf. clear Hq Hf. clearbody st members f r.
  intros HqA HqB. repeat split; lia.
Qed.

Import ReferenceLibrary FullConsensusScenario.

Lemma every_member_leads_in_turn_witness :
  (λ i, leaderOf (group 4 0 1) (2 + N.of_nat i)) <$> seq 0 4 = [3; 0; 1; 2]
  ∧ leaderOf (group 4 0 1) (2 + 4) = leaderOf (group 4 0 1) 2.
Proof.
  split; [vm_compute; reflexivity|].
  assert (Hnodup : NoDup (MLSState.getMembersIndexes (group 4 0 1)))
    by (apply (bool_decide_unpack _); vm_compute; exact I).
  assert (Hpos : (0 < length (MLSState.getMembersIndexes (group 4 0 1)))%nat)
    by (vm_compute; lia).
  assert (Hsize : N.of_nat (length (MLSState.getMembersIndexes (group 4 0 1))) < 2 ^ 32)
    by (vm_compute; reflexivity).
  assert (Hsum : 2 + epoch (group 4 0 1)
                 + N.of_nat (length (MLSState.getMembersIndexes (group 4 0 1))) < 2 ^ 64)
    by (vm_compute; reflexivity).
  exact (proj1 (proj2 (every_member_leads_in_turn (group 4 0 1) 2 Hnodup Hpos Hsize Hsum))).
Defined.

Lemma commit_is_sent_once_in_a_view_witness :
  commitsSent (events (run ref_of 0 encode_content decode_content encode_view decode_view
                           2 prepares started))
  = [MLSOps.sign (group 4 0 0) (encode_content (FC.mkContent 0 (ref_of 42)))]
  ∧ ∃ added,
      events (run ref_of 0 encode_content decode_content encode_view decode_view
                  2 prepares started)
      = events started ++ added
      ∧ (length (commitsSent added) ≤ 1)%nat.
Proof.
  split; [vm_compute; reflexivity|].
  assert (Hcalls : Forall (λ c, isViewChange c = false) prepares)
    by (repeat constructor).
  destruct (commit_is_sent_once_in_a_view ref_of 0 encode_content decode_content
              encode_view decode_view 1 prepares started Hcalls)
    as (_ & added & Hev & Hle & _).
  exists added. by split.
Defined.

Lemma queued_view_changes_are_dropped_witness :
  m_currentView early_view_changes = 0
  ∧ m_futureMessages early_view_changes !! 2
    = Some [view_change_of 1 2; view_change_of 2 2; view_change_of 3 2]
  ∧ newView ref_of 0 encode_content decode_content decode_view 4 2 early_view_changes
    = newView ref_of 0 encode_content decode_content decode_view 4 2
        (set_m_futureMessages (<[2 := []]> (m_futureMessages early_view_changes))
                              early_view_changes).
Proof.
  split; [vm_compute; reflexivity|].
  assert (Hqueue : m_futureMessages early_view_changes !! 2
                   = Some [view_change_of 1 2; view_change_of 2 2; view_change_of 3 2])
    by (vm_compute; reflexivity).
  split; [exact Hqueue|].
  apply (queued_view_changes_are_dropped ref_of 0 encode_content decode_content decode_view
           4 2 early_view_changes _ ltac:(vm_compute; reflexivity) Hqueue);
    [|simpl; lia].
  repeat constructor; eexists; (split; [reflexivity | vm_compute; reflexivity]).
Defined.

(** In a group of five ([f = 1], quorum 3) two quorums can share a single
    member. *)
Lemma commit_quorums_overlap_witness :
  FC.f (FC.start (T := N) (group 5 0 0)) = 1
  ∧ FC.quorum (FC.start (T := N) (group 5 0 0)) = 3
  ∧ size (({[0; 1; 2]} : gset N) ∩ {[2; 3; 4]}) = 1%nat
  ∧ FC.f (FC.start (T := N) (group 5 0 0)) + 1
    ≤ N.of_nat (size (({[0; 1; 2]} : gset N) ∩ {[2; 3; 4]})) + (5 - 1) mod 3.
Proof.
  split; [vm_compute; reflexivity|]. split; [vm_compute; reflexivity|].
  split; [vm_compute; reflexivity|].
  assert (Hn : 0 < N.of_nat (length (MLSState.getMembersIdentity (group 5 0 0) false))
               < 2 ^ 32) by (vm_compute; split; reflexivity).
  assert (Hmembers : MLSState.getMembersIndexes (group 5 0 0) = [0; 1; 2; 3; 4])
    by (vm_compute; reflexivity).
  assert (HA : ({[0; 1; 2]} : gset N)
               ⊆ list_to_set (MLSState.getMembersIndexes (group 5 0 0)))
    by (rewrite Hmembers; set_solver).
  assert (HB : ({[2; 3; 4]} : gset N)
               ⊆ list_to_set (MLSState.getMembersIndexes (group 5 0 0)))
    by (rewrite Hmembers; set_solver).
  assert (HqA : FC.quorum (FC.start (T := N) (group 5 0 0))
                ≤ N.of_nat (size ({[0; 1; 2]} : gset N))) by (vm_compute; discriminate).
  assert (HqB : FC.quorum (FC.start (T := N) (group 5 0 0))
                ≤ N.of_nat (size ({[2; 3; 4]} : gset N))) by (vm_compute; discriminate).
  exact (proj2 (proj2 (proj2
    (commit_quorums_overlap (T := N) (group 5 0 0) {[0; 1; 2]} {[2; 3; 4]}
       Hn HA HB HqA HqB)))).
Defined.

End FullConsensusProofs.

(** ** The delivery-service engine: commits and their proposals *)

Module DDSEngineProofs.
Import DDS DDSNotions.

Section Unlock.
Context {MLSMessage CascadeConsensusMessage Welcome : Type}.
Variable epoch_of : MLSMessage → Epoch.
Variable proposal_content : ExtendedMLSState → MLSMessage → option N.
Variable application_content : ExtendedMLSState → MLSMessage → option bytes.

#[local] Abbreviation State := (State MLSMessage CascadeConsensusMessage Welcome).
#[local] Abbreviation Run := (Run MLSMessage CascadeConsensusMessage Welcome).
#[local] Abbreviation handleProposal :=
  (handleProposal (CascadeConsensusMessage := CascadeConsensusMessage)
                  (Welcome := Welcome) epoch_of proposal_content application_content).

Lemma last_awaited (newRef : N) (remaining : gset N) :
  newRef ∈ remaining → (remaining ∖ {[newRef]} = ∅ ↔ remaining = {[newRef]}).
Proof.
  intros Hin. split; intros Heq.
  - apply set_eq. intros x. rewrite elem_of_singleton. split; [|by intros ->].
    intros Hx. destruct (decide (x = newRef)) as [|Hne]; [done|].
    assert (Hd : x ∈ remaining ∖ {[newRef]}).
    { apply elem_of_difference. split; [done|]. by rewrite elem_of_singleton. }
    rewrite Heq in Hd. by apply elem_of_empty in Hd.
  - rewrite Heq. apply set_eq. intros x.
    rewrite elem_of_difference, elem_of_singleton. split; [by intros [? ?]|].
    intros Hx. by apply elem_of_empty in Hx.
Qed.

Lemma without_absent (newRef : N) (entry : MLSMessage * gset N) :
  newRef ∉ snd entry → without newRef entry = entry.
Proof.
  intros Hout. destruct entry as [message remaining]. unfold without. simpl in *.
  f_equal. apply set_eq. intros x. rewrite elem_of_difference, elem_of_singleton.
  split; [by intros [? ?]|]. intros Hx. split; [done|]. by intros ->.
Qed.

(** The loop of [lookUnlockCommits] goes through the entries until one
    waits for [newRef] alone. *)
Lemma unlock_spec (newRef : N) (entries : list (MLSMessage * gset N)) :
  (Forall (λ entry, snd entry ≠ {[newRef]}) entries
   ∧ unlock newRef entries = (without newRef <$> entries, false))
  ∨ (∃ before entry after,
       entries = before ++ entry :: after
       ∧ Forall (λ entry, snd entry ≠ {[newRef]}) before
       ∧ snd entry = {[newRef]}
       ∧ unlock newRef entries = ((without newRef <$> before) ++ after, true)).
Proof.
  induction entries as [|entry entries IH]; [by left|].
  cbn [unlock]. case_bool_decide as Hin.
  - case_bool_decide as Hlast.
    + right. exists [], entry, entries. apply last_awaited in Hlast; done.
    + assert (Hne : snd entry ≠ {[newRef]}) by (by rewrite <- last_awaited).
      destruct IH as [[Hall ->]|(before & e & after & -> & Hall & He & ->)].
      * left. split; [by constructor|done].
      * right. exists (entry :: before), e, after. repeat split; try done.
        by constructor.
  - assert (Hne : snd entry ≠ {[newRef]}).
    { intros Heq. apply Hin. rewrite Heq. by apply elem_of_singleton. }
    destruct IH as [[Hall ->]|(before & e & after & -> & Hall & He & ->)].
    + left. split; [by constructor|]. cbn. by rewrite without_absent.
    + right. exists (entry :: before), e, after. repeat split; try done.
      * by constructor.
      * cbn. by rewrite without_absent.
Qed.

(** X23.  A valid proposal is handed to the client and recorded, and its
    reference is taken from what the stored commits wait for.  Where no
    stored commit waits for it alone the call returns.  Where one does, the
    loop erases that commit from [m_incompleteCommits] and then reads the
    erased entry to validate it: the behaviour is undefined, with the entries
    behind that commit not examined. *)
Theorem last_awaited_proposal_erases_the_commit_it_completes (message : MLSMessage)
    (st : State) (s : ExtendedMLSState) (proposalRef : N) :
  state st = Some s →
  isValidProposal epoch_of proposal_content s message = Some proposalRef →
  let delivered :=
    set_m_receivedProposals ({[proposalRef]} ∪ m_receivedProposals st)
                            (log (DeliverProposalOrMessage message) st) in
  (Forall (λ entry, snd entry ≠ {[proposalRef]}) (m_incompleteCommits st)
   ∧ handleProposal message st
     = Done (set_m_incompleteCommits (without proposalRef <$> m_incompleteCommits st)
                                     delivered))
  ∨ (∃ before entry after,
       m_incompleteCommits st = before ++ entry :: after
       ∧ Forall (λ entry, snd entry ≠ {[proposalRef]}) before
       ∧ snd entry = {[proposalRef]}
       ∧ handleProposal message st
         = Undefined (set_m_incompleteCommits ((without proposalRef <$> before) ++ after)
                                              delivered)).
Proof.
  intros Hs Hvalid delivered.
  assert (Hrun : handleProposal message st = lookUnlockCommits proposalRef delivered).
  { unfold DDS.handleProposal. by rewrite Hs, Hvalid. }
  rewrite Hrun. unfold lookUnlockCommits.
  assert (Hentries : m_incompleteCommits delivered = m_incompleteCommits st) by done.
  rewrite Hentries.
  destruct (unlock_spec proposalRef (m_incompleteCommits st))
    as [[Hall ->]|(before & entry & after & Heq & Hall & He & ->)].
  - by left.
  - right. by exists before, entry, after.
Qed.

End Unlock.

Section Buffers.
Context {MLSMessage CascadeConsensusMessage Welcome : Type}.
Variable epoch_of : MLSMessage → Epoch.
Variable ref : MLSMessage → MessageRef.
Variable marshal : MLSMessage → bytes.
Variable proposal_content : ExtendedMLSState → MLSMessage → option N.
Variable commit_content : ExtendedMLSState → MLSMessage → option (gset N).
Variable application_content : ExtendedMLSState → MLSMessage → option bytes.
Variable getCommitMembershipChanges :
  ExtendedMLSState → MLSMessage → list bytes * list bytes.
Variable unmarshal_cascade : bytes → option CascadeConsensusMessage.
Variable deliverCommit : ExtendedMLSState → MLSMessage → option ExtendedMLSState.
Variable cascade :
  list (Event MLSMessage CascadeConsensusMessage Welcome) → list (Upcall MLSMessage).

#[local] Abbreviation State := (State MLSMessage CascadeConsensusMessage Welcome).
#[local] Abbreviation react :=
  (react epoch_of ref marshal proposal_content commit_content application_content
         getCommitMembershipChanges unmarshal_cascade deliverCommit cascade).

(** X24.  As long as the cascade consensus decides no commit while a
    buffered message is processed, [advanceEpoch] returns exactly when the
    handlers return on the buffered messages of the current epoch, taken in
    the order of their arrival, the proposals first; it then leaves in the
    two buffers the messages of later epochs, in order, and no other. *)
Theorem advanceEpoch_handles_the_buffered_messages_of_the_epoch (fuel : nat)
    (st st' : State) (s : ExtendedMLSState) :
  (∀ calls u, u ∈ cascade calls → ∃ message, u = Candidate message) →
  state st = Some s →
  advanceEpoch epoch_of proposal_content application_content unmarshal_cascade
               cascade (react fuel) st = Done st'
  ↔ ∃ st1 st2,
      processAll (handleProposal epoch_of proposal_content application_content)
                 (current epoch_of (epoch s) (m_futureProposals st))
                 (collectGarbage st) = Done st1
      ∧ processAll (handleCascadeConsensusMessage epoch_of application_content
                      unmarshal_cascade cascade (react fuel))
                   (current epoch_of (epoch s) (m_futureCascadeConsensus st)) st1
        = Done st2
      ∧ st' = set_m_futureProposals (later epoch_of (epoch s) (m_futureProposals st))
                (set_m_futureCascadeConsensus
                   (later epoch_of (epoch s) (m_futureCascadeConsensus st)) st2).
Proof.
  intros Hcandidates Hs.
  apply (DDSProofs.advanceEpoch_without_decision epoch_of ref marshal proposal_content
           commit_content application_content getCommitMembershipChanges
           unmarshal_cascade deliverCommit cascade Hcandidates fuel st st' s Hs).
Qed.

End Buffers.

Import DDSScenario DDSCommitScenario.

(** The commit that references proposal 5 is stored; proposal 5 is then
    delivered and the call stops at the use of the erased entry. *)
Lemma last_awaited_proposal_erases_the_commit_it_completes_witness :
  m_incompleteCommits awaiting = [(commit_5, {[5]})]
  ∧ events awaiting = []
  ∧ (∃ st', completed = Undefined st')
  ∧ m_incompleteCommits (stopped completed) = []
  ∧ events (stopped completed) = [DeliverProposalOrMessage proposal_5].
Proof.
  assert (Hstored : m_incompleteCommits awaiting = [(commit_5, {[5]})])
    by (vm_compute; reflexivity).
  split; [exact Hstored|]. split; [vm_compute; reflexivity|].
  split; [|split; vm_compute; reflexivity].
  assert (Hs : state awaiting = Some (ReferenceLibrary.group 3 0 0))
    by (vm_compute; reflexivity).
  assert (Hvalid : isValidProposal msg_epoch proposal_of (ReferenceLibrary.group 3 0 0)
                                   proposal_5 = Some 5) by (vm_compute; reflexivity).
  destruct (last_awaited_proposal_erases_the_commit_it_completes
              (CascadeConsensusMessage := N) (Welcome := unit)
              msg_epoch proposal_of (λ _ _, None) proposal_5 awaiting
              (ReferenceLibrary.group 3 0 0) 5 Hs Hvalid)
    as [[Hall _]|(before & entry & after & Heq & Hall & He & Hrun)].
  - exfalso. rewrite Hstored in Hall. inversion_clear Hall as [|? ? Hne _].
    by apply Hne.
  - eexists. exact Hrun.
Defined.

Lemma advanceEpoch_handles_the_buffered_messages_of_the_epoch_witness :
  ∃ st',
    advanceEpoch msg_epoch proposal_of (λ _ _, None) decode_cascade silent
                 (react msg_epoch msg_body marshal_message proposal_of references_of
                        (λ _ _, None) (λ _ _, ([], [])) decode_cascade next_epoch silent 1)
                 buffered
    = Done st'
    ∧ m_futureCascadeConsensus st' = [mkMessage 2 3].
Proof.
  eexists. split; [|shelve].
  apply (advanceEpoch_handles_the_buffered_messages_of_the_epoch msg_epoch msg_body
           marshal_message proposal_of references_of (λ _ _, None) (λ _ _, ([], []))
           decode_cascade next_epoch silent 1 buffered _ (ReferenceLibrary.group 3 0 1)).
  - intros calls u Hu. by apply elem_of_nil in Hu.
  - vm_compute. reflexivity.
  - eexists _, _. split; [vm_compute; reflexivity|]. split; [vm_compute; reflexivity|].
    reflexivity.
  Unshelve. vm_compute. reflexivity.
Defined.

End DDSEngineProofs.

(** ** CAC signatures: what is signed is accepted back *)

Module CACSignatureRoundTrip.
Import CACSignature.

Section Ops.
Context `{MLSLibrary}.

(** X25.  Where the library returns from [sign] a content that carries the
    sender, the epoch and the data it was given and verifies under the state,
    and the codec decodes the body it encoded, [verifyAndConvert] accepts the
    content of a signature made by [sign] and returns that signature: the
    same sequence number, kind and reference, from the signing member. *)
Theorem verifyAndConvert_accepts_what_sign_made (state : ExtendedMLSState) (sequence : N)
    (witnessOrReady : bool) (referencedMessage : MessageRef) :
  let data := mkSigData sequence (if witnessOrReady then WITNESS_CODE else READY_CODE)
                        referencedMessage in
  let sig := sign state sequence witnessOrReady referencedMessage in
  ac_sender (authContent sig) = MemberSender (index state) →
  ac_epoch (authContent sig) = epoch state →
  ac_content (authContent sig) = ApplicationData (marshal_sig data) →
  MLSOps.verify state (authContent sig) = true →
  unmarshal_sig (marshal_sig data) = Some data →
  verifyAndConvert state (authContent sig) = Returned (Some sig)
  ∧ sender sig = index state
  ∧ isWitness sig = witnessOrReady
  ∧ isReady sig = negb witnessOrReady.
Proof.
  intros data sig Hsender Hepoch Hcontent Hverify Hcodec.
  split; [|split; [|split]].
  - apply CACSignatureProofs.verifyAndConvert_some. split.
    + split; [done|]. split; [done|]. split; [by rewrite Hsender | by rewrite Hcontent].
    + exists (marshal_sig data), data. split; [done|]. split; [done|].
      split; [destruct witnessOrReady; [by left | by right]|].
      subst sig data. unfold sign. simpl. by destruct witnessOrReady.
  - unfold sender. by rewrite Hsender.
  - by destruct witnessOrReady.
  - by destruct witnessOrReady.
Qed.

End Ops.

Import ReferenceLibrary.

Lemma verifyAndConvert_accepts_what_sign_made_witness :
  verifyAndConvert (group 3 1 0) (authContent (sign (group 3 1 0) 4 READY 1007))
  = Returned (Some (sign (group 3 1 0) 4 READY 1007))
  ∧ sender (sign (group 3 1 0) 4 READY 1007) = 1.
Proof.
  destruct (verifyAndConvert_accepts_what_sign_made (group 3 1 0) 4 READY 1007)
    as (Haccepted & Hsender & _); try (vm_compute; reflexivity).
  split; [exact Haccepted | exact Hsender].
Defined.

End CACSignatureRoundTrip.

(** ** [Buffer]: a queue of bytes within its allocation *)

Module BufferProofs.
Import Wire.

(** X26.  [append] adds the bytes at the end and enlarges the allocation
    when they do not fit, so that the bytes held never exceed it; [pop] then
    takes the oldest bytes, in the order in which they were appended, and
    leaves the others. *)
Theorem append_then_pop_is_first_in_first_out (buf : Buffer) (src : bytes) (size : nat) :
  (curSize buf ≤ reservedSize buf)%nat →
  (size ≤ curSize buf + length src)%nat →
  let buf' := append src buf in
  data buf' = data buf ++ src
  ∧ (curSize buf' ≤ reservedSize buf')%nat
  ∧ (reservedSize buf ≤ reservedSize buf')%nat
  ∧ fst (pop size buf') ++ data (snd (pop size buf')) = data buf ++ src
  ∧ length (fst (pop size buf')) = size
  ∧ (curSize (snd (pop size buf')) ≤ reservedSize (snd (pop size buf')))%nat.
Proof.
  intros Hfits Hsize buf'.
  assert (Hdata : data buf' = data buf ++ src).
  { subst buf'. unfold append. by destruct (_ <? _)%nat. }
  assert (Hreserved : (curSize buf' ≤ reservedSize buf'
                       ∧ reservedSize buf ≤ reservedSize buf')%nat).
  { subst buf'. unfold append, realloc, curSize in *.
    destruct (Nat.ltb_spec (reservedSize buf) (length (data buf) + length src));
      cbn; rewrite length_app; lia. }
  destruct Hreserved as [Hcur Hres].
  split; [done|]. split; [done|]. split; [done|].
  clearbody buf'. unfold pop, curSize in *. cbn [fst snd data reservedSize].
  rewrite Hdata in *. rewrite length_app in Hcur.
  split; [apply take_drop|]. split.
  - rewrite length_take, length_app. lia.
  - rewrite length_drop, length_app. lia.
Qed.

Lemma append_then_pop_is_first_in_first_out_witness :
  pop 2 (append [3; 4; 5] (mkBuffer [1; 2] 4)) = ([1; 2], mkBuffer [3; 4; 5] 8)
  ∧ fst (pop 2 (append [3; 4; 5] (mkBuffer [1; 2] 4)))
    ++ data (snd (pop 2 (append [3; 4; 5] (mkBuffer [1; 2] 4))))
    = [1; 2] ++ [3; 4; 5].
Proof.
  split; [vm_compute; reflexivity|].
  refine (proj1 (proj2 (proj2 (proj2
    (append_then_pop_is_first_in_first_out (mkBuffer [1; 2] 4) [3; 4; 5] 2 _ _)))));
    cbn; lia.
Defined.

End BufferProofs.

(** ** The key directory: publication *)

Module PKIServerProofs.
Import Wire PKI.

Section Server.
Variable unset : N.

#[local] Abbreviation process := (process unset).
#[local] Abbreviation ask := (ask unset).

Lemma ask_addr name queue address times (dir : Directory) :
  prekeys dir !! name = Some queue → addresses dir !! name = Some address →
  ask REQUEST_ADDR name times dir
  = (replicate times (QueryResponse (mkQueryResponse 1 (fst address) (snd address) [])),
     dir).
Proof.
  intros Hk Ha. induction times as [|times IH]; [done|].
  cbn [PKI.ask]. unfold PKI.process. cbn [type queryRequestId]. rewrite Hk, Ha.
  by rewrite IH.
Qed.

(** X27.  A PUBLISH request succeeds and replaces what the directory holds
    for the identity: the keys of the request, and as address the peer
    address of the connection, turned to host byte order, with the port that
    the request names.  The entries of the other identities stay.  From then
    on an ADDR request for the identity is answered with that address,
    however often it is made and without a key being used. *)
Theorem publish_replaces_the_entry (pub : PKIPublishRequest) (queryRequestId : bytes)
    (addr : N * N) (dir : Directory) (times : nat) :
  let published :=
    process (mkRequest REQUEST_PUBLISH pub queryRequestId) addr dir in
  let dir' := snd published in
  fst published = PublishResponse (mkPublishResponse 1)
  ∧ prekeys dir' !! id pub = Some (keys pub)
  ∧ addresses dir' !! id pub = Some (ntoh 4 (fst addr), port pub)
  ∧ (∀ other, other ≠ id pub →
       prekeys dir' !! other = prekeys dir !! other
       ∧ addresses dir' !! other = addresses dir !! other)
  ∧ ask REQUEST_ADDR (id pub) times dir'
    = (replicate times
         (QueryResponse (mkQueryResponse 1 (ntoh 4 (fst addr)) (port pub) [])),
       dir').
Proof.
  intros published dir'.
  assert (Hk : prekeys dir' !! id pub = Some (keys pub)) by apply lookup_insert_eq.
  assert (Ha : addresses dir' !! id pub = Some (ntoh 4 (fst addr), port pub))
    by apply lookup_insert_eq.
  split; [done|]. split; [done|]. split; [done|]. split.
  - intros other Hne. split; by apply lookup_insert_ne.
  - by rewrite (ask_addr (id pub) (keys pub) (ntoh 4 (fst addr), port pub) times dir').
Qed.

End Server.

End PKIServerProofs.
